(** * dirtree: recursive directory listing (I/O lab)

    A shallow embedding of [dirtree.c] and of its sibling [src/dirtree.c],
    which differ in one place only: how [processDir] reacts when [opendir]
    returns a NULL handle.

    Conventions of the embedding.
    - A C string is the list of its characters before the terminating NUL
      ([list ascii]); [nul_free] states that a list is such a string.
    - [unsigned int] and [unsigned long long] values are integers in [Z] and
      every addition on them is followed by its wrap-around.
    - Lengths of strings and arrays held in memory ([strlen], [num], [ndir])
      are natural numbers: they are bounded by the address space, far below
      the range of the C types that hold them.
    - Allocation ([malloc], [realloc], [asprintf]) is taken to succeed.
    - The operating system is a record of functions ([world]); a run is a
      function from the value of [errno] to the list of system calls and
      writes it performs, and to the way it ends.
    - A write to standard output leaves [errno] as it is. What [perror],
      [getpwuid] and [getgrgid] leave in [errno] is for the system to say:
      the C library clears or sets it in these calls. *)

From Stdlib Require Import ZArith Ascii String Lia.
From stdpp Require Import base list sorting.

Open Scope Z_scope.

(** ** C strings *)

Abbreviation cstr := (list ascii).

Definition lit (s : string) : cstr := list_ascii_of_string s.
Global Arguments lit : simpl never.

Definition NUL : ascii := Ascii.zero.

Definition newline : ascii := "010"%char.

Global Instance ascii_inhabited : Inhabited ascii := populate NUL.

Definition uchar (c : ascii) : Z := Z.of_N (N_of_ascii c).

Definition nul_free (s : cstr) : Prop := Forall (fun c => c <> NUL) s.

Definition strlen (s : cstr) : nat := length s.

(** [strcmp]: the characters are compared as [unsigned char]; the end of a
    list stands for the terminating NUL. Only the sign of the result is
    used by the program. *)
Fixpoint strcmp (s1 s2 : cstr) : Z :=
  match s1, s2 with
  | [], [] => 0
  | [], c2 :: _ => 0 - uchar c2
  | c1 :: _, [] => uchar c1 - 0
  | c1 :: t1, c2 :: t2 =>
      if Ascii.eqb c1 c2
      then (if Ascii.eqb c1 NUL then 0 else strcmp t1 t2)
      else uchar c1 - uchar c2
  end.

(** The string held by a buffer: its cells up to the first NUL. *)
Fixpoint c_str (buf : list ascii) : cstr :=
  match buf with
  | [] => []
  | c :: rest => if Ascii.eqb c NUL then [] else c :: c_str rest
  end.

(** [malloc n]: [n] cells; their content is indeterminate in C, every cell
    the program reads is written first. *)
Definition malloc (n : nat) : list ascii := replicate n NUL.

(** [strncpy dst src n]: the first [n] characters of [src], padded with NUL
    when [src] is shorter, overwrite the first [n] cells of [dst]. *)
Definition strncpy (dst : list ascii) (src : cstr) (n : nat) : list ascii :=
  take n (src ++ replicate n NUL) ++ drop n dst.

(** [printf("%-W.Ps", s)] and [printf("%-Ws", s)]: at most [prec] characters
    of [s], left-justified in a field of [width] columns. *)
Definition printf_ljust (width : nat) (prec : option nat) (s : cstr) : cstr :=
  let t := match prec with Some p => take p s | None => s end in
  t ++ replicate (width - length t) " "%char.

(** ** Constants of the program and of the system headers *)

Definition MAX_DIR : nat := 64.

Definition F_TREE : Z := 1.
Definition F_SUMMARY : Z := 2.
Definition F_VERBOSE : Z := 4.

Definition has_flag (flags f : Z) : bool := negb (Z.land flags f =? 0).

(** errno.h (Linux) *)
Definition ENOENT : Z := 2.
Definition ENOMEM : Z := 12.
Definition EACCES : Z := 13.
Definition ENOTDIR : Z := 20.

(** dirent.h *)
Definition DT_DIR : Z := 4.

(** sys/stat.h (Linux), octal in the header *)
Definition S_IFMT : Z := 61440.   (* 0170000 *)
Definition S_IFIFO : Z := 4096.   (* 0010000 *)
Definition S_IFCHR : Z := 8192.   (* 0020000 *)
Definition S_IFDIR : Z := 16384.  (* 0040000 *)
Definition S_IFBLK : Z := 24576.  (* 0060000 *)
Definition S_IFREG : Z := 32768.  (* 0100000 *)
Definition S_IFLNK : Z := 40960.  (* 0120000 *)
Definition S_IFSOCK : Z := 49152. (* 0140000 *)

Definition S_ISTYPE (mode mask : Z) : bool := Z.land mode S_IFMT =? mask.
Definition S_ISREG (mode : Z) : bool := S_ISTYPE mode S_IFREG.
Definition S_ISDIR (mode : Z) : bool := S_ISTYPE mode S_IFDIR.
Definition S_ISCHR (mode : Z) : bool := S_ISTYPE mode S_IFCHR.
Definition S_ISLNK (mode : Z) : bool := S_ISTYPE mode S_IFLNK.
Definition S_ISFIFO (mode : Z) : bool := S_ISTYPE mode S_IFIFO.
Definition S_ISBLK (mode : Z) : bool := S_ISTYPE mode S_IFBLK.
Definition S_ISSOCK (mode : Z) : bool := S_ISTYPE mode S_IFSOCK.

(** A C truth value used as an integer. *)
Definition b2z (b : bool) : Z := if b then 1 else 0.

Definition wrap32 (x : Z) : Z := x mod 2 ^ 32.
Definition wrap64 (x : Z) : Z := x mod 2 ^ 64.

(** ** Data *)

Record dirent := mk_dirent {
  d_ino : Z;
  d_type : Z;
  d_name : cstr
}.

Record stat := mk_stat {
  st_mode : Z;
  st_uid : Z;
  st_gid : Z;
  st_size : Z;
  st_blocks : Z
}.

Record summary := mk_summary {
  dirs : Z;
  files : Z;
  links : Z;
  fifos : Z;
  socks : Z;
  size : Z;
  blocks : Z
}.

Definition summary_zero : summary := mk_summary 0 0 0 0 0 0 0.

(** The fields of a [struct summary] lie in the range of their C type. *)
Definition summary_in_range (s : summary) : Prop :=
  (0 <= dirs s < 2 ^ 32) /\ (0 <= files s < 2 ^ 32) /\
  (0 <= links s < 2 ^ 32) /\ (0 <= fifos s < 2 ^ 32) /\
  (0 <= socks s < 2 ^ 32) /\
  (0 <= size s < 2 ^ 64) /\ (0 <= blocks s < 2 ^ 64).

(** ** dirent_compare *)

Definition dirent_compare (e1 e2 : dirent) : Z :=
  if negb (d_type e1 =? d_type e2) then
    if d_type e1 =? DT_DIR then -1
    else if d_type e2 =? DT_DIR then 1
    else strcmp (d_name e1) (d_name e2)
  else strcmp (d_name e1) (d_name e2).

(** The order [qsort] sorts by: [a] may stand before [b]. *)
Definition dirent_le (a b : dirent) : Prop := dirent_compare a b <= 0.

Global Instance dirent_le_dec (a b : dirent) : Decision (dirent_le a b) :=
  Z_le_dec (dirent_compare a b) 0.

(** [qsort(dirents, num, sizeof(struct dirent), dirent_compare)]: the C
    library sorts the array by the comparator; a merge sort stands for it. *)
Definition qsort (dirents : list dirent) : list dirent :=
  merge_sort dirent_le dirents.

(** ** gen_tree_shape *)

Definition gen_tree_shape (is_last : bool) (flags : Z) (pstr : cstr) : cstr :=
  let len := strlen pstr in
  if has_flag flags F_TREE then
    let result := malloc (len + 3) in
    let result := strncpy result pstr len in
    let result := <[(len + 2)%nat := NUL]> result in
    let result :=
      if (1 <? len)%nat then
        let result :=
          if Ascii.eqb (result !!! (len - 2)%nat) "`"%char
          then <[(len - 2)%nat := " "%char]> result
          else result in
        <[(len - 1)%nat := " "%char]> result
      else result in
    let result := <[len := if is_last then "`"%char else "|"%char]> result in
    let result := <[(len + 1)%nat := "-"%char]> result in
    c_str result
  else
    pstr ++ lit "  ".

(** The name column of an entry line:
    [if ((flags & F_VERBOSE) && strlen(final_pstr) > 54) printf("%-51.51s...")
     else printf("%-54s")]. *)
Definition name_field (flags : Z) (final_pstr : cstr) : cstr :=
  if has_flag flags F_VERBOSE && (54 <? strlen final_pstr)%nat
  then printf_ljust 51 (Some 51%nat) final_pstr ++ lit "..."
  else printf_ljust 54 None final_pstr.

(** ** update_stats *)

Definition update_stats (stats : summary) (i_stat : stat) : summary :=
  {| files := wrap32 (files stats + b2z (S_ISREG (st_mode i_stat)));
     dirs := wrap32 (dirs stats + b2z (S_ISDIR (st_mode i_stat)));
     links := wrap32 (links stats + b2z (S_ISLNK (st_mode i_stat)));
     fifos := wrap32 (fifos stats + b2z (S_ISFIFO (st_mode i_stat)));
     socks := wrap32 (socks stats + b2z (S_ISSOCK (st_mode i_stat)));
     size := wrap64 (size stats + st_size i_stat);
     blocks := wrap64 (blocks stats + st_blocks i_stat) |}.

(** ** The operating system *)

(** An open directory stream ([DIR]): the entries [readdir] has still to
    deliver, and the value of [errno] that comes with the NULL ending the
    stream ([0]: end of directory, otherwise a read error). *)
Record DIR := mk_DIR {
  pending : list dirent;
  final_errno : Z
}.

Record world := mk_world {
  (** [opendir]: the value of [errno] with a NULL handle (an error number
      is positive), or the stream *)
  w_opendir : cstr -> positive + DIR;
  (** [lstat]: the value of [errno] ([0]: success) and the content of the
      [struct stat] after the call (indeterminate after a failure) *)
  w_lstat : cstr -> Z * stat;
  (** [getpwuid] and [getgrgid]: the name, or NULL *)
  w_getpwuid : Z -> option cstr;
  w_getgrgid : Z -> option cstr;
  (** the value [getpwuid] and [getgrgid] leave in [errno], from the id
      and the value before the call (the C library may clear [errno] when
      it finds the entry, and sets it as it likes when it does not) *)
  w_getpwuid_errno : Z -> Z -> Z;
  w_getgrgid_errno : Z -> Z -> Z;
  (** the value [perror] leaves in [errno], from the value it reports (the
      call opens a stream of its own on standard error, which can fail) *)
  w_perror_errno : Z -> Z
}.

(** ** Runs *)

(** What a run does, in order: its system calls with their results, and
    each write to standard output or standard error. *)
Inductive event :=
  | EOpendir (path : cstr) (err : option positive)  (* None: a handle *)
  | EReaddir (r : dirent + Z)           (* an entry, or NULL with this errno *)
  | EClosedir
  | ELstat (path : cstr) (err : Z)
  | EPerror (e : Z)                       (* perror(NULL), standard error *)
  | EStderr (text : cstr)                 (* fprintf(stderr, ...) *)
  | EUsage (argv0 : cstr)                 (* the usage text, standard error *)
  | EBlank                                (* printf("\n\n") of syntax *)
  | EWarning (arg : cstr)                 (* "Warning: maximum number ..." *)
  | EHeader (verbose : bool)              (* column titles *)
  | ERule                                 (* the line of dashes *)
  | ERoot (name : cstr)                   (* printf("%s\n", directories[i]) *)
  | EEntry (pfx : cstr) (ent : dirent) (text : cstr)  (* the name column *)
  | EVerbose (user group : cstr) (sz blk : Z) (type : ascii)
  | ENewline
  | EErrorLine (pfx : cstr) (msg : cstr)  (* "%sERROR: ...\n" *)
  | EErrorCode (e : Z)                    (* "ERROR: error code %d\n" *)
  | ESummary (verbose : bool) (s : summary)
  | ETotal (ndir : nat) (verbose : bool) (t : summary).

(** How a run ends: it returns a value and leaves [errno]; the process
    exits; the behaviour is undefined (a NULL handle or an index outside a
    string was used); or the recursion went deeper than the model follows.
    With [Fault] the events of the run are those before the undefined
    step: the model does not follow the program beyond it. *)
Inductive outcome (A : Type) :=
  | Ret (a : A) (errno : Z)
  | Exit (status : Z)
  | Fault
  | OutOfFuel.
Arguments Ret {A} a errno.
Arguments Exit {A} status.
Arguments Fault {A}.
Arguments OutOfFuel {A}.

Definition M (A : Type) : Type := Z -> list event * outcome A.

Definition ret {A} (a : A) : M A := fun errno => ([], Ret a errno).

Definition bind {A B} (m : M A) (f : A -> M B) : M B := fun errno =>
  match m errno with
  | (t1, Ret a errno1) => let (t2, o) := f a errno1 in (t1 ++ t2, o)
  | (t1, Exit s) => (t1, Exit s)
  | (t1, Fault) => (t1, Fault)
  | (t1, OutOfFuel) => (t1, OutOfFuel)
  end.

Notation "x <- m ;; k" := (bind m (fun x => k))
  (at level 100, m at next level, right associativity).
Notation "m ;; k" := (bind m (fun _ => k))
  (at level 100, right associativity).

Definition emit (ev : event) : M unit := fun errno => ([ev], Ret tt errno).
Definition get_errno : M Z := fun errno => ([], Ret errno errno).
Definition set_errno (e : Z) : M unit := fun _ => ([], Ret tt e).
Definition exit {A} (status : Z) : M A := fun _ => ([], Exit status).
Definition fault {A} : M A := fun _ => ([], Fault).
Definition out_of_fuel {A} : M A := fun _ => ([], OutOfFuel).
Definition when (b : bool) (m : M unit) : M unit := if b then m else ret tt.

Definition EXIT_SUCCESS : Z := 0.
Definition EXIT_FAILURE : Z := 1.

(** [panic(msg)] with a message. *)
Definition panic {A} (msg : cstr) : M A :=
  emit (EStderr (msg ++ [newline])) ;; exit EXIT_FAILURE.

(** The two files: [dirtree.c] uses the handle without looking at it,
    [src/dirtree.c] returns when it is NULL. *)
Inductive variant := RootFile | SrcFile.

Definition checks_handle (v : variant) : bool :=
  match v with RootFile => false | SrcFile => true end.

(** The test of [getNext]: the entry is "." or "..". *)
Definition is_dot (next : dirent) : bool :=
  (strcmp (d_name next) (lit ".") =? 0) || (strcmp (d_name next) (lit "..") =? 0).

Section Program.

Context (w : world) (v : variant).

Definition opendir (path : cstr) : M (option DIR) :=
  match w_opendir w path with
  | inl e => set_errno (Z.pos e) ;; emit (EOpendir path (Some e)) ;; ret None
  | inr d => emit (EOpendir path None) ;; ret (Some d)
  end.

Definition closedir : M unit := emit EClosedir.

Definition lstat (path : cstr) : M stat :=
  let (e, buf) := w_lstat w path in
  when (negb (e =? 0)) (set_errno e) ;; emit (ELstat path e) ;; ret buf.

(** [perror(NULL)]: the message of [errno] on standard error. *)
Definition perror : M unit :=
  e <- get_errno ;; emit (EPerror e) ;; set_errno (w_perror_errno w e).

(** [getNext]: the do-while loop around [readdir]. The head of the stream
    is what [readdir] returns; the recursion is the next turn of the loop. *)
Fixpoint getNext_from (pend : list dirent) (fin : Z) : M (option dirent * DIR) :=
  match pend with
  | [] =>
      set_errno 0 ;;
      when (negb (fin =? 0)) (set_errno fin) ;; emit (EReaddir (inr fin)) ;;
      e <- get_errno ;; when (negb (e =? 0)) perror ;;
      ret (None, mk_DIR [] fin)
  | next :: rest =>
      set_errno 0 ;;
      emit (EReaddir (inl next)) ;;
      e <- get_errno ;; when (negb (e =? 0)) perror ;;
      if is_dot next then getNext_from rest fin
      else ret (Some next, mk_DIR rest fin)
  end.

(** A NULL handle given to [readdir] is undefined behaviour. *)
Definition getNext (dir : option DIR) : M (option dirent * option DIR) :=
  match dir with
  | None => fault
  | Some d =>
      r <- getNext_from (pending d) (final_errno d) ;;
      ret (fst r, Some (snd r))
  end.

(** The loop that fills [dirents]; every turn takes at least one entry off
    the stream, [turns] bounds their number. *)
Fixpoint read_dirents (turns : nat) (dir : option DIR)
    (getnext_result : option dirent) (dirents : list dirent) : M (list dirent) :=
  match getnext_result with
  | None => ret dirents
  | Some ent =>
      match turns with
      | O => out_of_fuel
      | S turns' =>
          r <- getNext dir ;;
          read_dirents turns' (snd r) (fst r) (dirents ++ [ent])
      end
  end.

Definition stream_length (dir : option DIR) : nat :=
  match dir with None => O | Some d => length (pending d) end.

Definition type_char (mode : Z) : ascii :=
  if S_ISREG mode then " "%char
  else if S_ISDIR mode then "d"%char
  else if S_ISCHR mode then "c"%char
  else if S_ISLNK mode then "l"%char
  else if S_ISFIFO mode then "f"%char
  else if S_ISBLK mode then "b"%char
  else if S_ISSOCK mode then "s"%char
  else NUL.

Definition getpwuid (uid : Z) : M (option cstr) :=
  e <- get_errno ;; set_errno (w_getpwuid_errno w uid e) ;; ret (w_getpwuid w uid).

Definition getgrgid (gid : Z) : M (option cstr) :=
  e <- get_errno ;; set_errno (w_getgrgid_errno w gid e) ;; ret (w_getgrgid w gid).

Definition print_verbose (st : stat) : M unit :=
  upwd <- getpwuid (st_uid st) ;;
  ggrp <- getgrgid (st_gid st) ;;
  match upwd, ggrp with
  | Some user, Some group =>
      emit (EVerbose user group (st_size st) (st_blocks st) (type_char (st_mode st)))
  | _, _ => panic (newline :: lit "Error on getpwuid /getgrgid.")
  end.

Definition print_errno (pstr : cstr) (flags : Z) : M unit :=
  let error_pstr := gen_tree_shape true flags pstr in
  e <- get_errno ;;
  if e =? EACCES then emit (EErrorLine error_pstr (lit "ERROR: Permission denied"))
  else if e =? ENOENT then emit (EErrorLine error_pstr (lit "ERROR: No such file or directory"))
  else if e =? ENOTDIR then emit (EErrorLine error_pstr (lit "ERROR: Not a directory"))
  else if e =? ENOMEM then panic (lit "Out of memory.")
  else emit (EErrorCode e) ;; panic (lit "quit process").

(** The [for] loop of [processDir] from index [i] on; [l] holds
    [dirents[i..num-1]] and [recurse] is [processDir] itself. *)
Fixpoint entries_loop (recurse : cstr -> cstr -> summary -> Z -> M summary)
    (new_dn pstr : cstr) (flags : Z) (num i : nat) (l : list dirent)
    (stats : summary) : M summary :=
  match l with
  | [] => ret stats
  | ent :: rest =>
      let path := new_dn ++ d_name ent in
      i_stat <- lstat path ;;
      let next_pstr := gen_tree_shape (Nat.eqb i (num - 1)) flags pstr in
      let final_pstr := next_pstr ++ d_name ent in
      emit (EEntry next_pstr ent (name_field flags final_pstr)) ;;
      when (has_flag flags F_VERBOSE) (print_verbose i_stat) ;;
      emit ENewline ;;
      let stats := update_stats stats i_stat in
      stats <- (if S_ISDIR (st_mode i_stat)
                then recurse (path ++ lit "/") next_pstr stats flags
                else ret stats) ;;
      entries_loop recurse new_dn pstr flags num (S i) rest stats
  end.

(** The body of [processDir]; [recurse] is the function itself, [stats]
    the summary the pointer refers to, and the value returned its content
    when the call returns. *)
Definition processDir_body (recurse : cstr -> cstr -> summary -> Z -> M summary)
    (dn pstr : cstr) (stats : summary) (flags : Z) : M summary :=
  match last dn with
  | None => fault                           (* dn[strlen(dn)-1] of "" *)
  | Some c =>
      let new_dn := if Ascii.eqb c "/"%char then dn else dn ++ lit "/" in
      dir <- opendir new_dn ;;
      match dir, checks_handle v with
      | None, true => print_errno pstr flags ;; ret stats
      | _, _ =>
          e <- get_errno ;;
          when (negb (e =? 0)) (print_errno pstr flags) ;;
          r <- getNext dir ;;
          dirents <- read_dirents (stream_length dir) (snd r) (fst r) [] ;;
          let dirents := qsort dirents in
          stats <- entries_loop recurse new_dn pstr flags
                     (length dirents) 0 dirents stats ;;
          closedir ;;
          ret stats
      end
  end.

(** [processDir]; [fuel] bounds the depth of the recursion. *)
Fixpoint processDir (fuel : nat) : cstr -> cstr -> summary -> Z -> M summary :=
  match fuel with
  | O => fun _ _ _ _ => out_of_fuel
  | S fuel' => processDir_body (processDir fuel')
  end.

(** [syntax(argv0, error)] *)
Definition syntax {A} (argv0 : cstr) (error : option cstr) : M A :=
  match error with
  | Some msg => emit (EStderr msg) ;; emit EBlank
  | None => ret tt
  end ;;
  emit (EUsage argv0) ;; exit EXIT_FAILURE.

(** The argument loop of [main] over [argv[1..argc-1]]; [directories] holds
    the [ndir] roots accepted so far. *)
Fixpoint parse_args (argv0 : cstr) (args : list cstr) (flags : Z)
    (directories : list cstr) : M (Z * list cstr) :=
  match args with
  | [] => ret (flags, directories)
  | arg :: rest =>
      if Ascii.eqb (hd NUL arg) "-"%char then
        if strcmp arg (lit "-t") =? 0 then
          parse_args argv0 rest (Z.lor flags F_TREE) directories
        else if strcmp arg (lit "-s") =? 0 then
          parse_args argv0 rest (Z.lor flags F_SUMMARY) directories
        else if strcmp arg (lit "-v") =? 0 then
          parse_args argv0 rest (Z.lor flags F_VERBOSE) directories
        else if strcmp arg (lit "-h") =? 0 then syntax argv0 None
        else syntax argv0 (Some (lit "Unrecognized option '" ++ arg ++ lit "'."))
      else if (length directories <? MAX_DIR)%nat then
        parse_args argv0 rest flags (directories ++ [arg])
      else
        emit (EWarning arg) ;; parse_args argv0 rest flags directories
  end.

(** [tstat.f += dstat.f], field by field. *)
Definition add_summary (tstat dstat : summary) : summary :=
  {| blocks := wrap64 (blocks tstat + blocks dstat);
     size := wrap64 (size tstat + size dstat);
     files := wrap32 (files tstat + files dstat);
     dirs := wrap32 (dirs tstat + dirs dstat);
     links := wrap32 (links tstat + links dstat);
     fifos := wrap32 (fifos tstat + fifos dstat);
     socks := wrap32 (socks tstat + socks dstat) |}.

(** The loop of [main] over [directories]. *)
Fixpoint roots_loop (fuel : nat) (flags : Z) (directories : list cstr)
    (tstat : summary) : M summary :=
  match directories with
  | [] => ret tstat
  | root :: rest =>
      let dstat := summary_zero in
      when (has_flag flags F_SUMMARY)
        (emit (EHeader (has_flag flags F_VERBOSE)) ;; emit ERule) ;;
      emit (ERoot root) ;;
      dstat <- processDir fuel root [] dstat flags ;;
      tstat <- (if has_flag flags F_SUMMARY then
                  emit ERule ;;
                  emit (ESummary (has_flag flags F_VERBOSE) dstat) ;;
                  ret (add_summary tstat dstat)
                else ret tstat) ;;
      roots_loop fuel flags rest tstat
  end.

(** [main]; [argv] is the whole vector, the program name first. *)
Definition main (fuel : nat) (argv : list cstr) : M Z :=
  let argv0 := hd [] argv in
  p <- parse_args argv0 (tl argv) 0 [] ;;
  let flags := fst p in
  let directories := if (length (snd p) =? 0)%nat then [lit "."] else snd p in
  let ndir := length directories in
  tstat <- roots_loop fuel flags directories summary_zero ;;
  when (has_flag flags F_SUMMARY && (1 <? ndir)%nat)
    (emit (ETotal ndir (has_flag flags F_VERBOSE) tstat)) ;;
  ret EXIT_SUCCESS.

End Program.

(** ** A small file system, for evaluating the program

    [t/] holds [a.txt] (10 bytes, 8 blocks), the directory [b] with a file
    [c] and a file of a long name, and the directory [noaccess], which
    cannot be read. Every file is owned by root; looking up root clears
    [errno], as the GNU C library does, and [perror] leaves it. *)
Module Demo.

Fixpoint streq (a b : cstr) : bool :=
  match a, b with
  | [], [] => true
  | x :: a', y :: b' => Ascii.eqb x y && streq a' b'
  | _, _ => false
  end.

Definition DT_REG : Z := 8.

Definition long_name : cstr := replicate 56 "x"%char.

Definition dot : dirent := mk_dirent 1 DT_DIR (lit ".").
Definition dotdot : dirent := mk_dirent 2 DT_DIR (lit "..").
Definition ent_a : dirent := mk_dirent 11 DT_REG (lit "a.txt").
Definition ent_b : dirent := mk_dirent 12 DT_DIR (lit "b").
Definition ent_c : dirent := mk_dirent 13 DT_REG (lit "c").
Definition ent_noaccess : dirent := mk_dirent 14 DT_DIR (lit "noaccess").
Definition ent_long : dirent := mk_dirent 15 DT_REG long_name.

Definition st_file (sz blk : Z) : stat := mk_stat (S_IFREG + 420) 0 0 sz blk.
Definition st_dir : stat := mk_stat (S_IFDIR + 493) 0 0 4096 8.
Definition st_none : stat := mk_stat 0 0 0 0 0.

Definition fs : world :=
  {| w_opendir := fun path =>
       if streq path (lit "t/")
       then inr (mk_DIR [dot; ent_noaccess; ent_a; dotdot; ent_b] 0)
       else if streq path (lit "t/b/")
       then inr (mk_DIR [dot; dotdot; ent_long; ent_c] 0)
       else if streq path (lit "t/noaccess/") then inl 13%positive
       else inl 2%positive;
     w_lstat := fun path =>
       if streq path (lit "t/a.txt") then (0, st_file 10 8)
       else if streq path (lit "t/b") then (0, st_dir)
       else if streq path (lit "t/b/c") then (0, st_file 3 8)
       else if streq path (lit "t/b/" ++ long_name) then (0, st_file 0 0)
       else if streq path (lit "t/noaccess") then (0, st_dir)
       else (ENOENT, st_none);
     w_getpwuid := fun uid => if uid =? 0 then Some (lit "root") else None;
     w_getgrgid := fun gid => if gid =? 0 then Some (lit "root") else None;
     w_getpwuid_errno := fun uid e => if uid =? 0 then 0 else e;
     w_getgrgid_errno := fun gid e => if gid =? 0 then 0 else e;
     w_perror_errno := fun e => e |}.

(** A command line with [n] roots [t] after the options [opts]. *)
Definition command_line (opts : list cstr) (n : nat) : list cstr :=
  lit "dirtree" :: opts ++ replicate n (lit "t").

End Demo.

(** ** The specification's [nextPrefix]

    Written from the specification's description of the child prefix, on
    the characters of the prefix from its end, to be compared with
    [gen_tree_shape]. *)

Definition corner : ascii := "`"%char.
Definition continuation : ascii := "|"%char.
Definition connector : ascii := "-"%char.
Definition space : ascii := " "%char.

(** The parent prefix with its last two columns adjusted, when it has two. *)
Definition blank_ancestor (p : cstr) : cstr :=
  match reverse p with
  | _ :: before :: front =>
      reverse front ++ [if Ascii.eqb before corner then space else before; space]
  | _ => p
  end.

Definition nextPrefix (p : cstr) (isLast treeMode : bool) : cstr :=
  if treeMode
  then blank_ancestor p ++ [if isLast then corner else continuation; connector]
  else p ++ [space; space].

(** ** The specification's entry kinds and tracked counters *)

Inductive kind :=
  | Regular | Directory | Symlink | Fifo | Socket
  | CharDevice | BlockDevice | Unknown.

Definition kind_eqb (a b : kind) : bool :=
  match a, b with
  | Regular, Regular | Directory, Directory | Symlink, Symlink
  | Fifo, Fifo | Socket, Socket | CharDevice, CharDevice
  | BlockDevice, BlockDevice | Unknown, Unknown => true
  | _, _ => false
  end.

(** The kind a [struct stat] reports, by the type bits of [st_mode]. *)
Definition kind_of (st : stat) : kind :=
  let fmt := Z.land (st_mode st) S_IFMT in
  if fmt =? S_IFREG then Regular
  else if fmt =? S_IFDIR then Directory
  else if fmt =? S_IFLNK then Symlink
  else if fmt =? S_IFIFO then Fifo
  else if fmt =? S_IFSOCK then Socket
  else if fmt =? S_IFCHR then CharDevice
  else if fmt =? S_IFBLK then BlockDevice
  else Unknown.

(** The counter of a summary that tracks a kind, for the five tracked. *)
Definition counter (k : kind) (s : summary) : option Z :=
  match k with
  | Regular => Some (files s)
  | Directory => Some (dirs s)
  | Symlink => Some (links s)
  | Fifo => Some (fifos s)
  | Socket => Some (socks s)
  | CharDevice | BlockDevice | Unknown => None
  end.

(** ** Orders on entries *)

(** The entry is a directory for the comparator: its [d_type] is [DT_DIR]. *)
Definition is_dir (e : dirent) : Prop := d_type e = DT_DIR.

Global Instance is_dir_dec (e : dirent) : Decision (is_dir e) :=
  Z.eq_dec (d_type e) DT_DIR.

(** Byte-wise order of the names. *)
Definition name_le (a b : dirent) : Prop := strcmp (d_name a) (d_name b) <= 0.

(** A three-way comparison that orders its arguments totally: reflexive,
    its sign flips when the arguments are exchanged, and transitive. *)
Definition total_comparison {A} (cmp : A -> A -> Z) : Prop :=
  (forall a, cmp a a = 0) /\
  (forall a b, cmp a b <= 0 \/ cmp b a <= 0) /\
  (forall a b, cmp a b < 0 <-> 0 < cmp b a) /\
  (forall a b c, cmp a b <= 0 -> cmp b c <= 0 -> cmp a c <= 0).

(** ** Reading a run *)

(** The number of directories open after an event, [d] being open before. *)
Definition depth_step (d : nat) (ev : event) : nat :=
  match ev with
  | EOpendir _ None => S d
  | EClosedir => pred d
  | _ => d
  end.

Definition depth_after (d : nat) (tr : list event) : nat := foldl depth_step d tr.

(** Every entry line of the run has a prefix of twice as many characters
    as directories are open when it is written, [d] being open at first. *)
Fixpoint entry_prefixes_ok (d : nat) (tr : list event) : Prop :=
  match tr with
  | [] => True
  | ev :: rest =>
      match ev with
      | EEntry pfx _ _ => length pfx = (2 * d)%nat
      | _ => True
      end /\ entry_prefixes_ok (depth_step d ev) rest
  end.

(** The entries whose lines are written while exactly [k] directories are
    open, in the order of the run. *)
Fixpoint entries_at (k d : nat) (tr : list event) : list dirent :=
  match tr with
  | [] => []
  | ev :: rest =>
      match ev with
      | EEntry _ ent _ => if (d =? k)%nat then [ent] else []
      | _ => []
      end ++ entries_at k (depth_step d ev) rest
  end.

(** The children of the directory a run of [processDir] lists, as rendered. *)
Definition children_rendered (tr : list event) : list dirent := entries_at 1 0 tr.

(** The entries for which a line is written. *)
Definition rendered (tr : list event) : list dirent :=
  omap (fun ev => match ev with EEntry _ ent _ => Some ent | _ => None end) tr.

(** The entries the listing step ([getNext]) returns. *)
Definition enumerated (tr : list event) : list dirent :=
  omap (fun ev => match ev with
                  | EReaddir (inl ent) => if is_dot ent then None else Some ent
                  | _ => None
                  end) tr.

(** The entry lines: the string printed ([final_pstr]) and the column. *)
Definition entry_lines (tr : list event) : list (cstr * cstr) :=
  omap (fun ev => match ev with
                  | EEntry pfx ent text => Some (pfx ++ d_name ent, text)
                  | _ => None
                  end) tr.

(** A directory could not be opened, or reading it failed. *)
Definition is_failure (ev : event) : bool :=
  match ev with
  | EOpendir _ (Some _) => true
  | EReaddir (inr e) => negb (e =? 0)
  | _ => false
  end.

(** The event [ev] is the diagnostic of the failure [failure]. *)
Definition reported_by (failure ev : event) : bool :=
  match failure, ev with
  | EReaddir (inr e), EPerror e' => e =? e'
  | EOpendir _ (Some _), EErrorLine _ _ => true
  | EOpendir _ (Some e), EErrorCode e' => Z.pos e =? e'
  | EOpendir _ (Some _), EStderr _ => true
  | _, _ => false
  end.

Definition report_step (waiting : option event) (ev : event) : option (option event) :=
  if match waiting with Some failure => reported_by failure ev | None => true end
  then Some (if is_failure ev then Some ev else None)
  else None.

(** A machine reading a run: [step] gives its next state, or [None] when
    the event breaks what the machine checks. *)
Fixpoint scan {St : Type} (step : St -> event -> option St) (s : St)
    (tr : list event) : option St :=
  match tr with
  | [] => Some s
  | ev :: rest =>
      match step s ev with
      | Some s' => scan step s' rest
      | None => None
      end
  end.

(** Every failure of the run is followed at once by its diagnostic. *)
Definition failures_reported (tr : list event) : Prop :=
  scan report_step None tr = Some None.

(** The summaries printed for the roots, and the grand totals printed. *)
Definition summaries (tr : list event) : list summary :=
  omap (fun ev => match ev with ESummary _ s => Some s | _ => None end) tr.

Definition grand_totals (tr : list event) : list summary :=
  omap (fun ev => match ev with ETotal _ _ t => Some t | _ => None end) tr.

Definition roots_traversed (tr : list event) : list cstr :=
  omap (fun ev => match ev with ERoot name => Some name | _ => None end) tr.

Definition warnings (tr : list event) : list cstr :=
  omap (fun ev => match ev with EWarning arg => Some arg | _ => None end) tr.

(** The roots a run starts on: for each root line, the name written and
    the path of the [opendir] that comes next, when an [opendir] does. *)
Fixpoint root_traversals (tr : list event) : list (cstr * option cstr) :=
  match tr with
  | [] => []
  | ERoot name :: rest =>
      (name, match rest with
             | EOpendir path _ :: _ => Some path
             | _ => None
             end) :: root_traversals rest
  | _ :: rest => root_traversals rest
  end.

(** The event is the line of a root. *)
Definition is_root_line (ev : event) : bool :=
  match ev with ERoot _ => true | _ => false end.

(** The field-wise sum of summaries, in the arithmetic of the C types. *)
Definition sum_of (f : summary -> Z) (l : list summary) : Z :=
  foldr (fun s acc => f s + acc) 0 l.

Definition sum_summaries (l : list summary) : summary :=
  {| dirs := wrap32 (sum_of dirs l);
     files := wrap32 (sum_of files l);
     links := wrap32 (sum_of links l);
     fifos := wrap32 (sum_of fifos l);
     socks := wrap32 (sum_of socks l);
     size := wrap64 (sum_of size l);
     blocks := wrap64 (sum_of blocks l) |}.

(** ** A logic of runs

    [safe step s r Q]: the machine [step], started in [s], reads the whole
    run [r], and [Q] holds of the way the run ends and of the state the
    machine is left in. *)
Definition safe {St A : Type} (step : St -> event -> option St) (s : St)
    (r : list event * outcome A) (Q : outcome A -> St -> Prop) : Prop :=
  match scan step s r.1 with
  | Some s' => Q r.2 s'
  | None => False
  end.

(** A condition on runs that return. *)
Definition on_ret {St A : Type} (Q : A -> Z -> St -> Prop)
    : outcome A -> St -> Prop :=
  fun o s => match o with Ret a e => Q a e s | _ => True end.

(** What the stream of a directory makes [readdir] report, to its end. *)
Definition listing_trace (pend : list dirent) (fin : Z) : list event :=
  map (fun ent => EReaddir (inl ent)) pend ++
  EReaddir (inr fin) :: (if fin =? 0 then [] else [EPerror fin]).

(** The value of [errno] after the NULL that ends a stream: what [perror]
    leaves of it when the stream ended on an error. *)
Definition errno_after_stream (w : world) (fin : Z) : Z :=
  if fin =? 0 then 0 else w_perror_errno w fin.

(** The value of [errno] after the two look-ups of [print_verbose]. *)
Definition errno_after_names (w : world) (st : stat) (e : Z) : Z :=
  w_getgrgid_errno w (st_gid st) (w_getpwuid_errno w (st_uid st) e).

(** The paths longer than [bound] cannot be opened (PATH_MAX). *)
Definition path_bounded (w : world) (bound : nat) : Prop :=
  forall path, (bound < length path)%nat -> exists e, w_opendir w path = inl e.

(** ** Machines that read runs *)

Global Instance ascii_eq_dec : EqDecision ascii := Ascii.ascii_dec.

(** Events that bear on no property below but the reporting of failures:
    diagnostics, the details of a line, the end of a line, [lstat]. *)
Definition is_quiet (ev : event) : bool :=
  match ev with
  | ELstat _ _ | EStderr _ | EVerbose _ _ _ _ _ | ENewline
  | EErrorLine _ _ | EErrorCode _ => true
  | _ => false
  end.

(** The machine of [entry_prefixes_ok]; its state is the number of open
    directories. *)
Definition prefix_step (d : nat) (ev : event) : option nat :=
  match ev with
  | EEntry pfx _ _ => if decide (length pfx = (2 * d)%nat) then Some d else None
  | _ => Some (depth_step d ev)
  end.

(** The machine of [entries_at]. *)
Definition child_step (k : nat) (s : nat * list dirent) (ev : event)
    : option (nat * list dirent) :=
  Some (depth_step s.1 ev,
        match ev with
        | EEntry _ ent _ => if (s.1 =? k)%nat then s.2 ++ [ent] else s.2
        | _ => s.2
        end).

(** The machine of [rendered] and [enumerated]. *)
Definition collect_step (s : list dirent * list dirent) (ev : event)
    : option (list dirent * list dirent) :=
  Some (match ev with
        | EEntry _ ent _ => s.1 ++ [ent]
        | _ => s.1
        end,
        match ev with
        | EReaddir (inl ent) => if is_dot ent then s.2 else s.2 ++ [ent]
        | _ => s.2
        end).

(** The machine that checks every event against [P]. *)
Definition check_step (P : event -> Prop) `{forall ev, Decision (P ev)}
    (s : unit) (ev : event) : option unit :=
  if decide (P ev) then Some tt else None.

(** The events a run of [processDir] under [flags] consists of; an entry
    line shows the name column of its prefix and name. *)
Definition dir_event (flags : Z) (ev : event) : Prop :=
  match ev with
  | EEntry pfx ent text => text = name_field flags (pfx ++ d_name ent)
  | EOpendir _ _ | EReaddir _ | EClosedir | EPerror _ => True
  | _ => is_quiet ev = true
  end.

Global Instance dir_event_dec (flags : Z) (ev : event) : Decision (dir_event flags ev).
Proof. destruct ev; simpl; apply _. Defined.

(** The machine that does nothing. *)
Definition idle_step (s : unit) (ev : event) : option unit := Some tt.

(** ** What a call of [processDir] keeps

    Each of these states, for a function [f] that stands for [processDir],
    what one of the machines finds in every run of [f]. *)

Abbreviation dir_function := (cstr -> cstr -> summary -> Z -> M summary).

(** Called with a prefix of [2 * d] characters while [d] directories are
    open, [f] writes entry lines of the right prefix length and leaves [d]
    directories open when it returns. *)
Definition keeps_prefixes (f : dir_function) : Prop :=
  forall dn pstr stats flags e d,
    nul_free pstr -> length pstr = (2 * d)%nat ->
    safe prefix_step d (f dn pstr stats flags e) (on_ret (fun _ _ d' => d' = d)).

(** The events of [f] are those of a directory listing. *)
Definition keeps_events (f : dir_function) : Prop :=
  forall dn pstr stats flags e,
    safe (check_step (dir_event flags)) tt (f dn pstr stats flags e)
      (fun _ _ => True).

(** When [f] returns, the lines it wrote with one directory open are a
    sorted array of entries, if none was open at the call, and it wrote no
    such line otherwise. *)
Definition lists_children (f : dir_function) : Prop :=
  forall dn pstr stats flags e d acc,
    safe (child_step 1) (d, acc) (f dn pstr stats flags e)
      (on_ret (fun _ _ s' =>
         exists es, s' = (d, acc ++ if (d =? 0)%nat then qsort es else []))).

(** When [f] returns, the entries it rendered are those it enumerated. *)
Definition renders_all (f : dir_function) : Prop :=
  forall dn pstr stats flags e r n,
    safe collect_step (r, n) (f dn pstr stats flags e)
      (on_ret (fun _ _ s' =>
         exists r' n', s' = (r ++ r', n ++ n') /\ r' ≡ₚ n')).

(** However [f] ends, each failure met was reported. *)
Definition reports_failures (f : dir_function) : Prop :=
  forall dn pstr stats flags e,
    safe report_step None (f dn pstr stats flags e) (fun _ s' => s' = None).

(** The ways a call on a path may end: it returns, or the process exits
    with [EXIT_FAILURE], or (in the file that does not look at the handle)
    the behaviour is undefined. *)
Definition ends_well (v : variant) (o : outcome summary) : Prop :=
  match o with
  | Ret _ _ => True
  | Exit status => status = EXIT_FAILURE
  | Fault => v = RootFile
  | OutOfFuel => False
  end.

(** With [fuel] and paths bounded by [bound], [f] ends in one of them. *)
Definition terminates (v : variant) (bound fuel : nat) (f : dir_function) : Prop :=
  forall dn pstr stats flags e,
    dn <> [] -> (bound + 3 <= fuel + length dn)%nat -> (1 <= fuel)%nat ->
    ends_well v (f dn pstr stats flags e).2.

(** ** The command line and the roots *)

(** The test of the argument loop: [argv[i][0] == '-']. *)
Definition is_option (arg : cstr) : bool := Ascii.eqb (hd NUL arg) "-"%char.

(** The flag an argument sets. *)
Definition flag_of (arg : cstr) : Z :=
  if negb (is_option arg) then 0
  else if strcmp arg (lit "-t") =? 0 then F_TREE
  else if strcmp arg (lit "-s") =? 0 then F_SUMMARY
  else if strcmp arg (lit "-v") =? 0 then F_VERBOSE
  else 0.

(** The flags the arguments [args] add to [flags]. *)
Definition flags_with (flags : Z) (args : list cstr) : Z :=
  foldl (fun f arg => Z.lor f (flag_of arg)) flags args.

Definition positionals (args : list cstr) : list cstr :=
  List.filter (fun arg => negb (is_option arg)) args.

Definition valid_args (args : list cstr) : bool :=
  forallb (fun arg => negb (is_option arg) ||
                      (strcmp arg (lit "-t") =? 0) ||
                      (strcmp arg (lit "-s") =? 0) ||
                      (strcmp arg (lit "-v") =? 0)) args.

(** The roots given on a command line, the program name first. *)
Definition roots_given (argv : list cstr) : list cstr := positionals (tl argv).

Definition option_given (o : cstr) (argv : list cstr) : bool :=
  existsb (fun arg => is_option arg && (strcmp arg o =? 0)) (tl argv).

(** Every option of the command line is [-t], [-s] or [-v]. *)
Definition options_valid (argv : list cstr) : bool := valid_args (tl argv).

(** The path [processDir] opens for [dn]. *)
Definition normalized (dn : cstr) : cstr :=
  match last dn with
  | Some c => if Ascii.eqb c "/"%char then dn else dn ++ lit "/"
  | None => dn
  end.

(** The text of the error line for the three conditions of a directory
    that cannot be opened. *)
Definition open_error_text (e : Z) : option cstr :=
  if e =? EACCES then Some (lit "ERROR: Permission denied")
  else if e =? ENOENT then Some (lit "ERROR: No such file or directory")
  else if e =? ENOTDIR then Some (lit "ERROR: Not a directory")
  else None.

(** The events of the argument loop. *)
Definition is_cli_event (ev : event) : bool :=
  match ev with
  | EWarning _ | EStderr _ | EUsage _ | EBlank => true
  | _ => false
  end.

(** The machine of [summaries] and [grand_totals]. *)
Definition total_step (s : list summary * list summary) (ev : event)
    : option (list summary * list summary) :=
  Some (match ev with ESummary _ x => s.1 ++ [x] | _ => s.1 end,
        match ev with ETotal _ _ t => s.2 ++ [t] | _ => s.2 end).

(** The machine of [roots_traversed] and [warnings]. *)
Definition cli_step (s : list cstr * list cstr) (ev : event)
    : option (list cstr * list cstr) :=
  Some (match ev with ERoot name => s.1 ++ [name] | _ => s.1 end,
        match ev with EWarning arg => s.2 ++ [arg] | _ => s.2 end).

(** ** A listing that is given up

    The machine follows a run up to a directory that cannot be opened for
    one of the three conditions; it then takes the error line, and nothing
    after it. *)
Inductive abandon_state := Listing | Refused | Abandoned.

Definition abandon_step (s : abandon_state) (ev : event) : option abandon_state :=
  match s, ev with
  | Listing, EOpendir _ (Some err) =>
      Some (match open_error_text (Z.pos err) with
            | Some _ => Refused
            | None => Listing
            end)
  | Listing, _ => Some Listing
  | Refused, EErrorLine _ _ => Some Abandoned
  | _, _ => None
  end.

(** The way a run the machine has read must end: given up after the error
    line, it has run into the NULL handle. *)
Definition abandoned_on_fault {A} (o : outcome A) (s : abandon_state) : Prop :=
  match s with
  | Listing => True
  | Refused => False
  | Abandoned => o = Fault
  end.

Definition gives_up (f : dir_function) : Prop :=
  forall dn pstr stats flags e,
    safe abandon_step Listing (f dn pstr stats flags e) abandoned_on_fault.

(** ** Further readings of a run *)

(** *** Messages

    What [print_errno], [print_verbose] and [panic] write. *)
Definition is_message (ev : event) : bool :=
  match ev with
  | EStderr _ | EErrorLine _ _ | EErrorCode _ | EVerbose _ _ _ _ _ => true
  | _ => false
  end.

(** *** The shape of a prefix

    In tree mode a prefix is a column ["| "] or ["  "] for every ancestor
    but the root, followed by the branch ["|-"] or ["`-"]; without the
    tree flag it consists of blanks. *)

Fixpoint cells_ok (p : cstr) : bool :=
  match p with
  | [] => true
  | a :: b :: rest =>
      (Ascii.eqb a continuation || Ascii.eqb a space) && Ascii.eqb b space &&
      cells_ok rest
  | _ => false
  end.

Definition branch_ok (g : cstr) : bool :=
  match g with
  | [a; b] => (Ascii.eqb a continuation || Ascii.eqb a corner) && Ascii.eqb b connector
  | _ => false
  end.

Definition tree_prefix (p : cstr) : bool :=
  cells_ok (take (length p - 2) p) && branch_ok (drop (length p - 2) p).

Definition blank_prefix (p : cstr) : bool := forallb (fun c => Ascii.eqb c space) p.

Definition prefix_shape (flags : Z) (p : cstr) : bool :=
  if has_flag flags F_TREE then tree_prefix p else blank_prefix p.

(** The prefix a line starts with has the shape of the mode. *)
Definition shaped_event (flags : Z) (ev : event) : Prop :=
  match ev with
  | EEntry pfx _ _ | EErrorLine pfx _ => prefix_shape flags pfx = true
  | _ => True
  end.

Global Instance shaped_event_dec (flags : Z) (ev : event) :
  Decision (shaped_event flags ev).
Proof. destruct ev; simpl; apply _. Defined.

(** The prefix [main] passes, or one that [gen_tree_shape] built. *)
Definition ancestor_prefix (flags : Z) (pstr : cstr) : Prop :=
  pstr = [] \/ prefix_shape flags pstr = true.

Definition keeps_shape (f : dir_function) : Prop :=
  forall dn pstr stats flags e,
    ancestor_prefix flags pstr ->
    safe (check_step (shaped_event flags)) tt (f dn pstr stats flags e)
      (fun _ _ => True).

(** *** The branches of a directory *)

(** The prefixes of the entry lines written while exactly [k] directories
    are open, in the order of the run. *)
Fixpoint prefixes_at (k d : nat) (tr : list event) : list cstr :=
  match tr with
  | [] => []
  | ev :: rest =>
      match ev with
      | EEntry pfx _ _ => if (d =? k)%nat then [pfx] else []
      | _ => []
      end ++ prefixes_at k (depth_step d ev) rest
  end.

(** The machine of [prefixes_at]. *)
Definition branch_step (k : nat) (s : nat * list cstr) (ev : event)
    : option (nat * list cstr) :=
  Some (depth_step s.1 ev,
        match ev with
        | EEntry pfx _ _ => if (s.1 =? k)%nat then s.2 ++ [pfx] else s.2
        | _ => s.2
        end).

(** The prefixes of the entries [i], ..., [i + n - 1] of an array of [num]
    entries listed under the prefix [pstr]. *)
Definition sibling_prefixes (flags : Z) (pstr : cstr) (num i n : nat) : list cstr :=
  map (fun j => gen_tree_shape (Nat.eqb j (num - 1)) flags pstr) (seq i n).

Definition draws_branches (f : dir_function) : Prop :=
  forall dn pstr stats flags e d acc,
    safe (branch_step 1) (d, acc) (f dn pstr stats flags e)
      (on_ret (fun _ _ s' =>
         exists num, s' = (d, acc ++ if (d =? 0)%nat
                                     then sibling_prefixes flags pstr num 0 num
                                     else []))).

(** *** The lines of a listing

    An entry line is written in this order: [lstat] of the entry, the name
    column, the details (in verbose mode only), the end of the line. The
    machine follows the line being written and compares the details with
    what [lstat] and the user and group tables hold for the entry. *)

Inductive line_state :=
  | LineStart
  | Statted (path : cstr)
  | NameWritten (path : cstr)
  | DetailsWritten
  | ProcessEnded.

Definition details_of (w : world) (path : cstr) (ev : event) : Prop :=
  let st := (w_lstat w path).2 in
  match ev with
  | EVerbose user group sz blk type =>
      w_getpwuid w (st_uid st) = Some user /\
      w_getgrgid w (st_gid st) = Some group /\
      sz = st_size st /\ blk = st_blocks st /\ type = type_char (st_mode st)
  | _ => False
  end.

Global Instance details_of_dec (w : world) (path : cstr) (ev : event) :
  Decision (details_of w path ev).
Proof. destruct ev; simpl; apply _. Defined.

Definition line_step (w : world) (verbose : bool) (s : line_state) (ev : event)
    : option line_state :=
  match s, ev with
  | ProcessEnded, _ => None
  | _, EStderr _ => Some ProcessEnded
  | LineStart, ELstat path _ => Some (Statted path)
  | LineStart, (EEntry _ _ _ | EVerbose _ _ _ _ _ | ENewline) => None
  | LineStart, _ => Some LineStart
  | Statted path, EEntry _ ent _ =>
      if decide (d_name ent `suffix_of` path) then Some (NameWritten path) else None
  | NameWritten path, EVerbose _ _ _ _ _ =>
      if verbose && bool_decide (details_of w path ev) then Some DetailsWritten else None
  | NameWritten _, ENewline => if verbose then None else Some LineStart
  | DetailsWritten, ENewline => Some LineStart
  | _, _ => None
  end.

(** The state a run leaves the machine in: between two lines, or after the
    message of [panic] when the process exits. *)
Definition line_end (o : outcome summary) : line_state :=
  match o with Exit _ => ProcessEnded | _ => LineStart end.

Definition keeps_lines (w : world) (f : dir_function) : Prop :=
  forall dn pstr stats flags e,
    safe (line_step w (has_flag flags F_VERBOSE)) LineStart
      (f dn pstr stats flags e) (fun o s' => s' = line_end o).

(** *** The text of the details and of the summary

    The event [EVerbose] stands for the text [verbose_text] and the event
    [ESummary] for the text [summary_line]. First the conversions of
    [printf]: a decimal number, and a string right-justified in a field. *)

Definition digit (d : Z) : ascii := ascii_of_N (Z.to_N (48 + d)).

(** The decimal digits of [n], the most significant first, in front of
    [acc]; a number has no more decimal digits than binary ones, which
    bounds the recursion. *)
Fixpoint digits (fuel : nat) (n : Z) (acc : cstr) : cstr :=
  match fuel with
  | O => acc
  | S fuel' =>
      let acc := digit (n mod 10) :: acc in
      if n / 10 =? 0 then acc else digits fuel' (n / 10) acc
  end.

(** [%d], [%u], [%ld], [%lld] of the value [n]. *)
Definition decimal (n : Z) : cstr :=
  if n <? 0 then "-"%char :: digits (S (Z.to_nat (Z.log2 (- n)))) (- n) []
  else digits (S (Z.to_nat (Z.log2 n))) n [].

(** [printf("%Ws", s)]: [s] right-justified in [width] columns. *)
Definition printf_rjust (width : nat) (s : cstr) : cstr :=
  replicate (width - length s) " "%char ++ s.

(** An [unsigned long long] given to [%lld]: read as a signed value. *)
Definition as_signed64 (x : Z) : Z := if x <? 2 ^ 63 then x else x - 2 ^ 64.

(** [printf("  %8s:%-8s  %10ld  %8ld  %c", user, group, size, blocks, type)] *)
Definition verbose_text (user group : cstr) (sz blk : Z) (type : ascii) : cstr :=
  lit "  " ++ printf_rjust 8 user ++ lit ":" ++ printf_ljust 8 None group ++
  lit "  " ++ printf_rjust 10 (decimal sz) ++
  lit "  " ++ printf_rjust 8 (decimal blk) ++
  lit "  " ++ [type].

(** [asprintf(&summary, "%u %s, %u %s, %u %s, %u %s, and %u %s", ...)] *)
Definition counted (n : Z) (one many : string) : cstr :=
  decimal n ++ lit " " ++ lit (if n =? 1 then one else many).

Definition summary_text (s : summary) : cstr :=
  counted (files s) "file" "files" ++ lit ", " ++
  counted (dirs s) "directory" "directories" ++ lit ", " ++
  counted (links s) "link" "links" ++ lit ", " ++
  counted (fifos s) "pipe" "pipes" ++ lit ", and " ++
  counted (socks s) "socket" "sockets".

(** The line of a summary:
    [printf("%-68.68s   %14lld %9lld\n\n", summary, dstat.size, dstat.blocks)]
    in verbose mode and [printf("%s\n\n", summary)] otherwise. *)
Definition summary_line (verbose : bool) (s : summary) : cstr :=
  if verbose then
    printf_ljust 68 (Some 68%nat) (summary_text s) ++ lit "   " ++
    printf_rjust 14 (decimal (as_signed64 (size s))) ++ lit " " ++
    printf_rjust 9 (decimal (as_signed64 (blocks s))) ++ [newline; newline]
  else summary_text s ++ [newline; newline].

(** The number a string of decimal digits denotes. *)
Definition digits_value (s : cstr) : Z :=
  foldl (fun v c => 10 * v + (uchar c - 48)) 0 s.

(** *** What a summary counts *)

Global Instance summary_eq_dec : EqDecision summary.
Proof. solve_decision. Defined.

(** The [struct stat] contents [lstat] delivered in a run, in order. *)
Definition lstat_results (w : world) (tr : list event) : list stat :=
  omap (fun ev => match ev with
                  | ELstat path _ => Some (w_lstat w path).2
                  | _ => None
                  end) tr.

(** The machine accumulates [update_stats] over the results of [lstat]
    from the line of a root on, and compares each summary printed with what
    it has accumulated. *)
Definition account_step (w : world) (s : summary) (ev : event) : option summary :=
  match ev with
  | ERoot _ => Some summary_zero
  | ELstat path _ => Some (update_stats s (w_lstat w path).2)
  | ESummary _ x => if decide (x = s) then Some s else None
  | _ => Some s
  end.

Definition keeps_account (w : world) (f : dir_function) : Prop :=
  forall dn pstr stats flags e,
    safe (account_step w) stats (f dn pstr stats flags e)
      (on_ret (fun stats' _ s' => s' = stats')).

(** The sum of a field over the results of [lstat]. *)
Definition sum_stat (f : stat -> Z) (l : list stat) : Z :=
  foldr (fun st acc => f st + acc) 0 l.

(** The number of results of [lstat] of a type. *)
Definition count_stat (is_type : Z -> bool) (l : list stat) : Z :=
  Z.of_nat (length (List.filter (fun st => is_type (st_mode st)) l)).

(** *** The paths of a traversal

    The machine knows the directory the traversal starts at and the
    entries [lstat] reported as directories; a directory that is opened
    must be one of them, and [lstat] must be given a path inside one. *)
Definition path_step (w : world) (known : list cstr) (ev : event)
    : option (list cstr) :=
  match ev with
  | EOpendir path _ => if decide (path ∈ known) then Some known else None
  | ELstat path _ =>
      if decide (Exists (fun d => d `prefix_of` path) known)
      then Some (if S_ISDIR (st_mode (w_lstat w path).2)
                 then (path ++ lit "/") :: known else known)
      else None
  | _ => Some known
  end.

Definition keeps_paths (w : world) (f : dir_function) : Prop :=
  forall dn pstr stats flags e known,
    normalized dn ∈ known ->
    safe (path_step w) known (f dn pstr stats flags e)
      (fun _ known' => known ⊆ known').

(** The paths of the events of a run. *)
Definition event_path (ev : event) : option cstr :=
  match ev with
  | EOpendir path _ | ELstat path _ => Some path
  | _ => None
  end.

(** *** The descent into directories

    After [lstat] reports a directory, the machine waits for the directory
    to be opened: until then nothing may be read, closed or given to
    [lstat]. *)
Definition descent_step (w : world) (waiting : option cstr) (ev : event)
    : option (option cstr) :=
  match ev with
  | ELstat path _ =>
      match waiting with
      | Some _ => None
      | None => Some (if S_ISDIR (st_mode (w_lstat w path).2)
                      then Some (path ++ lit "/") else None)
      end
  | EOpendir path _ =>
      match waiting with
      | Some dir => if decide (path = dir) then Some None else None
      | None => Some None
      end
  | EReaddir _ | EClosedir | EPerror _ =>
      match waiting with Some _ => None | None => Some None end
  | _ => Some waiting
  end.

Definition keeps_descent (w : world) (f : dir_function) : Prop :=
  forall dn pstr stats flags e waiting,
    waiting = None \/ waiting = Some (normalized dn) ->
    safe (descent_step w) waiting (f dn pstr stats flags e)
      (on_ret (fun _ _ waiting' => waiting' = None)).

(** *** Directory handles

    The state is the number of open handles: [readdir] and [closedir] need
    one. *)
Definition handle_step (n : nat) (ev : event) : option nat :=
  match ev with
  | EOpendir _ None => Some (S n)
  | EReaddir _ => if (0 <? n)%nat then Some n else None
  | EClosedir => match n with O => None | S k => Some k end
  | _ => Some n
  end.

Definition keeps_handles (f : dir_function) : Prop :=
  forall dn pstr stats flags e n,
    safe handle_step n (f dn pstr stats flags e) (on_ret (fun _ _ n' => n' = n)).

(** Called on a path that is not empty, [f] hands no NULL handle to
    [readdir] and reads outside no string. *)
Definition never_faults (f : dir_function) : Prop :=
  forall dn pstr stats flags e,
    dn <> [] -> (f dn pstr stats flags e).2 <> Fault.

(** *** The summary and the grand total

    What [main] writes for the summary flag only. *)

Definition is_summary_event (ev : event) : bool :=
  match ev with
  | EHeader _ | ERule | ESummary _ _ | ETotal _ _ _ => true
  | _ => false
  end.

(** The state is the number of root lines written; the grand total must
    announce that number, which must be above one. *)
Definition announce_step (n : nat) (ev : event) : option nat :=
  match ev with
  | ERoot _ => Some (S n)
  | ETotal ndir _ _ => if decide (ndir = n /\ (1 < n)%nat) then Some n else None
  | _ => Some n
  end.

(** *** The two files

    The events of a directory that could not be opened, and what it is for
    a directory function to run as another does as long as the other meets
    none of them. *)

Definition is_open_failure (ev : event) : bool :=
  match ev with EOpendir _ (Some _) => true | _ => false end.

Definition agree (f g : dir_function) : Prop :=
  forall dn pstr stats flags e,
    Forall (fun ev => is_open_failure ev = false) (f dn pstr stats flags e).1 ->
    g dn pstr stats flags e = f dn pstr stats flags e.

(** *** Other systems

    Standard error is a pipe: [perror] fails to open its stream on it and
    leaves EINVAL in [errno]. *)
Definition EINVAL : Z := 22.

Definition piped_stderr : world :=
  {| w_opendir := w_opendir Demo.fs;
     w_lstat := w_lstat Demo.fs;
     w_getpwuid := w_getpwuid Demo.fs;
     w_getgrgid := w_getgrgid Demo.fs;
     w_getpwuid_errno := w_getpwuid_errno Demo.fs;
     w_getgrgid_errno := w_getgrgid_errno Demo.fs;
     w_perror_errno := fun _ => 22 |}.

(** No directory can be opened: the table of open files is full. *)
Definition EMFILE : Z := 24.

Definition full_table : world :=
  {| w_opendir := fun _ => inl 24%positive;
     w_lstat := fun _ => (ENOENT, Demo.st_none);
     w_getpwuid := fun _ => None;
     w_getgrgid := fun _ => None;
     w_getpwuid_errno := fun _ e => e;
     w_getgrgid_errno := fun _ e => e;
     w_perror_errno := fun e => e |}.

(** * Properties *)

(** ** C strings *)

Lemma uchar_range c : 0 <= uchar c < 256.
Proof.
  unfold uchar. pose proof (N_ascii_bounded c) as H. lia.
Qed.

Lemma uchar_inj c1 c2 : uchar c1 = uchar c2 -> c1 = c2.
Proof.
  unfold uchar. intros H.
  rewrite <- (ascii_N_embedding c1), <- (ascii_N_embedding c2).
  f_equal. lia.
Qed.

Lemma uchar_NUL c : uchar c = 0 <-> c = NUL.
Proof.
  split.
  - intros H. apply uchar_inj. rewrite H. reflexivity.
  - intros ->. reflexivity.
Qed.

Lemma ascii_eqb_NUL c : c <> NUL -> Ascii.eqb c NUL = false.
Proof. intros H. apply Ascii.eqb_neq. exact H. Qed.

Lemma c_str_terminated (s : cstr) (rest : list ascii) :
  nul_free s -> c_str (s ++ NUL :: rest) = s.
Proof.
  induction 1 as [|c s Hc _ IH]; simpl.
  - reflexivity.
  - rewrite (ascii_eqb_NUL c Hc), IH. reflexivity.
Qed.

Lemma nul_free_app (s t : cstr) : nul_free s -> nul_free t -> nul_free (s ++ t).
Proof. unfold nul_free. intros Hs Ht. apply Forall_app. split; assumption. Qed.

Lemma nul_free_lit_checked (s : cstr) :
  forallb (fun c => negb (Ascii.eqb c NUL)) s = true -> nul_free s.
Proof.
  unfold nul_free. induction s as [|c s IH]; simpl; intros H.
  - constructor.
  - apply andb_prop in H as [Hc Hs]. constructor; [|auto].
    intros ->. discriminate Hc.
Qed.

(** A string of two characters or more ends in two characters. *)
Lemma two_last (p : cstr) :
  (1 < length p)%nat -> exists front before lst, p = front ++ [before; lst].
Proof.
  intros Hlen.
  destruct p as [|lst p'] using rev_ind; [simpl in Hlen; lia|].
  destruct p' as [|before front _] using rev_ind.
  - simpl in Hlen. lia.
  - exists front, before, lst. rewrite <- app_assoc. reflexivity.
Qed.

(** ** gen_tree_shape *)

Lemma blank_ancestor_two front before lst :
  blank_ancestor (front ++ [before; lst]) =
  front ++ [if Ascii.eqb before corner then space else before; space].
Proof.
  unfold blank_ancestor.
  rewrite reverse_app. simpl. rewrite reverse_involutive. reflexivity.
Qed.

Lemma blank_ancestor_short (p : cstr) :
  (length p <= 1)%nat -> blank_ancestor p = p.
Proof.
  destruct p as [|a [|b p]]; simpl; intros H; try reflexivity. lia.
Qed.

Lemma nul_free_blank_ancestor (p : cstr) : nul_free p -> nul_free (blank_ancestor p).
Proof.
  intros Hp.
  destruct (decide (1 < length p)%nat) as [Hlen|Hlen].
  - destruct (two_last p Hlen) as (front & before & lst & ->).
    rewrite blank_ancestor_two.
    apply Forall_app in Hp as [Hf Hb].
    apply nul_free_app; [exact Hf|].
    apply Forall_cons in Hb as [Hb _].
    repeat constructor; [|discriminate].
    destruct (Ascii.eqb before corner); [discriminate|exact Hb].
  - rewrite blank_ancestor_short by lia. exact Hp.
Qed.

Lemma length_blank_ancestor (p : cstr) : length (blank_ancestor p) = length p.
Proof.
  destruct (decide (1 < length p)%nat) as [Hlen|Hlen].
  - destruct (two_last p Hlen) as (front & before & lst & ->).
    rewrite blank_ancestor_two. rewrite !length_app. reflexivity.
  - rewrite blank_ancestor_short by lia. reflexivity.
Qed.

(** The buffer of the tree branch just before the string is read back. *)
Lemma gen_tree_shape_tree (is_last : bool) (flags : Z) (pstr : cstr) :
  has_flag flags F_TREE = true -> nul_free pstr ->
  gen_tree_shape is_last flags pstr =
  blank_ancestor pstr ++ [if is_last then corner else continuation; connector].
Proof.
  intros Hflag Hp. unfold gen_tree_shape. rewrite Hflag.
  unfold strlen, malloc, strncpy.
  rewrite take_app_length, drop_replicate.
  replace (length pstr + 3 - length pstr)%nat with 3%nat by lia.
  set (glyph := if is_last then "`"%char else "|"%char).
  destruct (1 <? length pstr)%nat eqn:Hlen.
  - apply Nat.ltb_lt in Hlen.
    destruct (two_last pstr Hlen) as (front & before & lst & ->).
    rewrite blank_ancestor_two.
    rewrite !length_app. simpl length.
    replace (length front + 2 - 2)%nat with (length front + 0)%nat by lia.
    replace (length front + 2 - 1)%nat with (length front + 1)%nat by lia.
    rewrite <- !app_assoc. simpl app.
    rewrite <- !Nat.add_assoc. simpl Nat.add.
    rewrite !insert_app_r. simpl.
    rewrite lookup_total_app_r by lia.
    replace (length front + 0 - length front)%nat with 0%nat by lia. simpl.
    assert (Hfront : nul_free front) by (apply Forall_app in Hp; tauto).
    assert (Hbefore : before <> NUL).
    { apply Forall_app in Hp as [_ Hb]. apply Forall_cons in Hb. tauto. }
    destruct (Ascii.eqb before "`") eqn:Hb; rewrite !insert_app_r; simpl.
    + change (front ++ " "%char :: " "%char :: glyph :: "-"%char :: [NUL])
        with (front ++ [" "%char; " "%char; glyph; "-"%char] ++ [NUL]).
      rewrite app_assoc, c_str_terminated.
      * unfold corner, space, connector. rewrite Hb. reflexivity.
      * apply nul_free_app; [exact Hfront|].
        repeat constructor; try discriminate. subst glyph. destruct is_last; discriminate.
    + change (front ++ before :: " "%char :: glyph :: "-"%char :: [NUL])
        with (front ++ [before; " "%char; glyph; "-"%char] ++ [NUL]).
      rewrite app_assoc, c_str_terminated.
      * unfold corner, space, connector. rewrite Hb. reflexivity.
      * apply nul_free_app; [exact Hfront|].
        repeat constructor; try discriminate; [exact Hbefore|].
        subst glyph. destruct is_last; discriminate.
  - apply Nat.ltb_ge in Hlen.
    rewrite blank_ancestor_short by exact Hlen.
    rewrite insert_app_r. simpl.
    rewrite (insert_app_r_alt pstr _ (length pstr)) by lia.
    rewrite Nat.sub_diag, insert_app_r. simpl.
    change (pstr ++ glyph :: "-"%char :: [NUL]) with (pstr ++ [glyph; "-"%char] ++ [NUL]).
    rewrite app_assoc, c_str_terminated.
    + reflexivity.
    + apply nul_free_app; [exact Hp|].
      repeat constructor; try discriminate. subst glyph. destruct is_last; discriminate.
Qed.

Lemma gen_tree_shape_plain (is_last : bool) (flags : Z) (pstr : cstr) :
  has_flag flags F_TREE = false ->
  gen_tree_shape is_last flags pstr = pstr ++ [space; space].
Proof.
  intros Hflag. unfold gen_tree_shape. rewrite Hflag. reflexivity.
Qed.

(** C4: the child prefix [gen_tree_shape] builds is the specification's
    [nextPrefix]: in plain mode the parent prefix followed by two spaces;
    in tree mode the parent prefix, with its last but one character turned
    into a space when it is the corner glyph and its last character turned
    into a space when it has more than one character, followed by the corner
    glyph for a last sibling and the continuation glyph otherwise, and by
    the connector; a parent prefix of length at most 1 is left as it is. *)
Theorem C4_gen_tree_shape_refines_nextPrefix
    (p : cstr) (isLast : bool) (flags : Z) :
  nul_free p ->
  gen_tree_shape isLast flags p = nextPrefix p isLast (has_flag flags F_TREE) /\
  (has_flag flags F_TREE = true -> (length p <= 1)%nat ->
   gen_tree_shape isLast flags p =
   p ++ [if isLast then corner else continuation; connector]).
Proof.
  intros Hp. split.
  - unfold nextPrefix. destruct (has_flag flags F_TREE) eqn:Hflag.
    + apply gen_tree_shape_tree; assumption.
    + apply gen_tree_shape_plain; assumption.
  - intros Hflag Hlen. rewrite gen_tree_shape_tree by assumption.
    rewrite blank_ancestor_short by exact Hlen. reflexivity.
Qed.

Lemma C4_witness :
  nul_free (lit "| `-") /\
  gen_tree_shape false F_TREE (lit "| `-") = lit "|   |-" /\
  gen_tree_shape true F_TREE (lit "|-") = lit "| `-" /\
  gen_tree_shape true F_TREE [] = lit "`-".
Proof.
  assert (H1 : nul_free (lit "| `-")) by (apply nul_free_lit_checked; reflexivity).
  assert (H2 : nul_free (lit "|-")) by (apply nul_free_lit_checked; reflexivity).
  assert (H3 : nul_free []) by constructor.
  split; [exact H1|]. split; [|split].
  - rewrite (proj1 (C4_gen_tree_shape_refines_nextPrefix _ false F_TREE H1)). reflexivity.
  - rewrite (proj1 (C4_gen_tree_shape_refines_nextPrefix _ true F_TREE H2)). reflexivity.
  - rewrite (proj1 (C4_gen_tree_shape_refines_nextPrefix _ true F_TREE H3)). reflexivity.
Defined.

(** ** The name column *)

Lemma name_field_long (flags : Z) (s : cstr) :
  has_flag flags F_VERBOSE = true -> (54 < length s)%nat ->
  name_field flags s = take 51 s ++ lit "...".
Proof.
  intros Hv Hlen. unfold name_field, strlen, printf_ljust. rewrite Hv.
  apply Nat.ltb_lt in Hlen as Hlt. rewrite Hlt. simpl andb. cbv iota.
  rewrite length_take. replace (51 - 51 `min` length s)%nat with 0%nat by lia.
  simpl replicate. rewrite app_nil_r. reflexivity.
Qed.

Lemma name_field_short (flags : Z) (s : cstr) :
  (length s <= 54)%nat ->
  name_field flags s = s ++ replicate (54 - length s) space.
Proof.
  intros Hlen. unfold name_field, strlen, printf_ljust.
  apply Nat.ltb_ge in Hlen as Hge. rewrite Hge, andb_false_r. reflexivity.
Qed.

Lemma name_field_verbose_width (flags : Z) (s : cstr) :
  has_flag flags F_VERBOSE = true -> length (name_field flags s) = 54%nat.
Proof.
  intros Hv. destruct (decide (54 < length s)%nat) as [Hlen|Hlen].
  - rewrite name_field_long by assumption.
    rewrite length_app, length_take. change (length (lit "...")) with 3%nat. lia.
  - rewrite name_field_short by lia.
    rewrite length_app, length_replicate. lia.
Qed.

(** ** update_stats *)

Lemma wrap32_id x : 0 <= x < 2 ^ 32 -> wrap32 (x + 0) = x.
Proof. intros H. unfold wrap32. rewrite Z.add_0_r. apply Z.mod_small. exact H. Qed.

Lemma S_ISTYPE_kind (st : stat) :
  S_ISREG (st_mode st) = kind_eqb Regular (kind_of st) /\
  S_ISDIR (st_mode st) = kind_eqb Directory (kind_of st) /\
  S_ISLNK (st_mode st) = kind_eqb Symlink (kind_of st) /\
  S_ISFIFO (st_mode st) = kind_eqb Fifo (kind_of st) /\
  S_ISSOCK (st_mode st) = kind_eqb Socket (kind_of st).
Proof.
  unfold S_ISREG, S_ISDIR, S_ISLNK, S_ISFIFO, S_ISSOCK, S_ISTYPE, kind_of.
  set (fmt := Z.land (st_mode st) S_IFMT). clearbody fmt.
  unfold S_IFREG, S_IFDIR, S_IFLNK, S_IFIFO, S_IFSOCK, S_IFCHR, S_IFBLK.
  repeat match goal with
         | |- context [?a =? ?b] => destruct (Z.eqb_spec a b); try lia
         end; simpl; repeat split; reflexivity.
Qed.

(** C7: folding a metadata record into a summary increments (in
    [unsigned int] arithmetic) the counter of the entry's kind when that
    kind is one of the five tracked ones and leaves the other counters as
    they are; for any other kind all five counters stay as they are; in
    every case the size and the block count are added (in
    [unsigned long long] arithmetic) to the running totals. *)
Theorem C7_update_stats_counts_one_kind (s : summary) (st : stat) (k : kind) :
  summary_in_range s ->
  counter k (update_stats s st) =
    (fun n => if kind_eqb k (kind_of st) then wrap32 (n + 1) else n) <$> counter k s /\
  size (update_stats s st) = wrap64 (size s + st_size st) /\
  blocks (update_stats s st) = wrap64 (blocks s + st_blocks st).
Proof.
  intros (Hd & Hf & Hl & Hp & Hs & _).
  destruct (S_ISTYPE_kind st) as (Ereg & Edir & Elnk & Efifo & Esock).
  split; [|split; reflexivity].
  destruct k; simpl; try reflexivity; f_equal.
  - rewrite Ereg. destruct (kind_of st); simpl; try reflexivity; apply wrap32_id, Hf.
  - rewrite Edir. destruct (kind_of st); simpl; try reflexivity; apply wrap32_id, Hd.
  - rewrite Elnk. destruct (kind_of st); simpl; try reflexivity; apply wrap32_id, Hl.
  - rewrite Efifo. destruct (kind_of st); simpl; try reflexivity; apply wrap32_id, Hp.
  - rewrite Esock. destruct (kind_of st); simpl; try reflexivity; apply wrap32_id, Hs.
Qed.

(** ** strcmp *)

Ltac char_cases :=
  repeat match goal with
         | |- context [Ascii.eqb ?a ?b] => destruct (Ascii.eqb_spec a b); subst
         | H : context [Ascii.eqb ?a ?b] |- _ => destruct (Ascii.eqb_spec a b); subst
         end.

Ltac char_facts :=
  repeat match goal with
         | H : ?a <> ?b :> ascii |- _ =>
             assert (uchar a <> uchar b) by (intros ?; apply H, uchar_inj; assumption);
             clear H
         end;
  repeat match goal with
         | c : ascii |- _ =>
             lazymatch goal with
             | _ : 0 <= uchar c < 256 |- _ => fail
             | _ => pose proof (uchar_range c)
             end
         end;
  change (uchar NUL) with 0 in *.

Lemma strcmp_refl s : strcmp s s = 0.
Proof.
  induction s as [|c s IH]; simpl; [reflexivity|].
  rewrite Ascii.eqb_refl. destruct (Ascii.eqb c NUL); [reflexivity|exact IH].
Qed.

Lemma strcmp_flip s t : strcmp t s = - strcmp s t.
Proof.
  revert t. induction s as [|c s IH]; intros [|d t]; simpl; try lia.
  rewrite (Ascii.eqb_sym d c).
  destruct (Ascii.eqb_spec c d) as [->|Hne]; [|lia].
  destruct (Ascii.eqb d NUL); [reflexivity|apply IH].
Qed.

Lemma strcmp_trans a b c :
  strcmp a b <= 0 -> strcmp b c <= 0 -> strcmp a c <= 0.
Proof.
  revert b c. induction a as [|x a IH]; intros [|y b] [|z c]; simpl;
    intros Hab Hbc; char_cases; char_facts; try lia.
  eapply IH; eassumption.
Qed.

Lemma strcmp_eq a b :
  nul_free a -> nul_free b -> strcmp a b = 0 -> a = b.
Proof.
  intros Ha. revert b. induction Ha as [|x a Hx Ha IH]; intros b Hb; destruct Hb as [|y b Hy Hb];
    simpl; intros H; char_cases; char_facts; try lia; try congruence.
  f_equal. apply IH; assumption.
Qed.

(** ** dirent_compare *)

Lemma dirent_compare_by_kind (a b : dirent) :
  dirent_compare a b =
  if decide (is_dir a)
  then (if decide (is_dir b) then strcmp (d_name a) (d_name b) else -1)
  else (if decide (is_dir b) then 1 else strcmp (d_name a) (d_name b)).
Proof.
  unfold dirent_compare, is_dir.
  destruct (decide (d_type a = DT_DIR)) as [Ha|Ha],
           (decide (d_type b = DT_DIR)) as [Hb|Hb].
  - rewrite Ha, Hb. reflexivity.
  - rewrite Ha. destruct (Z.eqb_spec DT_DIR (d_type b)); [congruence|reflexivity].
  - rewrite Hb.
    destruct (Z.eqb_spec (d_type a) DT_DIR); [congruence|]. reflexivity.
  - destruct (Z.eqb_spec (d_type a) (d_type b)); simpl; [reflexivity|].
    destruct (Z.eqb_spec (d_type a) DT_DIR); [congruence|].
    destruct (Z.eqb_spec (d_type b) DT_DIR); [congruence|]. reflexivity.
Qed.

Lemma dirent_compare_total : total_comparison dirent_compare.
Proof.
  repeat split.
  - intros a. rewrite dirent_compare_by_kind.
    repeat case_decide; try tauto; apply strcmp_refl.
  - intros a b. rewrite !dirent_compare_by_kind.
    pose proof (strcmp_flip (d_name a) (d_name b)).
    repeat case_decide; lia.
  - rewrite !dirent_compare_by_kind.
    pose proof (strcmp_flip (d_name a) (d_name b)).
    repeat case_decide; lia.
  - rewrite !dirent_compare_by_kind.
    pose proof (strcmp_flip (d_name a) (d_name b)).
    repeat case_decide; lia.
  - intros a b c. rewrite !dirent_compare_by_kind.
    repeat case_decide; try lia; apply strcmp_trans.
Qed.

Lemma dirent_compare_zero_names (a b : dirent) :
  nul_free (d_name a) -> nul_free (d_name b) ->
  dirent_compare a b = 0 -> d_name a = d_name b.
Proof.
  intros Ha Hb. rewrite dirent_compare_by_kind.
  repeat case_decide; try lia; apply strcmp_eq; assumption.
Qed.

Global Instance dirent_le_total : Total dirent_le.
Proof. intros a b. apply dirent_compare_total. Qed.

Global Instance dirent_le_trans : Transitive dirent_le.
Proof. intros a b c. apply dirent_compare_total. Qed.

(** ** qsort *)

Lemma qsort_sorted (l : list dirent) : StronglySorted dirent_le (qsort l).
Proof.
  apply Sorted_StronglySorted; [apply _|].
  apply Sorted_merge_sort. apply _.
Qed.

Lemma qsort_perm (l : list dirent) : qsort l ≡ₚ l.
Proof. apply merge_sort_Permutation. Qed.

Lemma filter_none {A} (P : A -> Prop) `{forall x, Decision (P x)} (l : list A) :
  Forall (fun x => ~ P x) l -> filter P l = [].
Proof.
  induction 1 as [|x l Hx _ IH]; [reflexivity|].
  rewrite filter_cons_False by exact Hx. exact IH.
Qed.

(** A list sorted by the comparator is its directories in name order
    followed by its other entries in name order. *)
Lemma sorted_directories_first (l : list dirent) :
  StronglySorted dirent_le l ->
  l = filter is_dir l ++ filter (fun e => ~ is_dir e) l /\
  StronglySorted name_le (filter is_dir l) /\
  StronglySorted name_le (filter (fun e => ~ is_dir e) l).
Proof.
  induction 1 as [|x l Hl (IHeq & IHd & IHf) Hx].
  - repeat split; constructor.
  - destruct (decide (is_dir x)) as [Hdir|Hdir].
    + rewrite filter_cons_True by exact Hdir.
      rewrite (filter_cons_False (fun e => ~ is_dir e)) by tauto.
      repeat split.
      * simpl. f_equal. exact IHeq.
      * constructor; [exact IHd|].
        apply Forall_forall. intros y Hy.
        apply list_elem_of_filter in Hy as [Hyd Hy].
        rewrite Forall_forall in Hx. specialize (Hx y Hy).
        unfold dirent_le in Hx. rewrite dirent_compare_by_kind in Hx.
        repeat case_decide; first [tauto | exact Hx].
      * exact IHf.
    + assert (Hnone : Forall (fun e => ~ is_dir e) l).
      { eapply Forall_impl; [exact Hx|]. intros y Hy.
        unfold dirent_le in Hy. rewrite dirent_compare_by_kind in Hy.
        repeat case_decide; first [tauto | lia]. }
      assert (Hdirs : filter is_dir l = []).
      { apply filter_none. exact Hnone. }
      rewrite filter_cons_False by exact Hdir.
      rewrite (filter_cons_True (fun e => ~ is_dir e)) by exact Hdir.
      rewrite Hdirs in *. simpl in *.
      repeat split.
      * f_equal. exact IHeq.
      * constructor.
      * constructor; [exact IHf|].
        apply Forall_forall. intros y Hy.
        apply list_elem_of_filter in Hy as [Hyd Hy].
        rewrite Forall_forall in Hx. specialize (Hx y Hy).
        unfold dirent_le in Hx. rewrite dirent_compare_by_kind in Hx.
        repeat case_decide; first [tauto | exact Hx].
Qed.

(** ** The logic of runs *)

Section Logic.

Context {St : Type} (step : St -> event -> option St).

Lemma scan_app s t1 t2 :
  scan step s (t1 ++ t2) =
  match scan step s t1 with Some s' => scan step s' t2 | None => None end.
Proof.
  revert s. induction t1 as [|ev t1 IH]; intros s; simpl; [reflexivity|].
  destruct (step s ev); [apply IH|reflexivity].
Qed.

Lemma safe_mono {A} s (r : list event * outcome A) (Q Q' : outcome A -> St -> Prop) :
  safe step s r Q -> (forall o s', Q o s' -> Q' o s') -> safe step s r Q'.
Proof.
  unfold safe. destruct (scan step s r.1); [|tauto]. intros H HQ. apply HQ, H.
Qed.

Lemma safe_ret {A} s (a : A) e (Q : outcome A -> St -> Prop) :
  Q (Ret a e) s -> safe step s (ret a e) Q.
Proof. intros H. exact H. Qed.

Lemma safe_bind {A B} s (m : M A) (f : A -> M B) e (Q : outcome B -> St -> Prop) :
  safe step s (m e)
    (fun o s1 => match o with
                 | Ret a e1 => safe step s1 (f a e1) Q
                 | Exit st => Q (Exit st) s1
                 | Fault => Q Fault s1
                 | OutOfFuel => Q OutOfFuel s1
                 end) ->
  safe step s (bind m f e) Q.
Proof.
  unfold safe, bind. destruct (m e) as [t1 [a e1| | |]]; simpl;
    destruct (scan step s t1) as [s1|] eqn:E1; try tauto.
  destruct (f a e1) as [t2 o2]. simpl. rewrite scan_app, E1. tauto.
Qed.

Lemma safe_emit s ev e s' (Q : outcome unit -> St -> Prop) :
  step s ev = Some s' -> Q (Ret tt e) s' -> safe step s (emit ev e) Q.
Proof. unfold safe, emit. simpl. intros ->. tauto. Qed.

Lemma safe_get_errno s e (Q : outcome Z -> St -> Prop) :
  Q (Ret e e) s -> safe step s (get_errno e) Q.
Proof. intros H. exact H. Qed.

Lemma safe_set_errno s x e (Q : outcome unit -> St -> Prop) :
  Q (Ret tt x) s -> safe step s (set_errno x e) Q.
Proof. intros H. exact H. Qed.

Lemma safe_exit {A} s st e (Q : outcome A -> St -> Prop) :
  Q (Exit st) s -> safe step s (exit st e) Q.
Proof. intros H. exact H. Qed.

Lemma safe_fault {A} s e (Q : outcome A -> St -> Prop) :
  Q Fault s -> safe step s (fault e) Q.
Proof. intros H. exact H. Qed.

Lemma safe_out_of_fuel {A} s e (Q : outcome A -> St -> Prop) :
  Q OutOfFuel s -> safe step s (out_of_fuel e) Q.
Proof. intros H. exact H. Qed.

Lemma safe_when s (b : bool) (m : M unit) e (Q : outcome unit -> St -> Prop) :
  (b = true -> safe step s (m e) Q) ->
  (b = false -> Q (Ret tt e) s) ->
  safe step s (when b m e) Q.
Proof. destruct b; simpl; intros H1 H2; [apply H1|apply H2]; reflexivity. Qed.

(** A run that starts with the events [t0]. *)
Lemma safe_after {A} s s0 t0 (r : list event * outcome A) (Q : outcome A -> St -> Prop) :
  scan step s t0 = Some s0 -> safe step s0 r Q ->
  safe step s (let (t, o) := r in (t0 ++ t, o)) Q.
Proof.
  unfold safe. destruct r as [t o]. simpl. intros H0. rewrite scan_app, H0. tauto.
Qed.

End Logic.

(** One step of a run, for any machine. *)
Ltac run_step :=
  lazymatch goal with
  | |- safe _ _ (bind _ _ _) _ => apply safe_bind
  | |- safe _ _ (ret _ _) _ => apply safe_ret
  | |- safe _ _ (get_errno _) _ => apply safe_get_errno
  | |- safe _ _ (set_errno _ _) _ => apply safe_set_errno
  | |- safe _ _ (exit _ _) _ => apply safe_exit
  | |- safe _ _ (fault _) _ => apply safe_fault
  | |- safe _ _ (out_of_fuel _) _ => apply safe_out_of_fuel
  | |- safe _ _ (panic _ _) _ => unfold panic
  | |- safe _ _ (when ?b _ _) _ => unfold when
  | |- safe _ _ (closedir _ _) _ => unfold closedir
  | |- safe _ _ (emit _ _) _ => eapply safe_emit; [cbn; reflexivity|]
  end.

(** ** Reading a directory *)

Section Reading.

Context (w : world) (v : variant).

Lemma read_dirents_done (turns : nat) (dir : option DIR) (acc : list dirent) :
  read_dirents w turns dir None acc = ret acc.
Proof. destruct turns; reflexivity. Qed.

Lemma getNext_from_nil (fin e : Z) :
  getNext_from w [] fin e =
  (EReaddir (inr fin) :: (if fin =? 0 then [] else [EPerror fin]),
   Ret (None, mk_DIR [] fin) (errno_after_stream w fin)).
Proof.
  unfold getNext_from, errno_after_stream, perror, bind, set_errno, when, emit,
    get_errno, ret.
  destruct (Z.eqb_spec fin 0) as [->|Hfin]; simpl; [reflexivity|].
  destruct (Z.eqb_spec fin 0); [contradiction|]. reflexivity.
Qed.

Lemma getNext_from_cons (next : dirent) (rest : list dirent) (fin e : Z) :
  getNext_from w (next :: rest) fin e =
  if is_dot next
  then (let (t, o) := getNext_from w rest fin 0 in (EReaddir (inl next) :: t, o))
  else ([EReaddir (inl next)], Ret (Some next, mk_DIR rest fin) 0).
Proof.
  simpl. unfold bind at 1 2 3 4. unfold set_errno, when, emit, get_errno, ret.
  simpl. destruct (is_dot next); [|reflexivity].
  destruct (getNext_from w rest fin 0) as [t o]. reflexivity.
Qed.

Ltac finish_read IH :=
  unfold listing_trace in IH |- *;
  rewrite <- ?app_assoc in IH; rewrite <- ?app_assoc;
  cbn [map app] in IH |- *;
  inversion IH as [[Htrace Hout]]; rewrite ?Htrace; reflexivity.

(** The two loops that read a directory deliver its entries other than "."
    and "..", in the order of the stream; [errno] is then [0], or what
    [perror] left of the error that ended the stream. *)
Lemma read_directory {B} (pend : list dirent) (fin : Z) (turns : nat)
    (acc : list dirent) (k : list dirent -> M B) (e : Z) :
  (length pend <= turns)%nat ->
  (r <- getNext w (Some (mk_DIR pend fin)) ;;
   dirents <- read_dirents w turns (snd r) (fst r) acc ;;
   k dirents) e =
  let (t, o) := k (acc ++ List.filter (fun ent => negb (is_dot ent)) pend) (errno_after_stream w fin) in
  (listing_trace pend fin ++ t, o).
Proof.
  revert turns acc e. induction pend as [|next rest IH]; intros turns acc e Hlen.
  - unfold getNext, bind. cbn [pending final_errno]. rewrite getNext_from_nil.
    cbn [ret fst snd]. rewrite read_dirents_done. unfold ret, listing_trace.
    cbn [List.filter map app]. rewrite !app_nil_r.
    destruct (k acc (errno_after_stream w fin)) as [t o]. reflexivity.
  - unfold getNext, bind in IH |- *. cbn [pending final_errno] in IH |- *.
    rewrite getNext_from_cons. cbn [List.filter length] in Hlen |- *.
    destruct (is_dot next) eqn:Hdot; cbn [negb].
    + specialize (IH turns acc 0 ltac:(lia)).
      destruct (getNext_from w rest fin 0) as [t1 [[r d] e1| | |]];
        cbn [ret fst snd] in IH |- *.
      * destruct (read_dirents w turns (Some d) r acc e1) as [t2 [ds e2| | |]].
        -- destruct (k ds e2) as [t3 o3]. destruct (k _ (errno_after_stream w fin)) as [t4 o4].
           finish_read IH.
        -- destruct (k _ (errno_after_stream w fin)). finish_read IH.
        -- destruct (k _ (errno_after_stream w fin)). finish_read IH.
        -- destruct (k _ (errno_after_stream w fin)). finish_read IH.
      * destruct (k _ (errno_after_stream w fin)). finish_read IH.
      * destruct (k _ (errno_after_stream w fin)). finish_read IH.
      * destruct (k _ (errno_after_stream w fin)). finish_read IH.
    + destruct turns as [|turns']; [lia|].
      specialize (IH turns' (acc ++ [next]) 0 ltac:(lia)).
      rewrite <- app_assoc in IH. cbn [app] in IH.
      cbn [ret fst snd read_dirents]. unfold getNext, bind.
      cbn [pending final_errno].
      destruct (getNext_from w rest fin 0) as [t1 [[r d] e1| | |]];
        cbn [ret fst snd] in IH |- *.
      * destruct (read_dirents w turns' (Some d) r (acc ++ [next]) e1) as [t2 [ds e2| | |]].
        -- destruct (k ds e2) as [t3 o3]. destruct (k _ (errno_after_stream w fin)) as [t4 o4].
           finish_read IH.
        -- destruct (k _ (errno_after_stream w fin)). finish_read IH.
        -- destruct (k _ (errno_after_stream w fin)). finish_read IH.
        -- destruct (k _ (errno_after_stream w fin)). finish_read IH.
      * destruct (k _ (errno_after_stream w fin)). finish_read IH.
      * destruct (k _ (errno_after_stream w fin)). finish_read IH.
      * destruct (k _ (errno_after_stream w fin)). finish_read IH.
Qed.

End Reading.

(** ** Quiet parts of a run *)

Lemma scan_quiet {St} (step : St -> event -> option St) (s : St) (t : list event) :
  Forall (fun ev => is_quiet ev = true) t ->
  (forall ev, is_quiet ev = true -> step s ev = Some s) ->
  scan step s t = Some s.
Proof.
  intros Ht Hstep. induction Ht as [|ev t Hev _ IH]; simpl; [reflexivity|].
  rewrite (Hstep ev Hev). exact IH.
Qed.

Lemma safe_quiet {St A} (step : St -> event -> option St) (s : St)
    (r : list event * outcome A) (Q : outcome A -> St -> Prop) :
  Forall (fun ev => is_quiet ev = true) r.1 ->
  (forall ev, is_quiet ev = true -> step s ev = Some s) ->
  Q r.2 s -> safe step s r Q.
Proof.
  intros Ht Hstep HQ. unfold safe. rewrite (scan_quiet step s r.1 Ht Hstep). exact HQ.
Qed.

Section Quiet.

Context (w : world).

(** The three ways [print_errno] goes. *)
Lemma print_errno_cases (pstr : cstr) (flags e : Z) :
  (exists msg, print_errno pstr flags e =
     ([EErrorLine (gen_tree_shape true flags pstr) msg], Ret tt e)) \/
  print_errno pstr flags e =
     ([EStderr (lit "Out of memory." ++ [newline])], Exit EXIT_FAILURE) \/
  print_errno pstr flags e =
     ([EErrorCode e; EStderr (lit "quit process" ++ [newline])], Exit EXIT_FAILURE).
Proof.
  unfold print_errno, bind, get_errno.
  destruct (e =? EACCES); [left; eexists; reflexivity|].
  destruct (e =? ENOENT); [left; eexists; reflexivity|].
  destruct (e =? ENOTDIR); [left; eexists; reflexivity|].
  destruct (e =? ENOMEM); [right; left; reflexivity|].
  right; right; reflexivity.
Qed.

Lemma print_errno_quiet (pstr : cstr) (flags e : Z) :
  Forall (fun ev => is_quiet ev = true) (print_errno pstr flags e).1.
Proof.
  destruct (print_errno_cases pstr flags e) as [[msg ->]|[->| ->]];
    repeat constructor.
Qed.

Lemma print_errno_result (pstr : cstr) (flags e : Z) :
  (print_errno pstr flags e).2 = Ret tt e \/
  (print_errno pstr flags e).2 = Exit EXIT_FAILURE.
Proof.
  destruct (print_errno_cases pstr flags e) as [[msg ->]|[->| ->]]; auto.
Qed.

Lemma print_errno_known (pstr : cstr) (flags e : Z) (msg : cstr) :
  open_error_text e = Some msg ->
  print_errno pstr flags e =
  ([EErrorLine (gen_tree_shape true flags pstr) msg], Ret tt e) /\ e <> 0.
Proof.
  unfold open_error_text, print_errno, bind, get_errno. intros H.
  destruct (Z.eqb_spec e EACCES) as [->|_];
    [injection H as <-; split; [reflexivity|discriminate]|].
  destruct (Z.eqb_spec e ENOENT) as [->|_];
    [injection H as <-; split; [reflexivity|discriminate]|].
  destruct (Z.eqb_spec e ENOTDIR) as [->|_];
    [injection H as <-; split; [reflexivity|discriminate]|].
  discriminate H.
Qed.

(** The two ways [print_verbose] goes. *)
Lemma print_verbose_run (st : stat) (e : Z) :
  print_verbose w st e =
  match w_getpwuid w (st_uid st), w_getgrgid w (st_gid st) with
  | Some user, Some group =>
      ([EVerbose user group (st_size st) (st_blocks st) (type_char (st_mode st))],
       Ret tt (errno_after_names w st e))
  | _, _ =>
      ([EStderr ((newline :: lit "Error on getpwuid /getgrgid.") ++ [newline])],
       Exit EXIT_FAILURE)
  end.
Proof.
  unfold print_verbose, getpwuid, getgrgid, errno_after_names, panic, bind,
    get_errno, set_errno, emit, exit, ret.
  destruct (w_getpwuid w (st_uid st)), (w_getgrgid w (st_gid st)); reflexivity.
Qed.

Lemma print_verbose_quiet (st : stat) (e : Z) :
  Forall (fun ev => is_quiet ev = true) (print_verbose w st e).1.
Proof.
  rewrite print_verbose_run.
  destruct (w_getpwuid w (st_uid st)), (w_getgrgid w (st_gid st));
    repeat constructor.
Qed.

Lemma print_verbose_result (st : stat) (e : Z) :
  (print_verbose w st e).2 = Ret tt (errno_after_names w st e) \/
  (print_verbose w st e).2 = Exit EXIT_FAILURE.
Proof.
  rewrite print_verbose_run.
  destruct (w_getpwuid w (st_uid st)), (w_getgrgid w (st_gid st)); auto.
Qed.

Lemma lstat_run (path : cstr) (e : Z) :
  lstat w path e =
  ([ELstat path (w_lstat w path).1],
   Ret (w_lstat w path).2
       (if (w_lstat w path).1 =? 0 then e else (w_lstat w path).1)).
Proof.
  unfold lstat. destruct (w_lstat w path) as [err buf]. simpl.
  unfold bind, when, set_errno, emit, ret.
  destruct (err =? 0); reflexivity.
Qed.

Lemma safe_lstat {St} (step : St -> event -> option St) (s s' : St)
    (path : cstr) (e : Z) (Q : outcome stat -> St -> Prop) :
  step s (ELstat path (w_lstat w path).1) = Some s' ->
  Q (Ret (w_lstat w path).2
         (if (w_lstat w path).1 =? 0 then e else (w_lstat w path).1)) s' ->
  safe step s (lstat w path e) Q.
Proof.
  intros Hstep HQ. rewrite lstat_run. unfold safe. simpl. rewrite Hstep. exact HQ.
Qed.

End Quiet.

Section Parts.

Context (w : world) {St : Type} (step : St -> event -> option St).

Lemma safe_print_errno (s : St) (pstr : cstr) (flags e : Z)
    (Q : outcome unit -> St -> Prop) :
  (forall ev, is_quiet ev = true -> step s ev = Some s) ->
  Q (Ret tt e) s -> Q (Exit EXIT_FAILURE) s ->
  safe step s (print_errno pstr flags e) Q.
Proof.
  intros Hq HR HE. apply safe_quiet; [apply print_errno_quiet|exact Hq|].
  destruct (print_errno_result pstr flags e) as [-> | ->]; assumption.
Qed.

Lemma safe_print_verbose (s : St) (st : stat) (e : Z)
    (Q : outcome unit -> St -> Prop) :
  (forall ev, is_quiet ev = true -> step s ev = Some s) ->
  Q (Ret tt (errno_after_names w st e)) s -> Q (Exit EXIT_FAILURE) s ->
  safe step s (print_verbose w st e) Q.
Proof.
  intros Hq HR HE. apply safe_quiet; [apply print_verbose_quiet|exact Hq|].
  destruct (print_verbose_result w st e) as [-> | ->]; assumption.
Qed.

Lemma safe_read {B} (s s0 : St) (pend : list dirent) (fin : Z) (turns : nat)
    (acc : list dirent) (k : list dirent -> M B) (e : Z)
    (Q : outcome B -> St -> Prop) :
  (length pend <= turns)%nat ->
  scan step s (listing_trace pend fin) = Some s0 ->
  safe step s0
    (k (acc ++ List.filter (fun ent => negb (is_dot ent)) pend)
       (errno_after_stream w fin)) Q ->
  safe step s
    ((r <- getNext w (Some (mk_DIR pend fin)) ;;
      dirents <- read_dirents w turns (snd r) (fst r) acc ;;
      k dirents) e) Q.
Proof.
  intros Hlen Hscan Hk. rewrite read_directory by exact Hlen.
  eapply safe_after; eassumption.
Qed.

End Parts.

Ltac run_until H := first [apply H | run_step; run_until H].

Ltac run_steps :=
  repeat first
    [ run_step
    | lazymatch goal with
      | |- safe _ _ (lstat _ _ _) _ => eapply safe_lstat; [cbn; reflexivity|]
      end ].

(** ** Prefix lengths *)

Lemma gen_tree_shape_length (is_last : bool) (flags : Z) (pstr : cstr) :
  nul_free pstr ->
  length (gen_tree_shape is_last flags pstr) = (length pstr + 2)%nat.
Proof.
  intros Hp. destruct (has_flag flags F_TREE) eqn:Hflag.
  - rewrite gen_tree_shape_tree by assumption.
    rewrite length_app, length_blank_ancestor. reflexivity.
  - rewrite gen_tree_shape_plain by assumption.
    rewrite length_app. reflexivity.
Qed.

Lemma gen_tree_shape_nul_free (is_last : bool) (flags : Z) (pstr : cstr) :
  nul_free pstr -> nul_free (gen_tree_shape is_last flags pstr).
Proof.
  intros Hp. destruct (has_flag flags F_TREE) eqn:Hflag.
  - rewrite gen_tree_shape_tree by assumption.
    apply nul_free_app; [apply nul_free_blank_ancestor, Hp|].
    repeat constructor; [destruct is_last|]; discriminate.
  - rewrite gen_tree_shape_plain by assumption.
    apply nul_free_app; [exact Hp|]. repeat constructor; discriminate.
Qed.

Lemma prefix_step_quiet (d : nat) (ev : event) :
  is_quiet ev = true -> prefix_step d ev = Some d.
Proof. destruct ev; simpl; intros H; try discriminate H; reflexivity. Qed.

Lemma scan_prefix_listing (d : nat) (pend : list dirent) (fin : Z) :
  scan prefix_step d (listing_trace pend fin) = Some d.
Proof.
  unfold listing_trace. rewrite scan_app.
  assert (H : scan prefix_step d (map (fun ent => EReaddir (inl ent)) pend) = Some d).
  { induction pend as [|x l IH]; simpl; [reflexivity|exact IH]. }
  rewrite H. simpl. destruct (fin =? 0); reflexivity.
Qed.

Section PrefixLengths.

Context (w : world) (v : variant).

Lemma entries_loop_prefixes recurse :
  keeps_prefixes recurse ->
  forall l new_dn pstr flags num i stats e d,
    nul_free pstr -> length pstr = (2 * d)%nat ->
    safe prefix_step (S d)
      (entries_loop w recurse new_dn pstr flags num i l stats e)
      (on_ret (fun _ _ d' => d' = S d)).
Proof.
  intros Hrec l. induction l as [|ent rest IH];
    intros new_dn pstr flags num i stats e d Hnul Hlen; simpl.
  - run_step. reflexivity.
  - pose proof (gen_tree_shape_length (i =? num - 1)%nat flags pstr Hnul) as Hnext.
    pose proof (gen_tree_shape_nul_free (i =? num - 1)%nat flags pstr Hnul) as Hnextnul.
    run_steps. eapply safe_emit.
    { simpl. rewrite decide_True by lia. reflexivity. }
    run_step. unfold when.
    destruct (has_flag flags F_VERBOSE).
    + apply safe_quiet; [apply print_verbose_quiet|apply prefix_step_quiet|].
      destruct (print_verbose_result w (w_lstat w (new_dn ++ d_name ent)).2
                  (if (w_lstat w (new_dn ++ d_name ent)).1 =? 0 then e
                   else (w_lstat w (new_dn ++ d_name ent)).1)) as [-> | ->];
        [|exact I].
      run_step. run_step. run_step.
      destruct (S_ISDIR _).
      * eapply safe_mono; [apply Hrec; [exact Hnextnul|lia]|].
        intros [s1 e1| | |] d1 Hd; simpl in Hd |- *; try exact I. subst d1.
        apply IH; assumption.
      * run_step. apply IH; assumption.
    + run_step. run_step. run_step. run_step.
      destruct (S_ISDIR _).
      * eapply safe_mono; [apply Hrec; [exact Hnextnul|lia]|].
        intros [s1 e1| | |] d1 Hd; simpl in Hd |- *; try exact I. subst d1.
        apply IH; assumption.
      * run_step. apply IH; assumption.
Qed.

End PrefixLengths.

Section PrefixLengthsBody.

Context (w : world) (v : variant).

Lemma processDir_body_prefixes recurse :
  keeps_prefixes recurse -> keeps_prefixes (processDir_body w v recurse).
Proof.
  intros Hrec dn pstr stats flags e d Hnul Hlen. unfold processDir_body.
  destruct (last dn) as [c|]; [|run_step; exact I].
  run_step. unfold opendir.
  destruct (w_opendir w _) as [err|[pend fin]].
  - run_steps. destruct (checks_handle v).
    + run_step. apply safe_print_errno; [apply prefix_step_quiet| |exact I].
      run_step. reflexivity.
    + run_steps. cbn [negb Z.eqb].
      apply safe_print_errno; [apply prefix_step_quiet| |exact I].
      run_steps. exact I.
  - run_steps.
    destruct (negb (e =? 0)).
    + apply safe_print_errno; [apply prefix_step_quiet| |exact I].
      eapply safe_read; [reflexivity|apply scan_prefix_listing|].
      run_step. eapply safe_mono; [apply entries_loop_prefixes; eassumption|].
      intros [s1 e1| | |] d1 Hd; simpl in Hd |- *; try exact I. subst d1.
      run_steps. reflexivity.
    + run_step.
      eapply safe_read; [reflexivity|apply scan_prefix_listing|].
      run_step. eapply safe_mono; [apply entries_loop_prefixes; eassumption|].
      intros [s1 e1| | |] d1 Hd; simpl in Hd |- *; try exact I. subst d1.
      run_steps. reflexivity.
Qed.

Lemma processDir_prefixes (fuel : nat) : keeps_prefixes (processDir w v fuel).
Proof.
  induction fuel as [|fuel IH].
  - intros dn pstr stats flags e d _ _. simpl. run_step. exact I.
  - simpl. apply processDir_body_prefixes, IH.
Qed.

End PrefixLengthsBody.

(** ** The events of a listing *)

Lemma scan_check (P : event -> Prop) `{forall ev, Decision (P ev)} (tr : list event) :
  scan (check_step P) tt tr = Some tt <-> Forall P tr.
Proof.
  induction tr as [|ev tr IH]; simpl.
  - split; [constructor|reflexivity].
  - unfold check_step at 1. destruct (decide (P ev)) as [Hev|Hev].
    + rewrite IH. split; [constructor; assumption|inversion 1; assumption].
    + split; [discriminate|inversion 1; contradiction].
Qed.

Lemma check_step_holds (P : event -> Prop) `{forall ev, Decision (P ev)} (ev : event) :
  P ev -> check_step P tt ev = Some tt.
Proof. intros Hev. unfold check_step. rewrite decide_True by exact Hev. reflexivity. Qed.

Lemma dir_event_quiet (flags : Z) (s : unit) (ev : event) :
  is_quiet ev = true -> check_step (dir_event flags) s ev = Some s.
Proof.
  destruct s. intros Hq. apply check_step_holds.
  destruct ev; simpl in Hq |- *; try discriminate Hq; reflexivity.
Qed.

Lemma scan_events_listing (flags : Z) (pend : list dirent) (fin : Z) :
  scan (check_step (dir_event flags)) tt (listing_trace pend fin) = Some tt.
Proof.
  apply scan_check. unfold listing_trace. apply Forall_app. split.
  - apply Forall_forall. intros ev Hev. apply list_elem_of_fmap in Hev as (x & -> & _).
    exact I.
  - destruct (fin =? 0); repeat constructor.
Qed.

Ltac emit_checked :=
  eapply safe_emit; [apply check_step_holds; simpl; reflexivity|].

Section Events.

Context (w : world) (v : variant).

Lemma entries_loop_events recurse :
  keeps_events recurse ->
  forall l new_dn pstr flags num i stats e,
    safe (check_step (dir_event flags)) tt
      (entries_loop w recurse new_dn pstr flags num i l stats e)
      (fun _ _ => True).
Proof.
  intros Hrec l. induction l as [|ent rest IH];
    intros new_dn pstr flags num i stats e; simpl.
  - run_step. exact I.
  - run_step. eapply safe_lstat; [apply check_step_holds; reflexivity|].
    run_step. emit_checked.
    run_step. apply safe_when; intros _.
    + apply safe_print_verbose; [apply dir_event_quiet| |exact I].
      run_step. emit_checked. run_step.
      destruct (S_ISDIR _).
      * eapply safe_mono; [apply Hrec|].
        intros [s1 e1| | |] [] _; try exact I. apply IH.
      * run_step. apply IH.
    + run_step. emit_checked. run_step.
      destruct (S_ISDIR _).
      * eapply safe_mono; [apply Hrec|].
        intros [s1 e1| | |] [] _; try exact I. apply IH.
      * run_step. apply IH.
Qed.

Lemma processDir_body_events recurse :
  keeps_events recurse -> keeps_events (processDir_body w v recurse).
Proof.
  intros Hrec dn pstr stats flags e. unfold processDir_body.
  destruct (last dn) as [c|]; [|run_step; exact I].
  run_step. unfold opendir.
  destruct (w_opendir w _) as [err|[pend fin]].
  - run_step. run_step. run_step. emit_checked. run_step.
    destruct (checks_handle v).
    + run_step. apply safe_print_errno; [apply dir_event_quiet| |exact I].
      run_step. exact I.
    + run_steps. cbn [negb Z.eqb].
      apply safe_print_errno; [apply dir_event_quiet| |exact I].
      run_steps. exact I.
  - run_step. emit_checked. run_steps.
    apply safe_when; intros _.
    + apply safe_print_errno; [apply dir_event_quiet| |exact I].
      eapply safe_read; [reflexivity|apply scan_events_listing|].
      run_step. eapply safe_mono; [apply entries_loop_events; eassumption|].
      intros [s1 e1| | |] [] _; exact I.
    + eapply safe_read; [reflexivity|apply scan_events_listing|].
      run_step. eapply safe_mono; [apply entries_loop_events; eassumption|].
      intros [s1 e1| | |] [] _; exact I.
Qed.

Lemma processDir_events (fuel : nat) : keeps_events (processDir w v fuel).
Proof.
  induction fuel as [|fuel IH].
  - intros dn pstr stats flags e. simpl. run_step. exact I.
  - simpl. apply processDir_body_events, IH.
Qed.

(** The events of a run of [processDir] are those of a listing, and each
    entry line shows the name column of its prefix and name. *)
Lemma processDir_dir_events fuel dn pstr stats flags e :
  Forall (dir_event flags) (processDir w v fuel dn pstr stats flags e).1.
Proof.
  pose proof (processDir_events fuel dn pstr stats flags e) as H.
  unfold safe in H.
  destruct (scan _ tt _) as [[]|] eqn:E; [|contradiction].
  apply scan_check in E. exact E.
Qed.

End Events.

(** ** The children of a directory *)

Lemma child_step_quiet (k : nat) (s : nat * list dirent) (ev : event) :
  is_quiet ev = true -> child_step k s ev = Some s.
Proof.
  destruct s as [d acc], ev; simpl; intros H; try discriminate H; reflexivity.
Qed.

Lemma scan_child_listing (k d : nat) (acc : list dirent) (pend : list dirent) (fin : Z) :
  scan (child_step k) (d, acc) (listing_trace pend fin) = Some (d, acc).
Proof.
  unfold listing_trace. rewrite scan_app.
  assert (H : scan (child_step k) (d, acc)
                (map (fun ent => EReaddir (inl ent)) pend) = Some (d, acc)).
  { induction pend as [|x l IH]; simpl; [reflexivity|exact IH]. }
  rewrite H. simpl. destruct (fin =? 0); reflexivity.
Qed.

Section Children.

Context (w : world) (v : variant).

Lemma entries_loop_children recurse :
  lists_children recurse ->
  forall l new_dn pstr flags num i stats e d acc,
    safe (child_step 1) (S d, acc)
      (entries_loop w recurse new_dn pstr flags num i l stats e)
      (on_ret (fun _ _ s' => s' = (S d, acc ++ if (d =? 0)%nat then l else []))).
Proof.
  intros Hrec l. induction l as [|ent rest IH];
    intros new_dn pstr flags num i stats e d acc; simpl.
  - run_step. simpl. destruct (d =? 0)%nat; rewrite app_nil_r; reflexivity.
  - assert (Hrest : forall stats' e',
      safe (child_step 1) (S d, if (d =? 0)%nat then acc ++ [ent] else acc)
        (entries_loop w recurse new_dn pstr flags num (S i) rest stats' e')
        (on_ret (fun _ _ s' =>
           s' = (S d, acc ++ if (d =? 0)%nat then ent :: rest else [])))).
    { intros stats' e'. eapply safe_mono; [apply IH|].
      intros [s1 e1| | |] s' Hs; simpl in Hs |- *; try exact I. subst s'.
      destruct (d =? 0)%nat; [rewrite <- app_assoc|]; reflexivity. }
    assert (Hsub : forall stats' e',
      safe (child_step 1) (S d, if (d =? 0)%nat then acc ++ [ent] else acc)
        ((stats1 <- (if S_ISDIR (st_mode (w_lstat w (new_dn ++ d_name ent)).2)
                     then recurse ((new_dn ++ d_name ent) ++ lit "/")
                            (gen_tree_shape (i =? num - 1)%nat flags pstr) stats' flags
                     else ret stats') ;;
          entries_loop w recurse new_dn pstr flags num (S i) rest stats1) e')
        (on_ret (fun _ _ s' =>
           s' = (S d, acc ++ if (d =? 0)%nat then ent :: rest else [])))).
    { intros stats' e'. run_step. destruct (S_ISDIR _).
      - eapply safe_mono; [apply Hrec|].
        intros [s1 e1| | |] s' Hs; simpl in Hs |- *; try exact I.
        destruct Hs as [es ->]. rewrite app_nil_r. apply Hrest.
      - run_step. apply Hrest. }
    run_steps. apply safe_when; intros _.
    + apply safe_print_verbose; [apply child_step_quiet| |exact I].
      run_step. run_step. apply Hsub.
    + run_step. run_step. apply Hsub.
Qed.

Lemma processDir_body_children recurse :
  lists_children recurse -> lists_children (processDir_body w v recurse).
Proof.
  intros Hrec dn pstr stats flags e d acc. unfold processDir_body.
  destruct (last dn) as [c|]; [|run_step; exact I].
  assert (Hnone : exists es : list dirent,
            (d, acc) = (d, acc ++ if (d =? 0)%nat then qsort es else [])).
  { exists []. destruct (d =? 0)%nat; rewrite app_nil_r; reflexivity. }
  run_step. unfold opendir.
  destruct (w_opendir w _) as [err|[pend fin]].
  - run_steps. destruct (checks_handle v).
    + run_step. apply safe_print_errno; [apply child_step_quiet| |exact I].
      run_step. exact Hnone.
    + run_steps. cbn [negb Z.eqb].
      apply safe_print_errno; [apply child_step_quiet| |exact I].
      run_steps. exact I.
  - assert (Hlist : forall e',
      safe (child_step 1) (S d, acc)
        ((r <- getNext w (Some (mk_DIR pend fin)) ;;
          dirents <- read_dirents w (length pend) (snd r) (fst r) [] ;;
          (let dirents0 := qsort dirents in
           stats0 <- entries_loop w recurse
                       (if Ascii.eqb c "/" then dn else dn ++ lit "/")
                       pstr flags (length dirents0) 0 dirents0 stats ;;
           closedir ;; ret stats0)) e')
        (on_ret (fun _ _ s' =>
           exists es, s' = (d, acc ++ if (d =? 0)%nat then qsort es else [])))).
    { intros e'. eapply safe_read; [reflexivity|apply scan_child_listing|].
      cbv zeta. run_step.
      eapply safe_mono; [apply entries_loop_children; exact Hrec|].
      intros [s1 e1| | |] s' Hs; simpl in Hs |- *; try exact I. subst s'.
      run_steps. eexists. reflexivity. }
    run_steps. apply safe_when; intros _.
    + apply safe_print_errno; [apply child_step_quiet| |exact I]. apply Hlist.
    + apply Hlist.
Qed.

Lemma processDir_children (fuel : nat) : lists_children (processDir w v fuel).
Proof.
  induction fuel as [|fuel IH].
  - intros dn pstr stats flags e d acc. simpl. run_step. exact I.
  - simpl. apply processDir_body_children, IH.
Qed.

End Children.

(** ** Rendered and enumerated entries *)

Lemma collect_step_quiet (s : list dirent * list dirent) (ev : event) :
  is_quiet ev = true -> collect_step s ev = Some s.
Proof.
  destruct s as [r n], ev; simpl; intros H; try discriminate H; reflexivity.
Qed.

Lemma scan_collect_listing (r n : list dirent) (pend : list dirent) (fin : Z) :
  scan collect_step (r, n) (listing_trace pend fin) =
  Some (r, n ++ List.filter (fun ent => negb (is_dot ent)) pend).
Proof.
  unfold listing_trace. rewrite scan_app.
  assert (H : scan collect_step (r, n)
                (map (fun ent => EReaddir (inl ent)) pend) =
              Some (r, n ++ List.filter (fun ent => negb (is_dot ent)) pend)).
  { revert n. induction pend as [|x l IH]; intros n; simpl.
    - rewrite app_nil_r. reflexivity.
    - destruct (is_dot x); simpl; [apply IH|].
      rewrite IH, <- app_assoc. reflexivity. }
  rewrite H. simpl. destruct (fin =? 0); reflexivity.
Qed.

Section Collect.

Context (w : world) (v : variant).

Lemma entries_loop_renders recurse :
  renders_all recurse ->
  forall l new_dn pstr flags num i stats e r n,
    safe collect_step (r, n)
      (entries_loop w recurse new_dn pstr flags num i l stats e)
      (on_ret (fun _ _ s' =>
         exists r' n', s' = (r ++ r', n ++ n') /\ r' ≡ₚ l ++ n')).
Proof.
  intros Hrec l. induction l as [|ent rest IH];
    intros new_dn pstr flags num i stats e r n; simpl.
  - run_step. exists [], []. rewrite !app_nil_r. split; reflexivity.
  - assert (Hrest : forall stats' e' r1 n1, r1 ≡ₚ n1 ->
      safe collect_step ((r ++ [ent]) ++ r1, n ++ n1)
        (entries_loop w recurse new_dn pstr flags num (S i) rest stats' e')
        (on_ret (fun _ _ s' =>
           exists r' n', s' = (r ++ r', n ++ n') /\ r' ≡ₚ (ent :: rest) ++ n'))).
    { intros stats' e' r1 n1 H1. eapply safe_mono; [apply IH|].
      intros [s1 e1| | |] s' Hs; simpl in Hs |- *; try exact I.
      destruct Hs as (r2 & n2 & -> & H2).
      exists ([ent] ++ r1 ++ r2), (n1 ++ n2). split.
      - rewrite <- !app_assoc. reflexivity.
      - rewrite H1, H2. simpl. constructor.
        rewrite !app_assoc. apply Permutation_app_tail, Permutation_app_comm. }
    assert (Hsub : forall stats' e',
      safe collect_step (r ++ [ent], n)
        ((stats1 <- (if S_ISDIR (st_mode (w_lstat w (new_dn ++ d_name ent)).2)
                     then recurse ((new_dn ++ d_name ent) ++ lit "/")
                            (gen_tree_shape (i =? num - 1)%nat flags pstr) stats' flags
                     else ret stats') ;;
          entries_loop w recurse new_dn pstr flags num (S i) rest stats1) e')
        (on_ret (fun _ _ s' =>
           exists r' n', s' = (r ++ r', n ++ n') /\ r' ≡ₚ (ent :: rest) ++ n'))).
    { intros stats' e'. run_step. destruct (S_ISDIR _).
      - eapply safe_mono; [apply Hrec|].
        intros [s1 e1| | |] s' Hs; simpl in Hs |- *; try exact I.
        destruct Hs as (r1 & n1 & -> & H1). apply Hrest, H1.
      - run_step.
        pose proof (Hrest stats' e' [] [] (reflexivity [])) as H0.
        rewrite !app_nil_r in H0. exact H0. }
    run_steps. apply safe_when; intros _.
    + apply safe_print_verbose; [apply collect_step_quiet| |exact I].
      run_step. run_step. apply Hsub.
    + run_step. run_step. apply Hsub.
Qed.

Lemma processDir_body_renders recurse :
  renders_all recurse -> renders_all (processDir_body w v recurse).
Proof.
  intros Hrec dn pstr stats flags e r n. unfold processDir_body.
  destruct (last dn) as [c|]; [|run_step; exact I].
  assert (Hnone : exists r' n' : list dirent,
            (r, n) = (r ++ r', n ++ n') /\ r' ≡ₚ n').
  { exists [], []. rewrite !app_nil_r. split; reflexivity. }
  run_step. unfold opendir.
  destruct (w_opendir w _) as [err|[pend fin]].
  - run_steps. destruct (checks_handle v).
    + run_step. apply safe_print_errno; [apply collect_step_quiet| |exact I].
      run_step. exact Hnone.
    + run_steps. cbn [negb Z.eqb].
      apply safe_print_errno; [apply collect_step_quiet| |exact I].
      run_steps. exact I.
  - assert (Hlist : forall e',
      safe collect_step (r, n)
        ((r0 <- getNext w (Some (mk_DIR pend fin)) ;;
          dirents <- read_dirents w (length pend) (snd r0) (fst r0) [] ;;
          (let dirents0 := qsort dirents in
           stats0 <- entries_loop w recurse
                       (if Ascii.eqb c "/" then dn else dn ++ lit "/")
                       pstr flags (length dirents0) 0 dirents0 stats ;;
           closedir ;; ret stats0)) e')
        (on_ret (fun _ _ s' =>
           exists r' n', s' = (r ++ r', n ++ n') /\ r' ≡ₚ n'))).
    { intros e'. eapply safe_read; [reflexivity|apply scan_collect_listing|].
      cbv zeta. run_step.
      eapply safe_mono; [apply entries_loop_renders; exact Hrec|].
      intros [s1 e1| | |] s' Hs; simpl in Hs |- *; try exact I.
      destruct Hs as (r' & n' & -> & Hperm).
      run_steps. eexists r', (_ ++ n'). split.
      - rewrite <- app_assoc. reflexivity.
      - rewrite Hperm. apply Permutation_app_tail. simpl. apply qsort_perm. }
    run_steps. apply safe_when; intros _.
    + apply safe_print_errno; [apply collect_step_quiet| |exact I]. apply Hlist.
    + apply Hlist.
Qed.

Lemma processDir_renders (fuel : nat) : renders_all (processDir w v fuel).
Proof.
  induction fuel as [|fuel IH].
  - intros dn pstr stats flags e r n. simpl. run_step. exact I.
  - simpl. apply processDir_body_renders, IH.
Qed.

End Collect.

(** ** Failures are reported *)

Lemma report_step_quiet (ev : event) :
  is_quiet ev = true -> report_step None ev = Some None.
Proof. destruct ev; simpl; intros H; try discriminate H; reflexivity. Qed.

Lemma scan_report_listing (pend : list dirent) (fin : Z) :
  scan report_step None (listing_trace pend fin) = Some None.
Proof.
  unfold listing_trace. rewrite scan_app.
  assert (H : scan report_step None
                (map (fun ent => EReaddir (inl ent)) pend) = Some None).
  { induction pend as [|x l IH]; simpl; [reflexivity|exact IH]. }
  rewrite H. simpl. unfold report_step. simpl.
  destruct (fin =? 0) eqn:Hfin; simpl; [reflexivity|].
  rewrite Z.eqb_refl. reflexivity.
Qed.

(** [print_errno] after a failed [opendir] is the diagnostic of the failure. *)
Lemma print_errno_reports (path pstr : cstr) (flags : Z) (err : positive) :
  exists o,
    (print_errno pstr flags (Z.pos err)).2 = o /\
    (o = Ret tt (Z.pos err) \/ o = Exit EXIT_FAILURE) /\
    scan report_step (Some (EOpendir path (Some err)))
      (print_errno pstr flags (Z.pos err)).1 = Some None.
Proof.
  destruct (print_errno_cases pstr flags (Z.pos err)) as [[msg ->]|[->| ->]];
    eexists; (split; [reflexivity|]); split; auto.
  simpl. unfold report_step. simpl. rewrite Pos.eqb_refl. reflexivity.
Qed.

Section Reports.

Context (w : world) (v : variant).

Lemma entries_loop_reports recurse :
  reports_failures recurse ->
  forall l new_dn pstr flags num i stats e,
    safe report_step None
      (entries_loop w recurse new_dn pstr flags num i l stats e)
      (fun _ s' => s' = None).
Proof.
  intros Hrec l. induction l as [|ent rest IH];
    intros new_dn pstr flags num i stats e; simpl.
  - run_step. reflexivity.
  - assert (Hsub : forall stats' e',
      safe report_step None
        ((stats1 <- (if S_ISDIR (st_mode (w_lstat w (new_dn ++ d_name ent)).2)
                     then recurse ((new_dn ++ d_name ent) ++ lit "/")
                            (gen_tree_shape (i =? num - 1)%nat flags pstr) stats' flags
                     else ret stats') ;;
          entries_loop w recurse new_dn pstr flags num (S i) rest stats1) e')
        (fun _ s' => s' = None)).
    { intros stats' e'. run_step. destruct (S_ISDIR _).
      - eapply safe_mono; [apply Hrec|].
        intros [s1 e1| | |] s' ->; try reflexivity. apply IH.
      - run_step. apply IH. }
    run_steps. apply safe_when; intros _.
    + apply safe_print_verbose; [apply report_step_quiet| |reflexivity].
      run_step. run_step. apply Hsub.
    + run_step. run_step. apply Hsub.
Qed.

Lemma processDir_body_reports recurse :
  reports_failures recurse -> reports_failures (processDir_body w v recurse).
Proof.
  intros Hrec dn pstr stats flags e. unfold processDir_body.
  destruct (last dn) as [c|]; [|run_step; reflexivity].
  set (new_dn := if Ascii.eqb c "/" then dn else dn ++ lit "/").
  run_step. unfold opendir.
  destruct (w_opendir w new_dn) as [err|[pend fin]].
  - destruct (print_errno_reports new_dn pstr flags err) as (o & Ho & Hcase & Hscan).
    run_steps. destruct (checks_handle v).
    + run_step. unfold safe. rewrite Hscan, Ho.
      destruct Hcase as [-> | ->]; reflexivity.
    + run_steps. cbn [negb Z.eqb]. unfold safe. rewrite Hscan, Ho.
      destruct Hcase as [-> | ->]; reflexivity.
  - assert (Hlist : forall e',
      safe report_step None
        ((r0 <- getNext w (Some (mk_DIR pend fin)) ;;
          dirents <- read_dirents w (length pend) (snd r0) (fst r0) [] ;;
          (let dirents0 := qsort dirents in
           stats0 <- entries_loop w recurse new_dn
                       pstr flags (length dirents0) 0 dirents0 stats ;;
           closedir ;; ret stats0)) e')
        (fun _ s' => s' = None)).
    { intros e'. eapply safe_read; [reflexivity|apply scan_report_listing|].
      cbv zeta. run_step.
      eapply safe_mono; [apply entries_loop_reports; exact Hrec|].
      intros [s1 e1| | |] s' ->; reflexivity. }
    run_steps. apply safe_when; intros _.
    + apply safe_print_errno; [apply report_step_quiet| |reflexivity]. apply Hlist.
    + apply Hlist.
Qed.

Lemma processDir_reports (fuel : nat) : reports_failures (processDir w v fuel).
Proof.
  induction fuel as [|fuel IH].
  - intros dn pstr stats flags e. simpl. run_step. reflexivity.
  - simpl. apply processDir_body_reports, IH.
Qed.

End Reports.

(** ** The ways a call ends *)

Lemma safe_idle {A} (r : list event * outcome A) (Q : outcome A -> unit -> Prop) :
  safe idle_step tt r Q <-> Q r.2 tt.
Proof.
  unfold safe.
  assert (H : scan idle_step tt r.1 = Some tt).
  { induction r.1 as [|ev t IH]; simpl; [reflexivity|exact IH]. }
  rewrite H. reflexivity.
Qed.

Lemma idle_step_quiet (s : unit) (ev : event) :
  is_quiet ev = true -> idle_step s ev = Some s.
Proof. destruct s. reflexivity. Qed.

Lemma scan_idle (t : list event) : scan idle_step tt t = Some tt.
Proof. induction t as [|ev t IH]; simpl; [reflexivity|exact IH]. Qed.

Section Ends.

Context (w : world) (v : variant).

Lemma entries_loop_ends recurse (new_dn : cstr) :
  (forall dn' pstr stats flags e,
     (length new_dn < length dn')%nat ->
     ends_well v (recurse dn' pstr stats flags e).2) ->
  forall l pstr flags num i stats e,
    safe idle_step tt
      (entries_loop w recurse new_dn pstr flags num i l stats e)
      (fun o _ => ends_well v o).
Proof.
  intros Hrec l. induction l as [|ent rest IH];
    intros pstr flags num i stats e; simpl.
  - run_step. exact I.
  - assert (Hsub : forall stats' e',
      safe idle_step tt
        ((stats1 <- (if S_ISDIR (st_mode (w_lstat w (new_dn ++ d_name ent)).2)
                     then recurse ((new_dn ++ d_name ent) ++ lit "/")
                            (gen_tree_shape (i =? num - 1)%nat flags pstr) stats' flags
                     else ret stats') ;;
          entries_loop w recurse new_dn pstr flags num (S i) rest stats1) e')
        (fun o _ => ends_well v o)).
    { intros stats' e'. run_step. destruct (S_ISDIR _).
      - apply safe_idle.
        match goal with
        | |- context [recurse ?a ?b ?c ?d ?e] =>
            pose proof (Hrec a b c d e) as Hr;
            destruct (recurse a b c d e) as [t [s1 e1| | |]]
        end; simpl in Hr |- *.
        + apply IH.
        + apply Hr. rewrite !length_app. simpl. lia.
        + apply Hr. rewrite !length_app. simpl. lia.
        + apply Hr. rewrite !length_app. simpl. lia.
      - run_step. apply IH. }
    run_steps. apply safe_when; intros _.
    + apply safe_print_verbose; [apply idle_step_quiet| |reflexivity].
      run_step. run_step. apply Hsub.
    + run_step. run_step. apply Hsub.
Qed.

Lemma processDir_body_terminates (bound fuel : nat) recurse :
  path_bounded w bound ->
  terminates v bound fuel recurse ->
  terminates v bound (S fuel) (processDir_body w v recurse).
Proof.
  intros Hbound Hrec dn pstr stats flags e Hne Hfuel _.
  apply (safe_idle _ (fun o _ => ends_well v o)).
  unfold processDir_body.
  destruct (last dn) as [c|] eqn:Hlast; [|apply last_None in Hlast; contradiction].
  set (new_dn := if Ascii.eqb c "/" then dn else dn ++ lit "/").
  assert (Hnew : (length dn <= length new_dn)%nat).
  { subst new_dn. destruct (Ascii.eqb c "/"); [|rewrite length_app]; lia. }
  run_step. unfold opendir.
  destruct (w_opendir w new_dn) as [err|[pend fin]] eqn:Hopen.
  - run_steps. destruct v; simpl.
    + run_steps. cbn [negb Z.eqb].
      apply safe_print_errno; [apply idle_step_quiet| |reflexivity].
      run_steps. reflexivity.
    + run_step. apply safe_print_errno; [apply idle_step_quiet| |reflexivity].
      run_step. exact I.
  - assert (Hshort : (length new_dn <= bound)%nat).
    { destruct (decide (length new_dn <= bound)%nat) as [H|H]; [exact H|].
      destruct (Hbound new_dn ltac:(lia)) as [err Herr]. congruence. }
    assert (Hlist : forall e',
      safe idle_step tt
        ((r0 <- getNext w (Some (mk_DIR pend fin)) ;;
          dirents <- read_dirents w (length pend) (snd r0) (fst r0) [] ;;
          (let dirents0 := qsort dirents in
           stats0 <- entries_loop w recurse new_dn
                       pstr flags (length dirents0) 0 dirents0 stats ;;
           closedir ;; ret stats0)) e')
        (fun o _ => ends_well v o)).
    { intros e'. eapply safe_read; [reflexivity|apply scan_idle|].
      cbv zeta. run_step.
      eapply safe_mono; [apply entries_loop_ends|].
      - intros dn' pstr' stats' flags' e'' Hlen.
        apply Hrec; [|lia|lia].
        intros ->. simpl in Hlen. lia.
      - intros [s1 e1| | |] [] H; simpl in H |- *; exact H. }
    run_steps. apply safe_when; intros _.
    + apply safe_print_errno; [apply idle_step_quiet| |reflexivity]. apply Hlist.
    + apply Hlist.
Qed.

Lemma processDir_terminates (bound fuel : nat) :
  path_bounded w bound -> terminates v bound fuel (processDir w v fuel).
Proof.
  intros Hbound. induction fuel as [|fuel IH].
  - intros dn pstr stats flags e _ _ H. lia.
  - simpl. apply processDir_body_terminates; assumption.
Qed.

End Ends.

(** ** What the machines compute *)

Lemma scan_prefix_step (tr : list event) (d d' : nat) :
  scan prefix_step d tr = Some d' ->
  entry_prefixes_ok d tr /\ depth_after d tr = d'.
Proof.
  revert d. induction tr as [|ev tr IH]; intros d; simpl.
  - intros [= ->]. split; [exact I|reflexivity].
  - destruct (prefix_step d ev) as [d1|] eqn:Hstep; [|discriminate].
    intros Hscan.
    assert (Hd1 : d1 = depth_step d ev /\
                  match ev with
                  | EEntry pfx _ _ => length pfx = (2 * d)%nat
                  | _ => True
                  end).
    { destruct ev; unfold prefix_step in Hstep;
        try (injection Hstep as <-; split; [reflexivity|exact I]).
      destruct (decide (length pfx = (2 * d)%nat)); [|discriminate].
      injection Hstep as <-. split; [reflexivity|assumption]. }
    destruct Hd1 as [-> Hev]. apply IH in Hscan as [Hok Hdepth].
    split; [split; assumption|exact Hdepth].
Qed.

Lemma scan_child_step (k : nat) (tr : list event) (d : nat) (acc : list dirent) :
  scan (child_step k) (d, acc) tr =
  Some (depth_after d tr, acc ++ entries_at k d tr).
Proof.
  revert d acc. induction tr as [|ev tr IH]; intros d acc; simpl.
  - rewrite app_nil_r. reflexivity.
  - rewrite IH. f_equal. f_equal.
    destruct ev; simpl; try reflexivity.
    destruct (d =? k)%nat; simpl; [rewrite <- app_assoc|]; reflexivity.
Qed.

Lemma scan_collect_step (tr : list event) (r n : list dirent) :
  scan collect_step (r, n) tr = Some (r ++ rendered tr, n ++ enumerated tr).
Proof.
  revert r n. induction tr as [|ev tr IH]; intros r n; simpl.
  - rewrite !app_nil_r. reflexivity.
  - rewrite IH. unfold rendered, enumerated. f_equal.
    destruct ev as [| [ent|] | | | | | | | | | | | | | | | | |]; simpl;
      try reflexivity.
    + destruct (is_dot ent); simpl; [|rewrite <- app_assoc]; reflexivity.
    + rewrite <- app_assoc. reflexivity.
Qed.

Lemma entry_lines_name_field (flags : Z) (tr : list event) (s text : cstr) :
  Forall (dir_event flags) tr ->
  (s, text) ∈ entry_lines tr -> text = name_field flags s.
Proof.
  intros Hall Hin. unfold entry_lines in Hin.
  apply list_elem_of_omap in Hin as (ev & Hev & Heq).
  rewrite Forall_forall in Hall. specialize (Hall ev Hev).
  destruct ev; try discriminate Heq.
  injection Heq as <- <-. exact Hall.
Qed.

(** ** The claims on a traversal *)

(** C10: in both rendering modes the child prefix [gen_tree_shape] builds
    is two characters longer than the parent prefix; hence in a traversal
    started with the empty prefix, as [main] starts it, the prefix of every
    entry line has twice as many characters as directories are open when
    the line is written: twice the depth of the entry below the root. *)
Theorem C10_prefix_two_characters_per_level
    (w : world) (v : variant) (fuel : nat) (root : cstr) (stats : summary)
    (flags errno : Z) (is_last : bool) (pstr : cstr) :
  nul_free pstr ->
  length (gen_tree_shape is_last flags pstr) = (length pstr + 2)%nat /\
  entry_prefixes_ok 0 (processDir w v fuel root [] stats flags errno).1.
Proof.
  intros Hp. split; [apply gen_tree_shape_length, Hp|].
  pose proof (processDir_prefixes w v fuel root [] stats flags errno 0%nat
                ltac:(constructor) ltac:(reflexivity)) as H.
  unfold safe in H.
  destruct (scan prefix_step 0%nat _) as [d'|] eqn:E; [|contradiction].
  apply scan_prefix_step in E. apply E.
Qed.

(** C3: when a call of [processDir] returns, at whatever depth, the
    children it rendered are the entries that are directories, in
    byte-wise order of their names, followed by the other entries, in
    byte-wise order of their names; the comparator orders entries totally,
    and two entries compare equal only if their names are the same. *)
Theorem C3_directories_first_in_name_order
    (w : world) (v : variant) (fuel : nat) (dn pstr : cstr) (stats : summary)
    (flags errno : Z) (tr : list event) (s : summary) (e' : Z) (a b : dirent) :
  processDir w v fuel dn pstr stats flags errno = (tr, Ret s e') ->
  nul_free (d_name a) -> nul_free (d_name b) ->
  (children_rendered tr =
     filter is_dir (children_rendered tr) ++
     filter (fun e => ~ is_dir e) (children_rendered tr) /\
   StronglySorted name_le (filter is_dir (children_rendered tr)) /\
   StronglySorted name_le (filter (fun e => ~ is_dir e) (children_rendered tr))) /\
  total_comparison dirent_compare /\
  (dirent_compare a b = 0 -> d_name a = d_name b).
Proof.
  intros Hrun Ha Hb. split; [|split].
  - pose proof (processDir_children w v fuel dn pstr stats flags errno 0%nat []) as H.
    unfold safe in H. rewrite scan_child_step, Hrun in H. simpl in H.
    destruct H as [es [= _ Hes]].
    unfold children_rendered. rewrite Hes.
    apply sorted_directories_first, qsort_sorted.
  - apply dirent_compare_total.
  - apply dirent_compare_zero_names; assumption.
Qed.

(** C5: in verbose mode the name column of every entry line is 54 columns
    wide: a string of prefix and name longer than 54 characters is cut to
    its first 51 characters followed by three dots, a shorter one is padded
    with spaces. *)
Theorem C5_verbose_name_column
    (w : world) (v : variant) (fuel : nat) (dn pstr : cstr) (stats : summary)
    (flags errno : Z) (s text : cstr) :
  has_flag flags F_VERBOSE = true ->
  (s, text) ∈ entry_lines (processDir w v fuel dn pstr stats flags errno).1 ->
  length text = 54%nat /\
  ((54 < length s)%nat -> text = take 51 s ++ lit "...") /\
  ((length s <= 54)%nat -> text = s ++ replicate (54 - length s) space).
Proof.
  intros Hv Hin.
  apply (entry_lines_name_field flags) in Hin; [|apply processDir_dir_events].
  subst text. split; [|split].
  - apply name_field_verbose_width, Hv.
  - apply name_field_long, Hv.
  - apply name_field_short.
Qed.

(** In the file [src/dirtree.c], which returns on a NULL handle: a
    traversal ends; when it returns, the entries it rendered are the
    entries the listing step returned, none dropped; otherwise the process
    exited with [EXIT_FAILURE]; and however it ends, every directory that
    could not be opened and every read error is followed at once by its
    diagnostic. *)
Lemma processDir_src_file_renders_all
    (w : world) (bound fuel : nat) (dn pstr : cstr)
    (stats : summary) (flags errno : Z) :
  path_bounded w bound -> (bound + 3 <= fuel)%nat -> dn <> [] ->
  failures_reported (processDir w SrcFile fuel dn pstr stats flags errno).1 /\
  match (processDir w SrcFile fuel dn pstr stats flags errno).2 with
  | Ret _ _ =>
      rendered (processDir w SrcFile fuel dn pstr stats flags errno).1 ≡ₚ
      enumerated (processDir w SrcFile fuel dn pstr stats flags errno).1
  | Exit status => status = EXIT_FAILURE
  | Fault => False
  | OutOfFuel => False
  end.
Proof.
  intros Hbound Hfuel Hdn. split.
  - pose proof (processDir_reports w SrcFile fuel dn pstr stats flags errno) as H.
    unfold safe in H. unfold failures_reported.
    destruct (scan report_step None _) as [s'|]; [|contradiction]. subst s'.
    reflexivity.
  - pose proof (processDir_terminates w SrcFile bound fuel Hbound
                  dn pstr stats flags errno Hdn ltac:(lia) ltac:(lia)) as Hend.
    pose proof (processDir_renders w SrcFile fuel dn pstr stats flags errno [] []) as H.
    unfold safe in H. rewrite scan_collect_step in H.
    destruct (processDir w SrcFile fuel dn pstr stats flags errno) as [tr [s e'| | |]];
      simpl in *; try exact Hend; [|discriminate Hend].
    destruct H as (r' & n' & [= -> ->] & Hperm). exact Hperm.
Qed.

(** ** A listing given up *)

Lemma abandon_step_quiet_listing (ev : event) :
  is_quiet ev = true -> abandon_step Listing ev = Some Listing.
Proof. destruct ev; simpl; intros H; try discriminate H; reflexivity. Qed.

Lemma abandon_listing (pend : list dirent) (fin : Z) :
  scan abandon_step Listing (listing_trace pend fin) = Some Listing.
Proof.
  unfold listing_trace. rewrite scan_app.
  assert (H : scan abandon_step Listing (map (fun ent => EReaddir (inl ent)) pend)
              = Some Listing).
  { induction pend as [|x l IH]; simpl; [reflexivity|exact IH]. }
  rewrite H. simpl. destruct (fin =? 0); reflexivity.
Qed.

(** A run the machine has read, with a directory in it that could not be
    opened for one of the three conditions, ends with the error line, at
    the NULL handle. *)
Lemma scan_abandon_split {A} (before after : list event) (path : cstr)
    (err : positive) (s' : abandon_state) (o : outcome A) :
  scan abandon_step Listing (before ++ EOpendir path (Some err) :: after) = Some s' ->
  abandoned_on_fault o s' ->
  open_error_text (Z.pos err) <> None ->
  (exists pfx msg, after = [EErrorLine pfx msg]) /\ o = Fault.
Proof.
  rewrite scan_app. intros Hscan Hend Hknown.
  destruct (scan abandon_step Listing before) as [[| |]|];
    cbn [scan abandon_step] in Hscan; try discriminate Hscan.
  destruct (open_error_text (Z.pos err)); [|contradiction].
  destruct after as [|ev rest];
    [injection Hscan as <-; contradiction|].
  destruct ev; try discriminate Hscan.
  cbn [scan abandon_step] in Hscan.
  destruct rest as [|ev' rest']; [|discriminate Hscan].
  injection Hscan as <-. split; [eauto|exact Hend].
Qed.

Section Abandon.

Context (w : world).

Lemma entries_loop_gives_up recurse :
  gives_up recurse ->
  forall l new_dn pstr flags num i stats e,
    safe abandon_step Listing
      (entries_loop w recurse new_dn pstr flags num i l stats e)
      abandoned_on_fault.
Proof.
  intros Hrec l. induction l as [|ent rest IH];
    intros new_dn pstr flags num i stats e; simpl.
  - run_step. exact I.
  - assert (Hsub : forall stats' e',
      safe abandon_step Listing
        ((stats1 <- (if S_ISDIR (st_mode (w_lstat w (new_dn ++ d_name ent)).2)
                     then recurse ((new_dn ++ d_name ent) ++ lit "/")
                            (gen_tree_shape (i =? num - 1)%nat flags pstr) stats' flags
                     else ret stats') ;;
          entries_loop w recurse new_dn pstr flags num (S i) rest stats1) e')
        abandoned_on_fault).
    { intros stats' e'. run_step. destruct (S_ISDIR _).
      - eapply safe_mono; [apply Hrec|].
        intros [s1 e1| | |] [| |] H; simpl in H |- *;
          try exact H; try contradiction; try discriminate H.
        apply IH.
      - run_step. apply IH. }
    run_steps. apply safe_when; intros _.
    + apply safe_print_verbose; [apply abandon_step_quiet_listing| |exact I].
      run_step. run_step. apply Hsub.
    + run_step. run_step. apply Hsub.
Qed.

Lemma processDir_body_gives_up recurse :
  gives_up recurse -> gives_up (processDir_body w RootFile recurse).
Proof.
  intros Hrec dn pstr stats flags e. unfold processDir_body.
  destruct (last dn) as [c|]; [|run_step; exact I].
  run_step. unfold opendir.
  destruct (w_opendir w _) as [err|[pend fin]].
  - run_step. run_step. run_step. eapply safe_emit; [reflexivity|]. run_step.
    cbn [checks_handle]. run_step. run_step. run_step. cbn [negb Z.eqb when].
    destruct (open_error_text (Z.pos err)) as [msg|] eqn:Hmsg.
    + destruct (print_errno_known pstr flags (Z.pos err) msg Hmsg) as [Hrun _].
      rewrite Hrun. unfold safe. cbn. reflexivity.
    + apply safe_print_errno; [apply abandon_step_quiet_listing| |exact I].
      run_step. exact I.
  - run_steps. cbn [checks_handle].
    assert (Hlist : forall e',
      safe abandon_step Listing
        ((r0 <- getNext w (Some (mk_DIR pend fin)) ;;
          dirents <- read_dirents w (length pend) (snd r0) (fst r0) [] ;;
          (let dirents0 := qsort dirents in
           stats0 <- entries_loop w recurse
                       (if Ascii.eqb c "/" then dn else dn ++ lit "/")
                       pstr flags (length dirents0) 0 dirents0 stats ;;
           closedir ;; ret stats0)) e')
        abandoned_on_fault).
    { intros e'. eapply safe_read; [reflexivity|apply abandon_listing|].
      cbv zeta. run_step.
      eapply safe_mono; [apply entries_loop_gives_up; exact Hrec|].
      intros [s1 e1| | |] [| |] H; simpl in H |- *;
        try exact H; try contradiction; discriminate H. }
    apply safe_when; intros _.
    + apply safe_print_errno; [apply abandon_step_quiet_listing| |exact I].
      apply Hlist.
    + apply Hlist.
Qed.

Lemma processDir_gives_up (fuel : nat) : gives_up (processDir w RootFile fuel).
Proof.
  induction fuel as [|fuel IH].
  - intros dn pstr stats flags e. simpl. run_step. exact I.
  - simpl. apply processDir_body_gives_up, IH.
Qed.

End Abandon.

(** C6, for the file [dirtree.c]: in a traversal, a directory that cannot
    be opened for one of the three conditions ends the listing. Its error
    line is the last thing written, and the run is then at the [readdir] of
    the NULL handle: it does not return and the process does not exit with
    a message, so that no line is written any more for the entries already
    read from the directories above. *)
Theorem C6_root_file_gives_up_the_listing
    (w : world) (fuel : nat) (dn pstr : cstr) (stats : summary) (flags errno : Z)
    (before after : list event) (path : cstr) (err : positive) :
  (processDir w RootFile fuel dn pstr stats flags errno).1 =
    before ++ EOpendir path (Some err) :: after ->
  open_error_text (Z.pos err) <> None ->
  (exists pfx msg, after = [EErrorLine pfx msg]) /\
  (processDir w RootFile fuel dn pstr stats flags errno).2 = Fault /\
  rendered (processDir w RootFile fuel dn pstr stats flags errno).1 =
    rendered before.
Proof.
  intros Htrace Hknown.
  pose proof (processDir_gives_up w fuel dn pstr stats flags errno) as H.
  unfold safe in H. rewrite Htrace in H |- *.
  destruct (scan abandon_step Listing _) as [s'|] eqn:Hscan; [|contradiction].
  destruct (scan_abandon_split _ _ _ _ _ _ Hscan H Hknown) as [(pfx & msg & ->) Ho].
  split; [eauto|]. split; [exact Ho|].
  unfold rendered. rewrite omap_app. cbn. apply app_nil_r.
Qed.

(** ** A directory that cannot be opened *)

Lemma processDir_open_failure_recovered
    (w : world) (fuel : nat) (dn pstr : cstr) (stats : summary)
    (flags errno : Z) (err : positive) (msg : cstr) :
  dn <> [] ->
  w_opendir w (normalized dn) = inl err ->
  open_error_text (Z.pos err) = Some msg ->
  processDir w SrcFile (S fuel) dn pstr stats flags errno =
  ([EOpendir (normalized dn) (Some err);
    EErrorLine (gen_tree_shape true flags pstr) msg],
   Ret stats (Z.pos err)).
Proof.
  intros Hdn Hopen Hmsg. simpl. unfold processDir_body, normalized in *.
  destruct (last dn) as [c|] eqn:Hlast; [|apply last_None in Hlast; contradiction].
  unfold bind, opendir. rewrite Hopen. simpl.
  unfold print_errno, bind, get_errno. unfold open_error_text in Hmsg.
  destruct (Z.pos err =? EACCES); [injection Hmsg as <-; reflexivity|].
  destruct (Z.pos err =? ENOENT); [injection Hmsg as <-; reflexivity|].
  destruct (Z.pos err =? ENOTDIR); [injection Hmsg as <-; reflexivity|].
  discriminate Hmsg.
Qed.

(** C1, for the file [dirtree.c]: called on a path whose directory cannot
    be opened for one of the three conditions, [processDir] renders the one
    error line of the condition, with the prefix of a last sibling, and
    then gives the NULL handle to [readdir]: the call does not return. *)
Theorem C1_root_file_reads_null_handle
    (w : world) (fuel : nat) (dn pstr : cstr) (stats : summary)
    (flags errno : Z) (err : positive) (msg : cstr) :
  dn <> [] ->
  w_opendir w (normalized dn) = inl err ->
  open_error_text (Z.pos err) = Some msg ->
  processDir w RootFile (S fuel) dn pstr stats flags errno =
  ([EOpendir (normalized dn) (Some err);
    EErrorLine (gen_tree_shape true flags pstr) msg],
   Fault).
Proof.
  intros Hdn Hopen Hmsg. simpl. unfold processDir_body, normalized in *.
  destruct (last dn) as [c|] eqn:Hlast; [|apply last_None in Hlast; contradiction].
  unfold bind, opendir. rewrite Hopen. simpl.
  unfold print_errno, bind, get_errno. unfold open_error_text in Hmsg.
  destruct (Z.pos err =? EACCES); [injection Hmsg as <-; reflexivity|].
  destruct (Z.pos err =? ENOENT); [injection Hmsg as <-; reflexivity|].
  destruct (Z.pos err =? ENOTDIR); [injection Hmsg as <-; reflexivity|].
  discriminate Hmsg.
Qed.

Lemma C1_witness :
  processDir Demo.fs RootFile 1 (lit "t/noaccess") (lit "|-") summary_zero F_TREE 0 =
  ([EOpendir (lit "t/noaccess/") (Some 13%positive);
    EErrorLine (lit "| `-") (lit "ERROR: Permission denied")],
   Fault).
Proof.
  exact (C1_root_file_reads_null_handle Demo.fs 0 (lit "t/noaccess") (lit "|-")
           summary_zero F_TREE 0 13%positive (lit "ERROR: Permission denied")
           ltac:(discriminate) eq_refl eq_refl).
Defined.

(** ** The argument loop *)

Lemma parse_args_valid (argv0 : cstr) (args : list cstr) (flags : Z)
    (dirs : list cstr) (e : Z) :
  valid_args args = true ->
  parse_args argv0 args flags dirs e =
  (map EWarning (drop (MAX_DIR - length dirs) (positionals args)),
   Ret (flags_with flags args,
        dirs ++ take (MAX_DIR - length dirs) (positionals args)) e).
Proof.
  revert flags dirs. induction args as [|arg rest IH]; intros flags dirs Hvalid.
  - simpl. rewrite take_nil, drop_nil, app_nil_r. reflexivity.
  - simpl in Hvalid. apply andb_prop in Hvalid as [Harg Hrest].
    unfold positionals, flags_with in *. simpl. unfold flag_of.
    fold (is_option arg) in *.
    destruct (is_option arg) eqn:Hopt; simpl in Harg |- *.
    + destruct (strcmp arg (lit "-t") =? 0); [apply IH, Hrest|].
      destruct (strcmp arg (lit "-s") =? 0); [apply IH, Hrest|].
      destruct (strcmp arg (lit "-v") =? 0); [apply IH, Hrest|].
      discriminate Harg.
    + rewrite Z.lor_0_r.
      destruct (length dirs <? MAX_DIR)%nat eqn:Hlen.
      * apply Nat.ltb_lt in Hlen. rewrite IH by exact Hrest.
        rewrite length_app. simpl length.
        destruct (MAX_DIR - length dirs)%nat as [|k] eqn:Hk; [lia|].
        replace (MAX_DIR - (length dirs + 1))%nat with k by lia.
        simpl. rewrite <- app_assoc. reflexivity.
      * apply Nat.ltb_ge in Hlen.
        unfold bind, emit. rewrite IH by exact Hrest.
        replace (MAX_DIR - length dirs)%nat with 0%nat by lia.
        reflexivity.
Qed.

Lemma parse_args_invalid (argv0 : cstr) (args : list cstr) (flags : Z)
    (dirs : list cstr) (e : Z) :
  valid_args args = false ->
  (parse_args argv0 args flags dirs e).2 = Exit EXIT_FAILURE.
Proof.
  revert flags dirs e. induction args as [|arg rest IH]; intros flags dirs e Hvalid.
  - discriminate Hvalid.
  - simpl in Hvalid |- *. fold (is_option arg) in *.
    destruct (is_option arg) eqn:Hopt; simpl in Hvalid.
    + destruct (strcmp arg (lit "-t") =? 0); [apply IH, Hvalid|].
      destruct (strcmp arg (lit "-s") =? 0); [apply IH, Hvalid|].
      destruct (strcmp arg (lit "-v") =? 0); [apply IH, Hvalid|].
      destruct (strcmp arg (lit "-h") =? 0); reflexivity.
    + destruct (length dirs <? MAX_DIR)%nat; [apply IH, Hvalid|].
      unfold bind, emit. specialize (IH flags dirs e Hvalid).
      destruct (parse_args argv0 rest flags dirs e) as [t o]. simpl in IH. subst o.
      reflexivity.
Qed.

(** A flag is set by the arguments when its option is among them. *)
Lemma flags_with_land (flags : Z) (args : list cstr) (f : Z) :
  Z.land (flags_with flags args) f =
  Z.lor (Z.land flags f) (Z.land (flags_with 0 args) f).
Proof.
  revert flags. induction args as [|arg rest IH]; intros flags; unfold flags_with in *; simpl.
  - rewrite Z.land_0_l, Z.lor_0_r. reflexivity.
  - rewrite IH, (IH (Z.lor 0 _)), Z.lor_0_l, !Z.land_lor_distr_l, Z.lor_assoc.
    reflexivity.
Qed.

Lemma has_flag_tree_not_given (args : list cstr) :
  existsb (fun arg => is_option arg && (strcmp arg (lit "-t") =? 0)) args = false ->
  has_flag (flags_with 0 args) F_TREE = false.
Proof.
  unfold has_flag. induction args as [|arg rest IH]; intros Hnone; [reflexivity|].
  simpl in Hnone. apply orb_false_elim in Hnone as [Harg Hrest].
  unfold flags_with in *. simpl. fold (flags_with (flag_of arg) rest).
  rewrite flags_with_land.
  specialize (IH Hrest). apply negb_false_iff, Z.eqb_eq in IH.
  unfold flags_with. rewrite IH, Z.lor_0_r.
  unfold flag_of. destruct (is_option arg); simpl in Harg |- *; [|reflexivity].
  rewrite Harg.
  destruct (strcmp arg (lit "-s") =? 0); [reflexivity|].
  destruct (strcmp arg (lit "-v") =? 0); reflexivity.
Qed.

Lemma strcmp_zero_common (a b c : cstr) :
  strcmp a b = 0 -> strcmp a c = 0 -> strcmp b c = 0.
Proof.
  intros Hab Hac.
  pose proof (strcmp_flip a b) as Hba. pose proof (strcmp_flip a c) as Hca.
  pose proof (strcmp_flip b c) as Hcb.
  pose proof (strcmp_trans b a c ltac:(lia) ltac:(lia)).
  pose proof (strcmp_trans c a b ltac:(lia) ltac:(lia)).
  lia.
Qed.

Lemma has_flag_lor (x y f : Z) :
  has_flag y f = true -> has_flag (Z.lor x y) f = true.
Proof.
  unfold has_flag. rewrite !negb_true_iff, !Z.eqb_neq, Z.land_lor_distr_l.
  intros Hy Hxy. apply Z.lor_eq_0_iff in Hxy. tauto.
Qed.

Lemma has_flag_flags_with (flags : Z) (args : list cstr) (f : Z) :
  has_flag flags f = true \/ has_flag (flags_with 0 args) f = true ->
  has_flag (flags_with flags args) f = true.
Proof.
  unfold has_flag. rewrite !negb_true_iff, !Z.eqb_neq, (flags_with_land flags).
  intros H Hor. apply Z.lor_eq_0_iff in Hor. tauto.
Qed.

Lemma has_flag_summary_given (argv : list cstr) :
  option_given (lit "-s") argv = true ->
  has_flag (flags_with 0 (tl argv)) F_SUMMARY = true.
Proof.
  unfold option_given. induction (tl argv) as [|arg rest IH]; intros Hgiven;
    [discriminate Hgiven|].
  simpl in Hgiven. unfold flags_with. simpl. fold (flags_with (Z.lor 0 (flag_of arg)) rest).
  apply has_flag_flags_with.
  apply orb_prop in Hgiven as [Harg|Hrest]; [left|right; apply IH, Hrest].
  apply andb_prop in Harg as [Hopt Hs]. apply Z.eqb_eq in Hs.
  unfold flag_of. rewrite Hopt. simpl.
  destruct (Z.eqb_spec (strcmp arg (lit "-t")) 0) as [Ht|_].
  - pose proof (strcmp_zero_common arg (lit "-t") (lit "-s") Ht Hs) as H.
    discriminate H.
  - apply Z.eqb_eq in Hs. rewrite Hs. reflexivity.
Qed.

Lemma has_flag_verbose_given (argv : list cstr) :
  option_given (lit "-v") argv = true ->
  has_flag (flags_with 0 (tl argv)) F_VERBOSE = true.
Proof.
  unfold option_given. induction (tl argv) as [|arg rest IH]; intros Hgiven;
    [discriminate Hgiven|].
  simpl in Hgiven. unfold flags_with. simpl. fold (flags_with (Z.lor 0 (flag_of arg)) rest).
  apply has_flag_flags_with.
  apply orb_prop in Hgiven as [Harg|Hrest]; [left|right; apply IH, Hrest].
  apply andb_prop in Harg as [Hopt Hv]. apply Z.eqb_eq in Hv.
  unfold flag_of. rewrite Hopt. simpl.
  destruct (Z.eqb_spec (strcmp arg (lit "-t")) 0) as [Ht|_].
  - pose proof (strcmp_zero_common arg (lit "-t") (lit "-v") Ht Hv) as H.
    discriminate H.
  - destruct (Z.eqb_spec (strcmp arg (lit "-s")) 0) as [Hs|_].
    + pose proof (strcmp_zero_common arg (lit "-s") (lit "-v") Hs Hv) as H.
      discriminate H.
    + apply Z.eqb_eq in Hv. rewrite Hv. reflexivity.
Qed.

(** C2, as the program has it: on a command line with [-v] and without
    [-t] the argument loop sets the verbose flag and not the tree flag,
    and every child prefix is then the parent prefix followed by two
    spaces: no branch glyph is rendered. *)
Theorem C2_verbose_alone_renders_no_glyph
    (argv : list cstr) (errno : Z) (is_last : bool) (pstr : cstr) :
  options_valid argv = true ->
  option_given (lit "-v") argv = true ->
  option_given (lit "-t") argv = false ->
  exists flags directories,
    parse_args (hd [] argv) (tl argv) 0 [] errno =
      (map EWarning (drop MAX_DIR (roots_given argv)),
       Ret (flags, directories) errno) /\
    has_flag flags F_VERBOSE = true /\
    has_flag flags F_TREE = false /\
    gen_tree_shape is_last flags pstr = pstr ++ [space; space].
Proof.
  intros Hvalid Hv Hnot. exists (flags_with 0 (tl argv)). eexists.
  split; [|split; [|split]].
  - rewrite parse_args_valid by exact Hvalid. reflexivity.
  - apply has_flag_verbose_given, Hv.
  - apply has_flag_tree_not_given, Hnot.
  - apply gen_tree_shape_plain, has_flag_tree_not_given, Hnot.
Qed.

Lemma C2_witness :
  exists flags directories,
    parse_args (lit "dirtree") [lit "-v"; lit "t"] 0 [] 0 =
      ([], Ret (flags, directories) 0) /\
    has_flag flags F_VERBOSE = true /\
    has_flag flags F_TREE = false /\
    gen_tree_shape true flags (lit "  ") = lit "    ".
Proof.
  exact (C2_verbose_alone_renders_no_glyph
           [lit "dirtree"; lit "-v"; lit "t"] 0 true (lit "  ")
           eq_refl eq_refl eq_refl).
Defined.

(** ** The loop over the roots *)

Lemma scan_dir_events {St} (step : St -> event -> option St) (s : St)
    (flags : Z) (tr : list event) :
  Forall (dir_event flags) tr ->
  (forall ev, dir_event flags ev -> step s ev = Some s) ->
  scan step s tr = Some s.
Proof.
  intros Htr Hstep. induction Htr as [|ev tr Hev _ IH]; simpl; [reflexivity|].
  rewrite (Hstep ev Hev). exact IH.
Qed.

Lemma safe_processDir {St} (step : St -> event -> option St) (s : St)
    (w : world) (v : variant) (fuel : nat) (dn pstr : cstr) (stats : summary)
    (flags e : Z) (Q : outcome summary -> St -> Prop) :
  (forall ev, dir_event flags ev -> step s ev = Some s) ->
  Q (processDir w v fuel dn pstr stats flags e).2 s ->
  safe step s (processDir w v fuel dn pstr stats flags e) Q.
Proof.
  intros Hstep HQ. unfold safe.
  rewrite (scan_dir_events step s flags); [exact HQ| |exact Hstep].
  apply processDir_dir_events.
Qed.

Lemma scan_warnings {St} (step : St -> event -> option St) (s : St)
    (args : list cstr) :
  (forall arg, step s (EWarning arg) = Some s) ->
  scan step s (map EWarning args) = Some s.
Proof.
  intros Hstep. induction args as [|arg rest IH]; simpl; [reflexivity|].
  rewrite Hstep. exact IH.
Qed.

Lemma parse_args_cli_events (argv0 : cstr) (args : list cstr) (flags : Z)
    (dirs : list cstr) (e : Z) :
  Forall (fun ev => is_cli_event ev = true) (parse_args argv0 args flags dirs e).1.
Proof.
  revert flags dirs. induction args as [|arg rest IH]; intros flags dirs; simpl.
  - constructor.
  - destruct (Ascii.eqb (hd NUL arg) "-").
    + destruct (strcmp arg (lit "-t") =? 0); [apply IH|].
      destruct (strcmp arg (lit "-s") =? 0); [apply IH|].
      destruct (strcmp arg (lit "-v") =? 0); [apply IH|].
      destruct (strcmp arg (lit "-h") =? 0); repeat constructor.
    + destruct (length dirs <? MAX_DIR)%nat; [apply IH|].
      unfold bind, emit. specialize (IH flags dirs).
      destruct (parse_args argv0 rest flags dirs e) as [t o]. simpl in IH |- *.
      constructor; [reflexivity|exact IH].
Qed.

Lemma scan_total_step (tr : list event) (a b : list summary) :
  scan total_step (a, b) tr = Some (a ++ summaries tr, b ++ grand_totals tr).
Proof.
  revert a b. induction tr as [|ev tr IH]; intros a b; simpl.
  - rewrite !app_nil_r. reflexivity.
  - rewrite IH. unfold summaries, grand_totals. f_equal.
    destruct ev; simpl; rewrite <- ?app_assoc; reflexivity.
Qed.

Lemma scan_cli_step (tr : list event) (a b : list cstr) :
  scan cli_step (a, b) tr = Some (a ++ roots_traversed tr, b ++ warnings tr).
Proof.
  revert a b. induction tr as [|ev tr IH]; intros a b; simpl.
  - rewrite !app_nil_r. reflexivity.
  - rewrite IH. unfold roots_traversed, warnings. f_equal.
    destruct ev; simpl; rewrite <- ?app_assoc; reflexivity.
Qed.

Lemma total_step_dir_event (flags : Z) (s : list summary * list summary) (ev : event) :
  dir_event flags ev -> total_step s ev = Some s.
Proof.
  destruct s as [a b], ev; simpl; intros H; try discriminate H; reflexivity.
Qed.

Lemma cli_step_dir_event (flags : Z) (s : list cstr * list cstr) (ev : event) :
  dir_event flags ev -> cli_step s ev = Some s.
Proof.
  destruct s as [a b], ev; simpl; intros H; try discriminate H; reflexivity.
Qed.

Section Roots.

Context (w : world) (v : variant) (fuel : nat).

Lemma roots_loop_totals (flags : Z) :
  has_flag flags F_SUMMARY = true ->
  forall directories tstat e a b,
    safe total_step (a, b) (roots_loop w v fuel flags directories tstat e)
      (fun o s' =>
         exists sums, s' = (a ++ sums, b) /\
           (forall tstat' e', o = Ret tstat' e' ->
              tstat' = foldl add_summary tstat sums)).
Proof.
  intros Hs directories. induction directories as [|root rest IH];
    intros tstat e a b; simpl.
  - run_step. exists []. rewrite app_nil_r. split; [reflexivity|].
    intros tstat' e' [= <- _]. reflexivity.
  - assert (Hstop : exists sums : list summary, (a, b) = (a ++ sums, b)).
    { exists []. rewrite app_nil_r. reflexivity. }
    rewrite Hs. run_steps.
    apply safe_processDir; [apply total_step_dir_event|].
    destruct (processDir w v fuel root [] summary_zero flags e).2
      as [dstat e1| | |];
      try (destruct Hstop as [sums Hsums]; exists sums;
           split; [exact Hsums|]; intros; discriminate).
    run_steps. eapply safe_mono; [apply IH|].
    intros o s' (sums & -> & Hret).
    exists (dstat :: sums). rewrite <- app_assoc. split; [reflexivity|].
    intros tstat' e' Ho. apply (Hret tstat' e' Ho).
Qed.

Lemma roots_loop_roots (flags : Z) :
  forall directories tstat e a b,
    safe cli_step (a, b) (roots_loop w v fuel flags directories tstat e)
      (fun o s' =>
         exists done, s' = (a ++ done, b) /\ done `prefix_of` directories /\
                      (forall t e', o = Ret t e' -> done = directories)).
Proof.
  intros directories. induction directories as [|root rest IH];
    intros tstat e a b; simpl.
  - run_step. exists []. rewrite app_nil_r. repeat split; reflexivity.
  - assert (Hstop : exists done, (a ++ [root], b) = (a ++ done, b) /\
                      done `prefix_of` root :: rest).
    { exists [root]. split; [reflexivity|]. exists rest. reflexivity. }
    assert (Hrest : forall tstat' e',
      safe cli_step (a ++ [root], b) (roots_loop w v fuel flags rest tstat' e')
        (fun o s' =>
           exists done, s' = (a ++ done, b) /\ done `prefix_of` root :: rest /\
                        (forall t e'', o = Ret t e'' -> done = root :: rest))).
    { intros tstat' e'. eapply safe_mono; [apply IH|].
      intros o s' (done & -> & Hpre & Hall).
      exists (root :: done). rewrite <- app_assoc. split; [reflexivity|]. split.
      - apply prefix_cons, Hpre.
      - intros t e'' Ho. f_equal. eapply Hall, Ho. }
    assert (Hdir : forall e',
      safe cli_step (a ++ [root], b)
        ((dstat <- processDir w v fuel root [] summary_zero flags ;;
          tstat0 <- (if has_flag flags F_SUMMARY
                     then emit ERule ;;
                          emit (ESummary (has_flag flags F_VERBOSE) dstat) ;;
                          ret (add_summary tstat dstat)
                     else ret tstat) ;;
          roots_loop w v fuel flags rest tstat0) e')
        (fun o s' =>
           exists done, s' = (a ++ done, b) /\ done `prefix_of` root :: rest /\
                        (forall t e'', o = Ret t e'' -> done = root :: rest))).
    { intros e'. run_step.
      apply safe_processDir; [apply cli_step_dir_event|].
      destruct (processDir w v fuel root [] summary_zero flags e').2
        as [dstat e1| | |];
        try (destruct Hstop as (done & Hd & Hp); exists done;
             split; [exact Hd|]; split; [exact Hp|]; intros; discriminate).
      run_step. destruct (has_flag flags F_SUMMARY).
      - run_steps. apply Hrest.
      - run_step. apply Hrest. }
    run_step. apply safe_when; intros _; run_until Hdir.
Qed.

End Roots.

(** ** Sums of summaries *)

Lemma wrap32_range x : 0 <= wrap32 x < 2 ^ 32.
Proof. unfold wrap32. apply Z.mod_pos_bound. lia. Qed.

Lemma wrap64_range x : 0 <= wrap64 x < 2 ^ 64.
Proof. unfold wrap64. apply Z.mod_pos_bound. lia. Qed.

Lemma wrap32_add_l x y : wrap32 (wrap32 x + y) = wrap32 (x + y).
Proof. unfold wrap32. apply Zplus_mod_idemp_l. Qed.

Lemma wrap64_add_l x y : wrap64 (wrap64 x + y) = wrap64 (x + y).
Proof. unfold wrap64. apply Zplus_mod_idemp_l. Qed.

Lemma add_summary_in_range (t x : summary) : summary_in_range (add_summary t x).
Proof.
  unfold summary_in_range, add_summary. simpl.
  repeat split; first [apply wrap32_range | apply wrap64_range].
Qed.

Lemma foldl_add_summary (l : list summary) (t : summary) :
  summary_in_range t ->
  foldl add_summary t l =
  {| dirs := wrap32 (dirs t + sum_of dirs l);
     files := wrap32 (files t + sum_of files l);
     links := wrap32 (links t + sum_of links l);
     fifos := wrap32 (fifos t + sum_of fifos l);
     socks := wrap32 (socks t + sum_of socks l);
     size := wrap64 (size t + sum_of size l);
     blocks := wrap64 (blocks t + sum_of blocks l) |}.
Proof.
  revert t. induction l as [|x l IH]; intros t Ht.
  - destruct t as [d f k p s z b]. destruct Ht as (Hd & Hf & Hl & Hp & Hs & Hz & Hb).
    simpl in *. unfold wrap32, wrap64. rewrite !Z.add_0_r, !Z.mod_small by assumption.
    reflexivity.
  - simpl. rewrite IH by apply add_summary_in_range. simpl.
    rewrite !wrap32_add_l, !wrap64_add_l, !Z.add_assoc. reflexivity.
Qed.

Lemma foldl_add_summary_zero (l : list summary) :
  foldl add_summary summary_zero l = sum_summaries l.
Proof.
  rewrite foldl_add_summary.
  - reflexivity.
  - unfold summary_in_range. simpl. lia.
Qed.

(** ** The whole run *)

Lemma scan_cli_events {St} (step : St -> event -> option St) (s : St)
    (tr : list event) :
  Forall (fun ev => is_cli_event ev = true) tr ->
  (forall ev, is_cli_event ev = true -> step s ev = Some s) ->
  scan step s tr = Some s.
Proof.
  intros Htr Hstep. induction Htr as [|ev tr Hev _ IH]; simpl; [reflexivity|].
  rewrite (Hstep ev Hev). exact IH.
Qed.

Lemma total_step_cli_event (s : list summary * list summary) (ev : event) :
  is_cli_event ev = true -> total_step s ev = Some s.
Proof.
  destruct s as [a b], ev; simpl; intros H; try discriminate H; reflexivity.
Qed.

Lemma roots_traversed_warnings (args : list cstr) :
  roots_traversed (map EWarning args) = [] /\ warnings (map EWarning args) = args.
Proof.
  induction args as [|arg rest [IH1 IH2]]; [split; reflexivity|].
  unfold roots_traversed, warnings in *. simpl.
  split; [exact IH1|f_equal; exact IH2].
Qed.

(** The number of roots [main] traverses is above one when more than one
    root was given. *)
Lemma more_than_one_root (roots : list cstr) :
  (1 <? length (if (length (take 64 roots) =? 0)%nat
                then [lit "."]
                else take 64 roots))%nat =
  (1 <? length roots)%nat.
Proof.
  destruct roots as [|r1 [|r2 roots]]; reflexivity.
Qed.

Section Main.

Context (w : world) (v : variant) (fuel : nat).

Lemma main_totals (argv : list cstr) (e : Z) :
  has_flag (flags_with 0 (tl argv)) F_SUMMARY = true ->
  safe total_step ([], []) (main w v fuel argv e)
    (fun o s' =>
       s'.2 = match o with
              | Ret _ _ =>
                  if (1 <? length (roots_given argv))%nat
                  then [sum_summaries s'.1] else []
              | _ => []
              end).
Proof.
  intros Hs. unfold main. run_step.
  destruct (valid_args (tl argv)) eqn:Hvalid.
  - rewrite parse_args_valid by exact Hvalid.
    unfold safe at 1. cbn [fst snd].
    rewrite scan_warnings by reflexivity.
    run_step. eapply safe_mono; [apply roots_loop_totals; exact Hs|].
    intros [t e1| | |] s' (sums & -> & Hret); try reflexivity.
    rewrite (Hret t e1 eq_refl). simpl.
    rewrite Hs, more_than_one_root. fold (roots_given argv). cbn [andb].
    rewrite foldl_add_summary_zero.
    run_step. apply safe_when; intros Hmany; rewrite Hmany.
    + run_steps. reflexivity.
    + run_step. reflexivity.
  - unfold safe at 1.
    rewrite (scan_cli_events total_step ([], []));
      [|apply parse_args_cli_events|apply total_step_cli_event].
    rewrite parse_args_invalid by exact Hvalid. reflexivity.
Qed.

Lemma main_roots (argv : list cstr) (e : Z) :
  options_valid argv = true -> (MAX_DIR < length (roots_given argv))%nat ->
  safe cli_step ([], []) (main w v fuel argv e)
    (fun o s' =>
       s'.2 = drop MAX_DIR (roots_given argv) /\
       s'.1 `prefix_of` take MAX_DIR (roots_given argv) /\
       (forall st e', o = Ret st e' -> s'.1 = take MAX_DIR (roots_given argv))).
Proof.
  intros Hvalid Hmany. unfold main. run_step.
  rewrite parse_args_valid by exact Hvalid.
  unfold safe at 1. cbn [fst snd].
  rewrite scan_cli_step.
  destruct (roots_traversed_warnings (drop (MAX_DIR - length (@nil cstr))
              (positionals (tl argv)))) as [-> ->].
  fold (roots_given argv). cbn [app length]. rewrite Nat.sub_0_r.
  assert (Hlen : (length (take MAX_DIR (roots_given argv)) =? 0)%nat = false).
  { apply Nat.eqb_neq. rewrite length_take. unfold MAX_DIR in *. lia. }
  rewrite Hlen.
  run_step. eapply safe_mono; [apply roots_loop_roots|].
  intros o s' (done & -> & Hpre & Hall). cbn [app] in *.
  destruct o as [t e1| | |];
    try (split; [reflexivity|]; split; [exact Hpre|]; intros; discriminate).
  run_step. apply safe_when; intros _.
  - run_steps. split; [reflexivity|]. split; [exact Hpre|].
    intros _ _ _. eapply Hall. reflexivity.
  - run_step. split; [reflexivity|]. split; [exact Hpre|].
    intros _ _ _. eapply Hall. reflexivity.
Qed.

End Main.

(** C8: in a run with the summary flag ([-s] on the command line), the
    grand total is printed when the run completes and more than one root
    was given, and in no other case; its counters are the sums, field by
    field and in the arithmetic of the counters' types, of the summaries
    printed for the roots. *)
Theorem C8_grand_total_is_sum_of_summaries
    (w : world) (v : variant) (fuel : nat) (argv : list cstr) (errno : Z) :
  option_given (lit "-s") argv = true ->
  grand_totals (main w v fuel argv errno).1 =
    match (main w v fuel argv errno).2 with
    | Ret _ _ =>
        if (1 <? length (roots_given argv))%nat
        then [sum_summaries (summaries (main w v fuel argv errno).1)]
        else []
    | _ => []
    end.
Proof.
  intros Hs. apply has_flag_summary_given in Hs.
  pose proof (main_totals w v fuel argv errno Hs) as H.
  unfold safe in H. rewrite scan_total_step in H. exact H.
Qed.

(** ** The roots a run starts on *)

Lemma root_traversals_other (ev : event) (rest : list event) :
  is_root_line ev = false -> root_traversals (ev :: rest) = root_traversals rest.
Proof. destruct ev; simpl; intros H; try discriminate H; reflexivity. Qed.

Lemma root_traversals_app (t1 t2 : list event) :
  Forall (fun ev => is_root_line ev = false) t1 ->
  root_traversals (t1 ++ t2) = root_traversals t2.
Proof.
  intros H. induction H as [|ev t1 Hev _ IH]; [reflexivity|].
  cbn [app]. rewrite root_traversals_other by exact Hev. exact IH.
Qed.

Lemma root_traversals_frame (t1 t2 : list event) :
  Forall (fun ev => is_summary_event ev = true) t2 ->
  root_traversals (t1 ++ t2) = root_traversals t1.
Proof.
  intros H2.
  assert (Hnil : root_traversals t2 = []).
  { rewrite <- (app_nil_r t2). apply root_traversals_app.
    eapply Forall_impl; [exact H2|]. intros ev H. destruct ev; try reflexivity.
    discriminate H. }
  induction t1 as [|ev t1 IH]; [exact Hnil|].
  destruct ev; cbn [app root_traversals]; try exact IH.
  rewrite IH. f_equal. f_equal.
  destruct t1 as [|x t1]; [|reflexivity].
  destruct H2 as [|[] t2 Hx _]; try reflexivity. discriminate Hx.
Qed.

Lemma dir_event_not_root_line (flags : Z) (tr : list event) :
  Forall (dir_event flags) tr -> Forall (fun ev => is_root_line ev = false) tr.
Proof.
  intros Hall. eapply Forall_impl; [exact Hall|].
  intros ev H. destruct ev; simpl in *; try reflexivity.
  discriminate H.
Qed.

(** A call of [processDir] on a path that is not empty begins by [opendir]
    on the path, with its final slash, however the call ends. *)
Lemma processDir_begins_with_opendir
    (w : world) (v : variant) (fuel : nat) (dn pstr : cstr) (stats : summary)
    (flags e : Z) :
  dn <> [] ->
  exists r rest,
    (processDir w v (S fuel) dn pstr stats flags e).1 =
      EOpendir (normalized dn) r :: rest.
Proof.
  intros Hdn. cbn [processDir]. unfold processDir_body, normalized.
  destruct (last dn) as [c|] eqn:Hlast; [|apply last_None in Hlast; contradiction].
  unfold bind at 1. unfold opendir.
  destruct (w_opendir w _) as [err|d].
  - unfold bind at 1 2. unfold set_errno, emit, ret. cbn [app].
    match goal with
    | |- context [let (t2, o) := ?r in _] => destruct r as [t2 o2]
    end.
    eauto.
  - unfold bind at 1. unfold emit, ret. cbn [app].
    match goal with
    | |- context [let (t2, o) := ?r in _] => destruct r as [t2 o2]
    end.
    eauto.
Qed.

(** A call that returns was made with fuel on a path that is not empty. *)
Lemma processDir_returns_nonempty
    (w : world) (v : variant) (fuel : nat) (dn pstr : cstr) (stats : summary)
    (flags e : Z) (s : summary) (e' : Z) :
  (processDir w v fuel dn pstr stats flags e).2 = Ret s e' ->
  dn <> [] /\ exists fuel', fuel = S fuel'.
Proof.
  destruct fuel as [|fuel]; [discriminate|]. cbn [processDir].
  unfold processDir_body. intros H. split; [|eauto].
  intros ->. discriminate H.
Qed.

Section RootsBegun.

Context (w : world) (v : variant) (fuel : nat).

Lemma roots_loop_cons (flags : Z) (root : cstr) (rest : list cstr)
    (tstat : summary) (e : Z) :
  roots_loop w v fuel flags (root :: rest) tstat e =
  let summary := has_flag flags F_SUMMARY in
  let hdr := if summary then [EHeader (has_flag flags F_VERBOSE); ERule] else [] in
  match processDir w v fuel root [] summary_zero flags e with
  | (tp, Ret dstat e1) =>
      let sm := if summary
                then [ERule; ESummary (has_flag flags F_VERBOSE) dstat] else [] in
      let (trest, o) :=
        roots_loop w v fuel flags rest
          (if summary then add_summary tstat dstat else tstat) e1 in
      (hdr ++ ERoot root :: tp ++ sm ++ trest, o)
  | (tp, Exit st) => (hdr ++ ERoot root :: tp, Exit st)
  | (tp, Fault) => (hdr ++ ERoot root :: tp, Fault)
  | (tp, OutOfFuel) => (hdr ++ ERoot root :: tp, OutOfFuel)
  end.
Proof.
  cbn [roots_loop]. cbv zeta. unfold bind, when, emit, ret.
  destruct (has_flag flags F_SUMMARY); cbn [app];
    destruct (processDir w v fuel root [] summary_zero flags e)
      as [tp [dstat e1| | |]]; try reflexivity;
    destruct (roots_loop w v fuel flags rest _ e1) as [trest o];
    rewrite <- ?app_assoc; reflexivity.
Qed.

Lemma roots_loop_traversals (flags : Z) (directories : list cstr) :
  forall tstat e,
    (forall t e',
       (roots_loop w v fuel flags directories tstat e).2 = Ret t e' ->
       root_traversals (roots_loop w v fuel flags directories tstat e).1 =
         map (fun r => (r, Some (normalized r))) directories) /\
    ((0 < fuel)%nat -> Forall (fun r => r <> []) directories ->
     root_traversals (roots_loop w v fuel flags directories tstat e).1
       `prefix_of` map (fun r => (r, Some (normalized r))) directories).
Proof.
  induction directories as [|root rest IH]; intros tstat e.
  - split; [reflexivity|]. intros _ _. reflexivity.
  - rewrite roots_loop_cons. cbv zeta.
    set (hdr := if has_flag flags F_SUMMARY
                then [EHeader (has_flag flags F_VERBOSE); ERule] else []).
    assert (Hhdr : Forall (fun ev => is_root_line ev = false) hdr).
    { subst hdr. destruct (has_flag flags F_SUMMARY); repeat constructor. }
    pose proof (processDir_dir_events w v fuel root [] summary_zero flags e) as Hev.
    apply dir_event_not_root_line in Hev.
    pose proof (processDir_returns_nonempty w v fuel root [] summary_zero flags e)
      as Hret.
    assert (Hopen : (0 < fuel)%nat -> root <> [] ->
      exists r rest',
        (processDir w v fuel root [] summary_zero flags e).1 =
          EOpendir (normalized root) r :: rest').
    { intros Hfuel Hroot. destruct fuel as [|fuel']; [lia|].
      apply processDir_begins_with_opendir, Hroot. }
    assert (Hstop : forall tp,
      (processDir w v fuel root [] summary_zero flags e).1 = tp ->
      (0 < fuel)%nat -> Forall (fun r => r <> []) (root :: rest) ->
      root_traversals (hdr ++ ERoot root :: tp)
        `prefix_of` map (fun r => (r, Some (normalized r))) (root :: rest)).
    { intros tp Htp Hfuel Hne. apply Forall_cons in Hne as [Hroot _].
      destruct (Hopen Hfuel Hroot) as (r & tp' & Hrun).
      rewrite Hrun in Htp, Hev. subst tp.
      rewrite root_traversals_app by exact Hhdr.
      cbn [root_traversals map]. apply Forall_cons in Hev as [_ Hev].
      rewrite <- (app_nil_r tp'), root_traversals_app by exact Hev.
      apply prefix_cons, prefix_nil. }
    destruct (processDir w v fuel root [] summary_zero flags e)
      as [tp [dstat e1| | |]] eqn:Hp; cbn [fst snd] in *;
      try (split; [discriminate|apply Hstop; reflexivity]).
    destruct (Hret dstat e1 eq_refl) as [Hroot [fuel' Hfuel']].
    destruct (Hopen ltac:(lia) Hroot) as (r & tp' & ->).
    apply Forall_cons in Hev as [_ Hev].
    set (sm := if has_flag flags F_SUMMARY
               then [ERule; ESummary (has_flag flags F_VERBOSE) dstat] else []).
    assert (Hsm : Forall (fun ev => is_root_line ev = false) sm).
    { subst sm. destruct (has_flag flags F_SUMMARY); repeat constructor. }
    match goal with
    | |- context [roots_loop w v fuel flags rest ?t e1] =>
        specialize (IH t e1) as [IHret IHpre];
        destruct (roots_loop w v fuel flags rest t e1) as [trest o]
    end.
    cbn [fst snd] in *.
    assert (Heq : root_traversals
                    (hdr ++ ERoot root :: (EOpendir (normalized root) r :: tp') ++
                     sm ++ trest) =
                  (root, Some (normalized root)) :: root_traversals trest).
    { rewrite root_traversals_app by exact Hhdr.
      cbn [app root_traversals]. f_equal.
      rewrite root_traversals_app by exact Hev.
      apply root_traversals_app, Hsm. }
    rewrite Heq. split.
    + intros t e' Ho. cbn [map]. f_equal. eapply IHret, Ho.
    + intros Hfuel Hne. apply Forall_cons in Hne as [_ Hne].
      cbn [map]. apply prefix_cons, IHpre; [lia|exact Hne].
Qed.

Lemma main_traversals (argv : list cstr) (e : Z) :
  options_valid argv = true -> (MAX_DIR < length (roots_given argv))%nat ->
  (forall status e',
     (main w v fuel argv e).2 = Ret status e' ->
     root_traversals (main w v fuel argv e).1 =
       map (fun r => (r, Some (normalized r))) (take MAX_DIR (roots_given argv))) /\
  ((0 < fuel)%nat -> Forall (fun r => r <> []) (take MAX_DIR (roots_given argv)) ->
   root_traversals (main w v fuel argv e).1
     `prefix_of` map (fun r => (r, Some (normalized r)))
                   (take MAX_DIR (roots_given argv))).
Proof.
  intros Hvalid Hmany.
  assert (Hlen : (length (take MAX_DIR (roots_given argv)) =? 0)%nat = false).
  { apply Nat.eqb_neq. rewrite length_take. unfold MAX_DIR in *. lia. }
  assert (Hwarn : forall args t,
    root_traversals (map EWarning args ++ t) = root_traversals t).
  { intros args t. apply root_traversals_app, Forall_forall. intros ev Hev.
    apply list_elem_of_fmap in Hev as (x & -> & _). reflexivity. }
  assert (Hrun : main w v fuel argv e =
    let flags := flags_with 0 (tl argv) in
    let directories := take MAX_DIR (roots_given argv) in
    match roots_loop w v fuel flags directories summary_zero e with
    | (tl', Ret tstat e1) =>
        (map EWarning (drop MAX_DIR (roots_given argv)) ++ tl' ++
         (if has_flag flags F_SUMMARY && (1 <? length directories)%nat
          then [ETotal (length directories) (has_flag flags F_VERBOSE) tstat]
          else []),
         Ret EXIT_SUCCESS e1)
    | (tl', Exit st) => (map EWarning (drop MAX_DIR (roots_given argv)) ++ tl', Exit st)
    | (tl', Fault) => (map EWarning (drop MAX_DIR (roots_given argv)) ++ tl', Fault)
    | (tl', OutOfFuel) =>
        (map EWarning (drop MAX_DIR (roots_given argv)) ++ tl', OutOfFuel)
    end).
  { unfold main. unfold bind at 1.
    rewrite parse_args_valid by exact Hvalid.
    cbn [app length fst snd]. rewrite Nat.sub_0_r. fold (roots_given argv).
    rewrite Hlen. cbv zeta. unfold bind, when, emit, ret.
    destruct (roots_loop w v fuel _ _ _ e) as [tl' [tstat e1| | |]]; try reflexivity.
    destruct (has_flag _ F_SUMMARY && _); cbn [app]; rewrite ?app_nil_r; reflexivity. }
  rewrite Hrun. cbv zeta.
  destruct (roots_loop_traversals (flags_with 0 (tl argv))
              (take MAX_DIR (roots_given argv)) summary_zero e) as [Hret Hpre].
  destruct (roots_loop w v fuel _ _ _ e) as [tl' [tstat e1| | |]];
    cbn [fst snd] in *; rewrite Hwarn.
  - rewrite root_traversals_frame
      by (destruct (has_flag _ F_SUMMARY && _); repeat constructor).
    split; [intros status e' _; eapply Hret; reflexivity|exact Hpre].
  - split; [discriminate|exact Hpre].
  - split; [discriminate|exact Hpre].
  - split; [discriminate|exact Hpre].
Qed.

End RootsBegun.


(** ** The claims at the small file system *)

Lemma demo_streq_length (a b : cstr) : Demo.streq a b = true -> length a = length b.
Proof.
  revert b. induction a as [|x a IH]; intros [|y b]; simpl; intros H;
    try discriminate H; [reflexivity|].
  apply andb_prop in H as [_ H]. f_equal. apply IH, H.
Qed.

Lemma demo_fs_bounded : path_bounded Demo.fs 4.
Proof.
  intros path Hlen. simpl.
  destruct (Demo.streq path (lit "t/")) eqn:E1;
    [apply demo_streq_length in E1; simpl in E1; lia|].
  destruct (Demo.streq path (lit "t/b/")) eqn:E2;
    [apply demo_streq_length in E2; simpl in E2; lia|].
  destruct (Demo.streq path (lit "t/noaccess/")); eexists; reflexivity.
Qed.

Lemma C10_witness :
  nul_free (lit "|-") /\
  length (gen_tree_shape false F_TREE (lit "|-")) = 4%nat /\
  entry_prefixes_ok 0
    (processDir Demo.fs SrcFile 5 (lit "t") [] summary_zero F_TREE 0).1.
Proof.
  assert (H : nul_free (lit "|-")) by (apply nul_free_lit_checked; reflexivity).
  split; [exact H|].
  exact (C10_prefix_two_characters_per_level Demo.fs SrcFile 5 (lit "t")
           summary_zero F_TREE 0 false (lit "|-") H).
Defined.

Lemma C3_witness :
  children_rendered
    (processDir Demo.fs SrcFile 5 (lit "t") [] summary_zero F_TREE 0).1 =
  [Demo.ent_b; Demo.ent_noaccess; Demo.ent_a] /\
  StronglySorted name_le
    (filter is_dir
       (children_rendered
          (processDir Demo.fs SrcFile 5 (lit "t") [] summary_zero F_TREE 0).1)) /\
  total_comparison dirent_compare /\
  (dirent_compare Demo.ent_a Demo.ent_b = 0 -> d_name Demo.ent_a = d_name Demo.ent_b).
Proof.
  assert (Ha : nul_free (d_name Demo.ent_a)) by (apply nul_free_lit_checked; reflexivity).
  assert (Hb : nul_free (d_name Demo.ent_b)) by (apply nul_free_lit_checked; reflexivity).
  assert (Hrun : processDir Demo.fs SrcFile 5 (lit "t") [] summary_zero F_TREE 0 =
                 ((processDir Demo.fs SrcFile 5 (lit "t") [] summary_zero F_TREE 0).1,
                  Ret (mk_summary 2 3 0 0 0 8205 32) 13))
    by (vm_compute; reflexivity).
  destruct (C3_directories_first_in_name_order Demo.fs SrcFile 5 (lit "t") []
              summary_zero F_TREE 0 _ _ _ Demo.ent_a Demo.ent_b Hrun Ha Hb)
    as ((_ & Hdirs & _) & Htotal & Hnames).
  split; [vm_compute; reflexivity|].
  split; [exact Hdirs|]. split; [exact Htotal|exact Hnames].
Defined.

Lemma C5_witness :
  length (name_field 5 (lit "| `-" ++ Demo.long_name)) = 54%nat /\
  name_field 5 (lit "| `-" ++ Demo.long_name) =
    lit "| `-" ++ replicate 47 "x"%char ++ lit "...".
Proof.
  assert (Hv : has_flag 5 F_VERBOSE = true) by reflexivity.
  assert (Hin : (lit "| `-" ++ Demo.long_name,
                 name_field 5 (lit "| `-" ++ Demo.long_name))
                ∈ entry_lines (processDir Demo.fs SrcFile 5 (lit "t") []
                                 summary_zero 5 0).1).
  { vm_compute. do 2 right. left. }
  destruct (C5_verbose_name_column Demo.fs SrcFile 5 (lit "t") [] summary_zero
              5 0 _ _ Hv Hin) as (Hwidth & Hlong & _).
  split; [exact Hwidth|]. rewrite Hlong by (vm_compute; lia). reflexivity.
Defined.

Lemma C6_witness :
  (processDir Demo.fs RootFile 5 (lit "t") [] summary_zero F_TREE 0).2 = Fault /\
  enumerated (processDir Demo.fs RootFile 5 (lit "t") [] summary_zero F_TREE 0).1 =
    [Demo.ent_noaccess; Demo.ent_a; Demo.ent_b; Demo.ent_long; Demo.ent_c] /\
  rendered (processDir Demo.fs RootFile 5 (lit "t") [] summary_zero F_TREE 0).1 =
    [Demo.ent_b; Demo.ent_c; Demo.ent_long; Demo.ent_noaccess].
Proof.
  destruct (C6_root_file_gives_up_the_listing Demo.fs 5 (lit "t") [] summary_zero
              F_TREE 0
              (take 26 (processDir Demo.fs RootFile 5 (lit "t") [] summary_zero
                          F_TREE 0).1)
              [EErrorLine (lit "| `-") (lit "ERROR: Permission denied")]
              (lit "t/noaccess/") 13%positive
              ltac:(vm_compute; reflexivity) ltac:(discriminate))
    as (_ & Hfault & Hrendered).
  split; [exact Hfault|]. split; [vm_compute; reflexivity|].
  rewrite Hrendered. vm_compute. reflexivity.
Defined.

Lemma C7_witness :
  summary_in_range summary_zero /\
  counter Regular (update_stats summary_zero (Demo.st_file 10 8)) = Some 1 /\
  size (update_stats summary_zero (Demo.st_file 10 8)) = 10 /\
  blocks (update_stats summary_zero (Demo.st_file 10 8)) = 8.
Proof.
  assert (H : summary_in_range summary_zero)
    by (unfold summary_in_range; simpl; lia).
  split; [exact H|].
  exact (C7_update_stats_counts_one_kind summary_zero (Demo.st_file 10 8) Regular H).
Defined.

Lemma C8_witness :
  grand_totals (main Demo.fs SrcFile 5 (Demo.command_line [lit "-s"] 2) 0).1 =
  [mk_summary 4 6 0 0 0 16410 64].
Proof.
  rewrite (C8_grand_total_is_sum_of_summaries Demo.fs SrcFile 5
             (Demo.command_line [lit "-s"] 2) 0 eq_refl).
  vm_compute. reflexivity.
Defined.


(** * Further properties *)

(** ** The parts of a run, case by case *)

Section Cases.

Context (w : world) {St : Type} (step : St -> event -> option St).

Lemma safe_one {A} (s s' : St) (ev : event) (o : outcome A)
    (Q : outcome A -> St -> Prop) :
  step s ev = Some s' -> Q o s' -> safe step s ([ev], o) Q.
Proof. unfold safe. simpl. intros ->. tauto. Qed.

Lemma safe_print_errno_cases (s : St) (pstr : cstr) (flags e : Z)
    (Q : outcome unit -> St -> Prop) :
  (forall msg,
     safe step s ([EErrorLine (gen_tree_shape true flags pstr) msg], Ret tt e) Q) ->
  safe step s ([EStderr (lit "Out of memory." ++ [newline])], Exit EXIT_FAILURE) Q ->
  safe step s ([EErrorCode e; EStderr (lit "quit process" ++ [newline])],
               Exit EXIT_FAILURE) Q ->
  safe step s (print_errno pstr flags e) Q.
Proof.
  intros Hline Hmem Hquit.
  destruct (print_errno_cases pstr flags e) as [[msg ->]|[->| ->]];
    [apply Hline|exact Hmem|exact Hquit].
Qed.

Lemma print_verbose_cases (st : stat) (e : Z) :
  (exists user group,
     w_getpwuid w (st_uid st) = Some user /\ w_getgrgid w (st_gid st) = Some group /\
     print_verbose w st e =
       ([EVerbose user group (st_size st) (st_blocks st) (type_char (st_mode st))],
        Ret tt (errno_after_names w st e))) \/
  ((w_getpwuid w (st_uid st) = None \/ w_getgrgid w (st_gid st) = None) /\
   print_verbose w st e =
     ([EStderr ((newline :: lit "Error on getpwuid /getgrgid.") ++ [newline])],
      Exit EXIT_FAILURE)).
Proof.
  rewrite print_verbose_run.
  destruct (w_getpwuid w (st_uid st)) as [user|], (w_getgrgid w (st_gid st)) as [group|];
    [left; eauto|right; split; [auto|reflexivity]..].
Qed.

Lemma safe_print_verbose_cases (s : St) (st : stat) (e : Z)
    (Q : outcome unit -> St -> Prop) :
  (forall user group,
     w_getpwuid w (st_uid st) = Some user -> w_getgrgid w (st_gid st) = Some group ->
     safe step s
       ([EVerbose user group (st_size st) (st_blocks st) (type_char (st_mode st))],
        Ret tt (errno_after_names w st e)) Q) ->
  safe step s
    ([EStderr ((newline :: lit "Error on getpwuid /getgrgid.") ++ [newline])],
     Exit EXIT_FAILURE) Q ->
  safe step s (print_verbose w st e) Q.
Proof.
  intros Hok Hfail.
  destruct (print_verbose_cases st e) as [(user & group & Hu & Hg & ->)|[_ ->]];
    [apply Hok; assumption|exact Hfail].
Qed.

End Cases.

(** ** Machines that pass over the messages *)

Section Messages.

Context (w : world) {St : Type} (step : St -> event -> option St).

Lemma safe_print_errno_message (s : St) (pstr : cstr) (flags e : Z)
    (Q : outcome unit -> St -> Prop) :
  (forall ev, is_message ev = true -> step s ev = Some s) ->
  Q (Ret tt e) s -> Q (Exit EXIT_FAILURE) s ->
  safe step s (print_errno pstr flags e) Q.
Proof.
  intros Hm HR HE. apply safe_print_errno_cases; [intros msg|..];
    unfold safe; cbn [fst snd scan]; rewrite ?Hm by reflexivity; assumption.
Qed.

Lemma safe_print_verbose_message (s : St) (st : stat) (e : Z)
    (Q : outcome unit -> St -> Prop) :
  (forall ev, is_message ev = true -> step s ev = Some s) ->
  Q (Ret tt (errno_after_names w st e)) s -> Q (Exit EXIT_FAILURE) s ->
  safe step s (print_verbose w st e) Q.
Proof.
  intros Hm HR HE. apply safe_print_verbose_cases; [intros user group _ _|];
    unfold safe; cbn [fst snd scan]; rewrite ?Hm by reflexivity; assumption.
Qed.

Lemma scan_listing_unchanged (s : St) (pend : list dirent) (fin : Z) :
  (forall r, step s (EReaddir r) = Some s) ->
  (forall e, step s (EPerror e) = Some s) ->
  scan step s (listing_trace pend fin) = Some s.
Proof.
  intros Hr Hp. unfold listing_trace. rewrite scan_app.
  assert (H : scan step s (map (fun ent => EReaddir (inl ent)) pend) = Some s).
  { induction pend as [|x l IH]; simpl; [reflexivity|]. rewrite Hr. exact IH. }
  rewrite H. simpl. rewrite Hr. destruct (fin =? 0); simpl; rewrite ?Hp; reflexivity.
Qed.

End Messages.

(** ** Equations of runs *)

Lemma bind_run {A B} (m : M A) (f : A -> M B) (e : Z) (t : list event) (a : A)
    (e' : Z) :
  m e = (t, Ret a e') -> bind m f e = let (t2, o) := f a e' in (t ++ t2, o).
Proof. unfold bind. intros ->. reflexivity. Qed.

Lemma flags_with_app (flags : Z) (a b : list cstr) :
  flags_with flags (a ++ b) = flags_with (flags_with flags a) b.
Proof. unfold flags_with. apply foldl_app. Qed.

(** X20: on a command line of valid options and no path, [main] runs
    as if the path "." had been given last. *)
Theorem main_default_root
    (w : world) (v : variant) (fuel : nat) (argv0 : cstr) (args : list cstr)
    (errno : Z) :
  valid_args args = true -> positionals args = [] ->
  main w v fuel (argv0 :: args) errno =
  main w v fuel (argv0 :: args ++ [lit "."]) errno.
Proof.
  intros Hvalid Hnone.
  assert (Hvalid' : valid_args (args ++ [lit "."]) = true).
  { unfold valid_args in *. rewrite forallb_app, Hvalid. reflexivity. }
  assert (H1 : parse_args argv0 args 0 [] errno =
               ([], Ret (flags_with 0 args, []) errno)).
  { rewrite parse_args_valid by exact Hvalid. rewrite Hnone. reflexivity. }
  assert (H2 : parse_args argv0 (args ++ [lit "."]) 0 [] errno =
               ([], Ret (flags_with 0 args, [lit "."]) errno)).
  { rewrite parse_args_valid by exact Hvalid'.
    unfold positionals in *. rewrite List.filter_app, Hnone, flags_with_app.
    unfold flags_with at 1. cbn [foldl].
    change (flag_of (lit ".")) with 0. rewrite Z.lor_0_r. reflexivity. }
  unfold main. cbn [hd tl].
  rewrite (bind_run _ _ _ _ _ _ H1), (bind_run _ _ _ _ _ _ H2). reflexivity.
Qed.

Lemma bind_ret_r {A} (m : M A) (e : Z) : bind m ret e = m e.
Proof.
  unfold bind, ret. destruct (m e) as [t [a e1| | |]]; [|reflexivity..].
  rewrite app_nil_r. reflexivity.
Qed.

Lemma normalized_slash (p : cstr) : normalized (p ++ lit "/") = p ++ lit "/".
Proof.
  unfold normalized. change (lit "/") with ["/"%char]. rewrite last_snoc. reflexivity.
Qed.

Lemma normalized_prefix (dn : cstr) : dn `prefix_of` normalized dn.
Proof.
  unfold normalized. destruct (last dn) as [c|]; [|reflexivity].
  destruct (Ascii.eqb c "/"); [reflexivity|]. apply prefix_app_r. reflexivity.
Qed.

(** The run of the body of [processDir] on a directory that is opened. *)
Lemma processDir_body_opened (w : world) (v : variant) recurse
    (dn pstr : cstr) (stats : summary) (flags e : Z) (d : DIR) :
  dn <> [] ->
  w_opendir w (normalized dn) = inr d ->
  processDir_body w v recurse dn pstr stats flags e =
  let (t, o) :=
    (e0 <- get_errno ;;
     when (negb (e0 =? 0)) (print_errno pstr flags) ;;
     r <- getNext w (Some d) ;;
     dirents <- read_dirents w (stream_length (Some d)) (snd r) (fst r) [] ;;
     let dirents := qsort dirents in
     stats <- entries_loop w recurse (normalized dn) pstr flags
                (length dirents) 0 dirents stats ;;
     closedir ;;
     ret stats) e in
  (EOpendir (normalized dn) None :: t, o).
Proof.
  intros Hdn Hopen. unfold processDir_body, normalized in *.
  destruct (last dn) as [c|] eqn:Hlast; [|apply last_None in Hlast; contradiction].
  unfold bind at 1. unfold opendir. rewrite Hopen. reflexivity.
Qed.

(** ** getNext *)

Lemma is_dot_names (d : dirent) :
  d_name d = lit "." \/ d_name d = lit ".." -> is_dot d = true.
Proof. intros [H|H]; unfold is_dot; rewrite H; reflexivity. Qed.

Lemma is_dot_other (d : dirent) :
  nul_free (d_name d) -> d_name d <> lit "." -> d_name d <> lit ".." ->
  is_dot d = false.
Proof.
  intros Hn H1 H2. unfold is_dot.
  apply orb_false_intro; apply Z.eqb_neq; intros H; [apply H1|apply H2];
    (apply strcmp_eq; [exact Hn|apply nul_free_lit_checked; reflexivity|exact H]).
Qed.

Lemma getNext_from_errno (w : world) (pend : list dirent) (fin e : Z) :
  getNext_from w pend fin e = getNext_from w pend fin 0.
Proof.
  destruct pend; [rewrite !getNext_from_nil|rewrite !getNext_from_cons]; reflexivity.
Qed.

Lemma getNext_from_dots (w : world) (dots pend : list dirent) (fin e : Z) :
  Forall (fun d => is_dot d = true) dots ->
  getNext_from w (dots ++ pend) fin e =
  let (t, o) := getNext_from w pend fin 0 in
  (map (fun d => EReaddir (inl d)) dots ++ t, o).
Proof.
  intros Hdots. revert e. induction Hdots as [|d dots Hd _ IH]; intros e.
  - cbn [app map]. rewrite getNext_from_errno. destruct (getNext_from w pend fin 0). reflexivity.
  - cbn [app map]. rewrite getNext_from_cons, Hd, IH.
    destruct (getNext_from w pend fin 0). reflexivity.
Qed.

(** X1: [getNext] passes over the entries named "." and ".." and returns
    the first entry of another name, with [errno] cleared, leaving the rest
    of the stream to the next call; entries whose names only start with a
    dot are returned. When nothing but "." and ".." is left it returns
    NULL; [errno] is then [0] at the end of the directory, and after a read
    error what [perror], called with the error, has left of it. What
    [errno] held at the call plays no part. *)
Theorem getNext_skips_dot_entries
    (w : world) (dots : list dirent) (ent : dirent) (rest : list dirent)
    (fin errno : Z) :
  Forall (fun d => d_name d = lit "." \/ d_name d = lit "..") dots ->
  nul_free (d_name ent) -> d_name ent <> lit "." -> d_name ent <> lit ".." ->
  getNext w (Some (mk_DIR (dots ++ ent :: rest) fin)) errno =
    (map (fun d => EReaddir (inl d)) (dots ++ [ent]),
     Ret (Some ent, Some (mk_DIR rest fin)) 0) /\
  getNext w (Some (mk_DIR dots fin)) errno =
    (map (fun d => EReaddir (inl d)) dots ++
       EReaddir (inr fin) :: (if fin =? 0 then [] else [EPerror fin]),
     Ret (None, Some (mk_DIR [] fin))
         (if fin =? 0 then 0 else w_perror_errno w fin)).
Proof.
  intros Hdots Hnul H1 H2.
  assert (Hd : Forall (fun d => is_dot d = true) dots).
  { eapply Forall_impl; [exact Hdots|]. intros d. apply is_dot_names. }
  pose proof (is_dot_other ent Hnul H1 H2) as Hent.
  split.
  - unfold getNext, bind. cbn [pending final_errno].
    rewrite getNext_from_dots by exact Hd.
    rewrite getNext_from_cons, Hent. cbn. rewrite map_app, app_nil_r. reflexivity.
  - unfold getNext, bind. cbn [pending final_errno].
    rewrite <- (app_nil_r dots) at 1.
    rewrite getNext_from_dots by exact Hd.
    rewrite getNext_from_nil. cbn. rewrite app_nil_r. reflexivity.
Qed.

Lemma getNext_skips_dot_entries_witness :
  getNext piped_stderr
    (Some (mk_DIR [Demo.dot; Demo.dotdot; Demo.ent_a; Demo.ent_b] 5)) 13 =
    ([EReaddir (inl Demo.dot); EReaddir (inl Demo.dotdot); EReaddir (inl Demo.ent_a)],
     Ret (Some Demo.ent_a, Some (mk_DIR [Demo.ent_b] 5)) 0) /\
  getNext piped_stderr (Some (mk_DIR [Demo.dot; Demo.dotdot] 5)) 13 =
    ([EReaddir (inl Demo.dot); EReaddir (inl Demo.dotdot); EReaddir (inr 5);
      EPerror 5],
     Ret (None, Some (mk_DIR [] 5)) EINVAL).
Proof.
  exact (getNext_skips_dot_entries piped_stderr [Demo.dot; Demo.dotdot] Demo.ent_a
           [Demo.ent_b] _ _
           ltac:(repeat constructor; (left; reflexivity) || (right; reflexivity))
           ltac:(apply nul_free_lit_checked; reflexivity)
           ltac:(discriminate) ltac:(discriminate)).
Defined.

(** ** Reading a directory to its end *)

(** X2: the two steps by which [processDir] reads a directory, a first
    [getNext] and the loop that stores an entry and calls [getNext] again,
    end on every stream within as many turns as the stream has entries.
    They call [readdir] to the end of the stream and collect the entries
    other than "." and "..", in the order [readdir] delivered them. [errno]
    is then [0] when the directory was read to its end, and after a read
    error what [perror], called with the error, has left of it. *)
Theorem read_loop_delivers_entries (w : world) (pend : list dirent) (fin errno : Z) :
  (r <- getNext w (Some (mk_DIR pend fin)) ;;
   read_dirents w (stream_length (Some (mk_DIR pend fin))) (snd r) (fst r) []) errno =
  (listing_trace pend fin,
   Ret (List.filter (fun ent => negb (is_dot ent)) pend)
       (if fin =? 0 then 0 else w_perror_errno w fin)).
Proof.
  pose proof (read_directory w pend fin (length pend) [] ret errno
                ltac:(reflexivity)) as H.
  unfold ret at 2 in H. rewrite app_nil_r in H. cbn [app] in H.
  etransitivity; [|exact H].
  unfold bind at 1 2. cbn [stream_length pending].
  destruct (getNext w (Some (mk_DIR pend fin)) errno) as [t [r e1| | |]];
    [|reflexivity..].
  rewrite bind_ret_r. reflexivity.
Qed.

(** ** A directory that cannot be opened, for another reason *)

Lemma print_errno_unknown (pstr : cstr) (flags e : Z) :
  open_error_text e = None ->
  print_errno pstr flags e =
  (if e =? ENOMEM then [EStderr (lit "Out of memory." ++ [newline])]
   else [EErrorCode e; EStderr (lit "quit process" ++ [newline])],
   Exit EXIT_FAILURE).
Proof.
  unfold open_error_text, print_errno, bind, get_errno. intros H.
  destruct (e =? EACCES); [discriminate H|].
  destruct (e =? ENOENT); [discriminate H|].
  destruct (e =? ENOTDIR); [discriminate H|].
  destruct (e =? ENOMEM); reflexivity.
Qed.

(** X3, for both files: when [opendir] fails with an error other than
    EACCES, ENOENT and ENOTDIR, [processDir] ends the whole process with
    [EXIT_FAILURE]: after "Out of memory." on standard error for ENOMEM,
    and otherwise after the line "ERROR: error code" with the number and
    "quit process" on standard error. *)
Theorem processDir_unknown_error_exits
    (w : world) (v : variant) (fuel : nat) (dn pstr : cstr) (stats : summary)
    (flags errno : Z) (err : positive) :
  dn <> [] ->
  w_opendir w (normalized dn) = inl err ->
  open_error_text (Z.pos err) = None ->
  processDir w v (S fuel) dn pstr stats flags errno =
  (EOpendir (normalized dn) (Some err) ::
     (if Z.pos err =? ENOMEM then [EStderr (lit "Out of memory." ++ [newline])]
      else [EErrorCode (Z.pos err); EStderr (lit "quit process" ++ [newline])]),
   Exit EXIT_FAILURE).
Proof.
  intros Hdn Hopen Hmsg. simpl. unfold processDir_body, normalized in *.
  destruct (last dn) as [c|] eqn:Hlast; [|apply last_None in Hlast; contradiction].
  unfold bind at 1. unfold opendir. rewrite Hopen.
  unfold bind at 1 2 3. unfold set_errno, emit, ret. cbn [app].
  destruct (checks_handle v).
  - unfold bind. rewrite print_errno_unknown by exact Hmsg. reflexivity.
  - unfold bind at 1. unfold get_errno. unfold bind at 1. unfold when.
    cbn [negb Z.eqb]. rewrite print_errno_unknown by exact Hmsg. reflexivity.
Qed.

Lemma processDir_unknown_error_exits_witness :
  processDir full_table RootFile 1 (lit "t") [] summary_zero 0 0 =
  ([EOpendir (lit "t/") (Some 24%positive); EErrorCode EMFILE;
    EStderr (lit "quit process" ++ [newline])],
   Exit EXIT_FAILURE).
Proof.
  exact (processDir_unknown_error_exits full_table RootFile 0 (lit "t") []
           summary_zero 0 0 24%positive ltac:(discriminate) eq_refl eq_refl).
Defined.

(** ** A value of errno left by an earlier call *)

Lemma getNext_errno (w : world) (d : DIR) (e : Z) :
  getNext w (Some d) e = getNext w (Some d) 0.
Proof. unfold getNext, bind. rewrite getNext_from_errno. reflexivity. Qed.

Lemma bind_getNext_errno {A} (w : world) (d : DIR)
    (f : option dirent * option DIR -> M A) (e : Z) :
  bind (getNext w (Some d)) f e = bind (getNext w (Some d)) f 0.
Proof. unfold bind. rewrite getNext_errno. reflexivity. Qed.

Lemma errno_check_stale {A} (pstr : cstr) (flags e : Z) (msg : cstr) (K : M A) :
  open_error_text e = Some msg ->
  (e0 <- get_errno ;; when (negb (e0 =? 0)) (print_errno pstr flags) ;; K) e =
  let (t, o) := K e in (EErrorLine (gen_tree_shape true flags pstr) msg :: t, o).
Proof.
  intros Hmsg.
  apply print_errno_known with (pstr := pstr) (flags := flags) in Hmsg as [Hprint Hne].
  unfold bind at 1. unfold get_errno. cbn [app].
  apply Z.eqb_neq in Hne. rewrite Hne. cbn [negb when].
  unfold bind. rewrite Hprint. destruct (K e) as [t o]. reflexivity.
Qed.

Lemma errno_check_clear {A} (pstr : cstr) (flags : Z) (K : M A) :
  (e0 <- get_errno ;; when (negb (e0 =? 0)) (print_errno pstr flags) ;; K) 0 = K 0.
Proof.
  unfold bind, get_errno, when, ret. cbn. destruct (K 0) as [t o]. reflexivity.
Qed.

(** X4, for both files: [opendir] leaves [errno] as it is when it
    succeeds, and [processDir] tests [errno] after it. Called while [errno]
    still holds EACCES, ENOENT or ENOTDIR from an earlier call, on a
    directory that is opened, [processDir] writes the error line of that
    value for the directory, and then runs exactly as it does with [errno]
    clear. *)
Theorem processDir_stale_errno_line
    (w : world) (v : variant) (fuel : nat) (dn pstr : cstr) (stats : summary)
    (flags errno : Z) (d : DIR) (msg : cstr) :
  dn <> [] ->
  w_opendir w (normalized dn) = inr d ->
  open_error_text errno = Some msg ->
  processDir w v (S fuel) dn pstr stats flags errno =
  (EOpendir (normalized dn) None ::
   EErrorLine (gen_tree_shape true flags pstr) msg ::
   tl (processDir w v (S fuel) dn pstr stats flags 0).1,
   (processDir w v (S fuel) dn pstr stats flags 0).2).
Proof.
  intros Hdn Hopen Hmsg. cbn [processDir].
  rewrite !(processDir_body_opened w v _ dn pstr stats flags _ d Hdn Hopen).
  rewrite (errno_check_stale pstr flags errno msg _ Hmsg), errno_check_clear.
  rewrite (bind_getNext_errno w d _ errno).
  match goal with
  | |- context [bind ?m ?f 0] => destruct (bind m f 0) as [t o]
  end.
  reflexivity.
Qed.

Lemma processDir_stale_errno_line_witness :
  processDir Demo.fs SrcFile 2 (lit "t/b") (lit "|-") summary_zero F_TREE EACCES =
  (EOpendir (lit "t/b/") None ::
   EErrorLine (lit "| `-") (lit "ERROR: Permission denied") ::
   tl (processDir Demo.fs SrcFile 2 (lit "t/b") (lit "|-") summary_zero F_TREE 0).1,
   Ret (mk_summary 0 2 0 0 0 3 8) 0).
Proof.
  exact (processDir_stale_errno_line Demo.fs SrcFile 1 (lit "t/b") (lit "|-")
           summary_zero F_TREE EACCES _ (lit "ERROR: Permission denied")
           ltac:(discriminate) eq_refl eq_refl).
Defined.

(** ** After a directory that cannot be opened *)

(** X5, for the file [src/dirtree.c]: when the entry at hand is a
    directory that cannot be opened for one of the three conditions (and
    its owner and group have names), the loop over the entries writes the
    line of the entry, counts the entry in the summary, writes the error
    line below it with the prefix of a last child, and goes on with the
    next entry, [errno] holding the error. *)
Theorem entries_loop_continues_after_unreadable
    (w : world) (fuel : nat) (new_dn pstr : cstr) (flags : Z) (num i : nat)
    (ent : dirent) (rest : list dirent) (stats : summary) (errno : Z)
    (user group : cstr) (err : positive) (msg : cstr) :
  let path := new_dn ++ d_name ent in
  let st := (w_lstat w path).2 in
  let next := gen_tree_shape (i =? num - 1)%nat flags pstr in
  S_ISDIR (st_mode st) = true ->
  w_getpwuid w (st_uid st) = Some user ->
  w_getgrgid w (st_gid st) = Some group ->
  w_opendir w (path ++ lit "/") = inl err ->
  open_error_text (Z.pos err) = Some msg ->
  entries_loop w (processDir w SrcFile (S fuel)) new_dn pstr flags num i
    (ent :: rest) stats errno =
  let (t, o) :=
    entries_loop w (processDir w SrcFile (S fuel)) new_dn pstr flags num (S i)
      rest (update_stats stats st) (Z.pos err) in
  ([ELstat path (w_lstat w path).1;
    EEntry next ent (name_field flags (next ++ d_name ent))] ++
   (if has_flag flags F_VERBOSE
    then [EVerbose user group (st_size st) (st_blocks st) (type_char (st_mode st))]
    else []) ++
   [ENewline; EOpendir (path ++ lit "/") (Some err);
    EErrorLine (gen_tree_shape true flags next) msg] ++ t, o).
Proof.
  intros path st next Hdir Hu Hg Hopen Hmsg.
  assert (Hrun : forall e,
    processDir w SrcFile (S fuel) (path ++ lit "/") next
      (update_stats stats st) flags e =
    ([EOpendir (path ++ lit "/") (Some err);
      EErrorLine (gen_tree_shape true flags next) msg],
     Ret (update_stats stats st) (Z.pos err))).
  { intros e.
    rewrite <- (normalized_slash path) at 2.
    apply processDir_open_failure_recovered.
    - destruct path; discriminate.
    - rewrite normalized_slash. exact Hopen.
    - exact Hmsg. }
  assert (Hdetails : forall e,
    when (has_flag flags F_VERBOSE) (print_verbose w st) e =
    (if has_flag flags F_VERBOSE
     then [EVerbose user group (st_size st) (st_blocks st) (type_char (st_mode st))]
     else [],
     Ret tt (if has_flag flags F_VERBOSE then errno_after_names w st e else e))).
  { intros e. unfold when.
    destruct (has_flag flags F_VERBOSE); [|reflexivity].
    rewrite print_verbose_run, Hu, Hg. reflexivity. }
  cbn [entries_loop].
  rewrite (bind_run _ _ _ _ _ _ (lstat_run w path errno)).
  rewrite (bind_run (emit _) _ _ [_] tt _ eq_refl).
  fold st. rewrite (bind_run _ _ _ _ _ _ (Hdetails _)).
  rewrite (bind_run (emit _) _ _ [_] tt _ eq_refl).
  rewrite Hdir. fold path. fold next.
  rewrite (bind_run _ _ _ _ _ _ (Hrun _)).
  match goal with
  | |- context [entries_loop ?a ?b ?c ?d ?e ?f ?g ?h ?i ?j] =>
      destruct (entries_loop a b c d e f g h i j) as [t o]
  end.
  rewrite <- ?app_assoc. reflexivity.
Qed.

Lemma entries_loop_continues_after_unreadable_witness :
  entries_loop Demo.fs (processDir Demo.fs SrcFile 1) (lit "t/") [] F_TREE 3 1
    [Demo.ent_noaccess; Demo.ent_a] summary_zero 0 =
  ([ELstat (lit "t/noaccess") 0;
    EEntry (lit "|-") Demo.ent_noaccess (name_field F_TREE (lit "|-noaccess"));
    ENewline;
    EOpendir (lit "t/noaccess/") (Some 13%positive);
    EErrorLine (lit "| `-") (lit "ERROR: Permission denied");
    ELstat (lit "t/a.txt") 0;
    EEntry (lit "`-") Demo.ent_a (name_field F_TREE (lit "`-a.txt"));
    ENewline],
   Ret (mk_summary 1 1 0 0 0 4106 16) 13).
Proof.
  rewrite (entries_loop_continues_after_unreadable Demo.fs 0 (lit "t/") [] F_TREE
             3 1 Demo.ent_noaccess [Demo.ent_a] summary_zero 0
             (lit "root") (lit "root") 13%positive (lit "ERROR: Permission denied")
             eq_refl eq_refl eq_refl eq_refl eq_refl).
  vm_compute. reflexivity.
Defined.

(** ** The shape of the prefixes *)

Lemma cells_ok_app (a b : cstr) :
  cells_ok a = true -> cells_ok (a ++ b) = cells_ok b.
Proof.
  remember (length a) as n eqn:Hn. revert a Hn.
  induction n as [n IH] using lt_wf_ind. intros a Hn Ha.
  destruct a as [|x [|y a]]; simpl in *; [reflexivity|discriminate|].
  apply andb_prop in Ha as [Hxy Ha]. rewrite Hxy. simpl.
  apply (IH (length a)); [lia|reflexivity|exact Ha].
Qed.

Lemma cells_ok_nul_free (p : cstr) : cells_ok p = true -> nul_free p.
Proof.
  remember (length p) as n eqn:Hn. revert p Hn.
  induction n as [n IH] using lt_wf_ind. intros p Hn Hp.
  destruct p as [|x [|y p]]; simpl in *; [constructor|discriminate|].
  apply andb_prop in Hp as [Hxy Hp]. apply andb_prop in Hxy as [Hx Hy].
  apply Ascii.eqb_eq in Hy. subst y.
  constructor; [|constructor; [discriminate|]].
  - apply orb_prop in Hx as [Hx|Hx]; apply Ascii.eqb_eq in Hx; subst x; discriminate.
  - apply (IH (length p)); [lia|reflexivity|exact Hp].
Qed.

Lemma tree_prefix_intro (front : cstr) (g c : ascii) :
  cells_ok front = true -> branch_ok [g; c] = true ->
  tree_prefix (front ++ [g; c]) = true.
Proof.
  intros Hf Hb. unfold tree_prefix. rewrite length_app. simpl length.
  replace (length front + 2 - 2)%nat with (length front) by lia.
  rewrite take_app_length, drop_app_length, Hf. exact Hb.
Qed.

Lemma tree_prefix_elim (p : cstr) :
  tree_prefix p = true ->
  exists front g, p = front ++ [g; connector] /\ cells_ok front = true /\
                  (g = continuation \/ g = corner).
Proof.
  unfold tree_prefix. intros H. apply andb_prop in H as [Hf Hb].
  exists (take (length p - 2) p).
  destruct (drop (length p - 2) p) as [|g [|c [|x l]]] eqn:Hdrop; try discriminate Hb.
  simpl in Hb. apply andb_prop in Hb as [Hg Hc]. apply Ascii.eqb_eq in Hc. subst c.
  exists g. split; [|split; [exact Hf|]].
  - rewrite <- Hdrop. symmetry. apply take_drop.
  - apply orb_prop in Hg as [Hg|Hg]; apply Ascii.eqb_eq in Hg; auto.
Qed.

Lemma blank_prefix_nul_free (p : cstr) : blank_prefix p = true -> nul_free p.
Proof.
  unfold blank_prefix, nul_free. induction p as [|c p IH]; simpl; intros H.
  - constructor.
  - apply andb_prop in H as [Hc Hp]. apply Ascii.eqb_eq in Hc. subst c.
    constructor; [discriminate|auto].
Qed.

Lemma ancestor_prefix_nul_free (flags : Z) (pstr : cstr) :
  ancestor_prefix flags pstr -> nul_free pstr.
Proof.
  intros [->|H]; [constructor|]. unfold prefix_shape in H.
  destruct (has_flag flags F_TREE).
  - apply tree_prefix_elim in H as (front & g & -> & Hf & Hg).
    apply nul_free_app; [apply cells_ok_nul_free, Hf|].
    repeat constructor; [|discriminate].
    destruct Hg as [-> | ->]; discriminate.
  - apply blank_prefix_nul_free, H.
Qed.

(** The prefix [gen_tree_shape] builds from the prefix of a line, or from
    the empty prefix, has the shape of the mode. *)
Lemma gen_tree_shape_shaped (is_last : bool) (flags : Z) (pstr : cstr) :
  ancestor_prefix flags pstr ->
  prefix_shape flags (gen_tree_shape is_last flags pstr) = true.
Proof.
  intros Hp. pose proof (ancestor_prefix_nul_free flags pstr Hp) as Hnul.
  unfold ancestor_prefix, prefix_shape in *.
  destruct (has_flag flags F_TREE) eqn:Hflag.
  - rewrite gen_tree_shape_tree by assumption.
    destruct Hp as [->|Hp]; [destruct is_last; reflexivity|].
    apply tree_prefix_elim in Hp as (front & g & -> & Hf & Hg).
    rewrite blank_ancestor_two.
    apply tree_prefix_intro; [|destruct is_last; reflexivity].
    rewrite cells_ok_app by exact Hf.
    destruct Hg as [-> | ->]; reflexivity.
  - rewrite gen_tree_shape_plain by assumption.
    unfold blank_prefix. rewrite forallb_app.
    destruct Hp as [->|Hp]; [reflexivity|].
    unfold blank_prefix in Hp. rewrite Hp. reflexivity.
Qed.

Lemma shaped_listing (flags : Z) (pend : list dirent) (fin : Z) :
  scan (check_step (shaped_event flags)) tt (listing_trace pend fin) = Some tt.
Proof.
  apply scan_check. unfold listing_trace. apply Forall_app. split.
  - apply Forall_forall. intros ev Hev. apply list_elem_of_fmap in Hev as (x & -> & _).
    exact I.
  - destruct (fin =? 0); repeat constructor.
Qed.

Section Shape.

Context (w : world) (v : variant).

Lemma print_errno_shaped (pstr : cstr) (flags e : Z)
    (Q : outcome unit -> unit -> Prop) :
  ancestor_prefix flags pstr ->
  Q (Ret tt e) tt -> Q (Exit EXIT_FAILURE) tt ->
  safe (check_step (shaped_event flags)) tt (print_errno pstr flags e) Q.
Proof.
  intros Hp HR HE.
  pose proof (gen_tree_shape_shaped true flags pstr Hp) as Hshape.
  apply safe_print_errno_cases; [intros msg|..]; unfold safe; cbn [fst snd scan];
    rewrite ?check_step_holds by (simpl; auto); assumption.
Qed.

Lemma print_verbose_shaped (st : stat) (flags e : Z)
    (Q : outcome unit -> unit -> Prop) :
  Q (Ret tt (errno_after_names w st e)) tt -> Q (Exit EXIT_FAILURE) tt ->
  safe (check_step (shaped_event flags)) tt (print_verbose w st e) Q.
Proof.
  intros HR HE.
  apply safe_print_verbose_cases; [intros user group _ _|]; unfold safe;
    cbn [fst snd scan]; rewrite ?check_step_holds by (simpl; auto); assumption.
Qed.

Lemma entries_loop_shape recurse :
  keeps_shape recurse ->
  forall l new_dn pstr flags num i stats e,
    ancestor_prefix flags pstr ->
    safe (check_step (shaped_event flags)) tt
      (entries_loop w recurse new_dn pstr flags num i l stats e)
      (fun _ _ => True).
Proof.
  intros Hrec l. induction l as [|ent rest IH];
    intros new_dn pstr flags num i stats e Hp; simpl.
  - run_step. exact I.
  - pose proof (gen_tree_shape_shaped (i =? num - 1)%nat flags pstr Hp) as Hnext.
    assert (Hsub : forall stats' e',
      safe (check_step (shaped_event flags)) tt
        ((stats1 <- (if S_ISDIR (st_mode (w_lstat w (new_dn ++ d_name ent)).2)
                     then recurse ((new_dn ++ d_name ent) ++ lit "/")
                            (gen_tree_shape (i =? num - 1)%nat flags pstr) stats' flags
                     else ret stats') ;;
          entries_loop w recurse new_dn pstr flags num (S i) rest stats1) e')
        (fun _ _ => True)).
    { intros stats' e'. run_step. destruct (S_ISDIR _).
      - eapply safe_mono; [apply Hrec; right; exact Hnext|].
        intros [s1 e1| | |] [] _; try exact I. apply IH, Hp.
      - run_step. apply IH, Hp. }
    run_step. eapply safe_lstat; [apply check_step_holds; exact I|].
    run_step. eapply safe_emit; [apply check_step_holds; exact Hnext|].
    run_step. apply safe_when; intros _.
    + apply print_verbose_shaped; [|exact I].
      run_step. emit_checked. apply Hsub.
    + run_step. emit_checked. apply Hsub.
Qed.

Lemma processDir_body_shape recurse :
  keeps_shape recurse -> keeps_shape (processDir_body w v recurse).
Proof.
  intros Hrec dn pstr stats flags e Hp. unfold processDir_body.
  destruct (last dn) as [c|]; [|run_step; exact I].
  run_step. unfold opendir.
  destruct (w_opendir w _) as [err|[pend fin]].
  - run_step. run_step. run_step. emit_checked. run_step.
    destruct (checks_handle v).
    + run_step. apply print_errno_shaped; [exact Hp| |exact I].
      run_step. exact I.
    + run_steps. cbn [negb Z.eqb].
      apply print_errno_shaped; [exact Hp| |exact I].
      run_steps. exact I.
  - run_step. emit_checked. run_steps.
    apply safe_when; intros _.
    + apply print_errno_shaped; [exact Hp| |exact I].
      eapply safe_read; [reflexivity|apply shaped_listing|].
      run_step. eapply safe_mono; [apply entries_loop_shape; eassumption|].
      intros [s1 e1| | |] [] _; exact I.
    + eapply safe_read; [reflexivity|apply shaped_listing|].
      run_step. eapply safe_mono; [apply entries_loop_shape; eassumption|].
      intros [s1 e1| | |] [] _; exact I.
Qed.

Lemma processDir_shape (fuel : nat) : keeps_shape (processDir w v fuel).
Proof.
  induction fuel as [|fuel IH].
  - intros dn pstr stats flags e _. simpl. run_step. exact I.
  - simpl. apply processDir_body_shape, IH.
Qed.

End Shape.

(** X6: in a traversal started with the empty prefix, or with a prefix
    of the right shape, every prefix written in front of an entry or of an
    error line has the shape of the mode. With the tree flag: one column
    "| " or "  " for every ancestor of the entry but the root, followed by
    the branch "|-" or "`-". Without it: blanks only. *)
Theorem processDir_prefixes_shaped
    (w : world) (v : variant) (fuel : nat) (dn pstr : cstr) (stats : summary)
    (flags errno : Z) :
  pstr = [] \/ prefix_shape flags pstr = true ->
  Forall (shaped_event flags) (processDir w v fuel dn pstr stats flags errno).1.
Proof.
  intros Hp.
  pose proof (processDir_shape w v fuel dn pstr stats flags errno Hp) as H.
  unfold safe in H.
  destruct (scan _ tt _) as [[]|] eqn:E; [|contradiction].
  apply scan_check in E. exact E.
Qed.

Lemma processDir_prefixes_shaped_witness :
  Forall (shaped_event F_TREE)
    (processDir Demo.fs SrcFile 5 (lit "t") [] summary_zero F_TREE 0).1.
Proof.
  exact (processDir_prefixes_shaped Demo.fs SrcFile 5 (lit "t") [] summary_zero
           F_TREE 0 (or_introl eq_refl)).
Defined.

(** ** The branches of a directory *)

Lemma branch_step_message (k : nat) (s : nat * list cstr) (ev : event) :
  is_message ev = true -> branch_step k s ev = Some s.
Proof.
  destruct s as [d acc], ev; simpl; intros H; try discriminate H; reflexivity.
Qed.

Lemma scan_branch_step (k : nat) (tr : list event) (d : nat) (acc : list cstr) :
  scan (branch_step k) (d, acc) tr =
  Some (depth_after d tr, acc ++ prefixes_at k d tr).
Proof.
  revert d acc. induction tr as [|ev tr IH]; intros d acc; simpl.
  - rewrite app_nil_r. reflexivity.
  - rewrite IH. f_equal. f_equal.
    destruct ev; simpl; try reflexivity.
    destruct (d =? k)%nat; simpl; [rewrite <- app_assoc|]; reflexivity.
Qed.

Lemma sibling_prefixes_last (flags : Z) (pstr : cstr) (n : nat) :
  sibling_prefixes flags pstr (S n) 0 (S n) =
  replicate n (gen_tree_shape false flags pstr) ++ [gen_tree_shape true flags pstr].
Proof.
  unfold sibling_prefixes. rewrite seq_S, map_app. simpl.
  replace (n - 0)%nat with n by lia. rewrite Nat.eqb_refl. f_equal.
  assert (H : forall i m, (i + m <= n)%nat ->
            map (fun j => gen_tree_shape (j =? n)%nat flags pstr) (seq i m) =
            replicate m (gen_tree_shape false flags pstr)).
  { intros i m. revert i. induction m as [|m IH]; intros i Hle; [reflexivity|].
    simpl. rewrite IH by lia.
    destruct (Nat.eqb_spec i n); [lia|reflexivity]. }
  apply H. lia.
Qed.

Section Branches.

Context (w : world) (v : variant).

Lemma entries_loop_branches recurse :
  draws_branches recurse ->
  forall l new_dn pstr flags num i stats e d acc,
    safe (branch_step 1) (S d, acc)
      (entries_loop w recurse new_dn pstr flags num i l stats e)
      (on_ret (fun _ _ s' =>
         s' = (S d, acc ++ if (d =? 0)%nat
                           then sibling_prefixes flags pstr num i (length l)
                           else []))).
Proof.
  intros Hrec l. induction l as [|ent rest IH];
    intros new_dn pstr flags num i stats e d acc; simpl.
  - run_step. simpl. destruct (d =? 0)%nat; rewrite app_nil_r; reflexivity.
  - set (next := gen_tree_shape (i =? num - 1)%nat flags pstr).
    assert (Hrest : forall stats' e',
      safe (branch_step 1) (S d, if (d =? 0)%nat then acc ++ [next] else acc)
        (entries_loop w recurse new_dn pstr flags num (S i) rest stats' e')
        (on_ret (fun _ _ s' =>
           s' = (S d, acc ++ if (d =? 0)%nat
                             then sibling_prefixes flags pstr num i (S (length rest))
                             else [])))).
    { intros stats' e'. eapply safe_mono; [apply IH|].
      intros [s1 e1| | |] s' Hs; simpl in Hs |- *; try exact I. subst s'.
      destruct (d =? 0)%nat; [rewrite <- app_assoc|]; reflexivity. }
    assert (Hsub : forall stats' e',
      safe (branch_step 1) (S d, if (d =? 0)%nat then acc ++ [next] else acc)
        ((stats1 <- (if S_ISDIR (st_mode (w_lstat w (new_dn ++ d_name ent)).2)
                     then recurse ((new_dn ++ d_name ent) ++ lit "/")
                            next stats' flags
                     else ret stats') ;;
          entries_loop w recurse new_dn pstr flags num (S i) rest stats1) e')
        (on_ret (fun _ _ s' =>
           s' = (S d, acc ++ if (d =? 0)%nat
                             then sibling_prefixes flags pstr num i (S (length rest))
                             else [])))).
    { intros stats' e'. run_step. destruct (S_ISDIR _).
      - eapply safe_mono; [apply Hrec|].
        intros [s1 e1| | |] s' Hs; simpl in Hs |- *; try exact I.
        destruct Hs as [n ->]. rewrite app_nil_r. apply Hrest.
      - run_step. apply Hrest. }
    run_steps. apply safe_when; intros _.
    + apply safe_print_verbose_message; [apply branch_step_message| |exact I].
      run_step. run_step. apply Hsub.
    + run_step. run_step. apply Hsub.
Qed.

Lemma processDir_body_branches recurse :
  draws_branches recurse -> draws_branches (processDir_body w v recurse).
Proof.
  intros Hrec dn pstr stats flags e d acc. unfold processDir_body.
  destruct (last dn) as [c|]; [|run_step; exact I].
  assert (Hnone : exists num : nat,
            (d, acc) = (d, acc ++ if (d =? 0)%nat
                                  then sibling_prefixes flags pstr num 0 num
                                  else [])).
  { exists 0%nat. destruct (d =? 0)%nat; rewrite app_nil_r; reflexivity. }
  run_step. unfold opendir.
  destruct (w_opendir w _) as [err|[pend fin]].
  - run_steps. destruct (checks_handle v).
    + run_step.
      apply safe_print_errno_message; [apply branch_step_message| |exact I].
      run_step. exact Hnone.
    + run_steps. cbn [negb Z.eqb].
      apply safe_print_errno_message; [apply branch_step_message| |exact I].
      run_steps. exact I.
  - assert (Hlist : forall e',
      safe (branch_step 1) (S d, acc)
        ((r <- getNext w (Some (mk_DIR pend fin)) ;;
          dirents <- read_dirents w (length pend) (snd r) (fst r) [] ;;
          (let dirents0 := qsort dirents in
           stats0 <- entries_loop w recurse
                       (if Ascii.eqb c "/" then dn else dn ++ lit "/")
                       pstr flags (length dirents0) 0 dirents0 stats ;;
           closedir ;; ret stats0)) e')
        (on_ret (fun _ _ s' =>
           exists num, s' = (d, acc ++ if (d =? 0)%nat
                                       then sibling_prefixes flags pstr num 0 num
                                       else [])))).
    { intros e'. eapply safe_read;
        [reflexivity|apply scan_listing_unchanged; reflexivity|].
      cbv zeta. run_step.
      eapply safe_mono; [apply entries_loop_branches; exact Hrec|].
      intros [s1 e1| | |] s' Hs; simpl in Hs |- *; try exact I. subst s'.
      run_steps. eexists. reflexivity. }
    run_steps. apply safe_when; intros _.
    + apply safe_print_errno_message; [apply branch_step_message| |exact I].
      apply Hlist.
    + apply Hlist.
Qed.

Lemma processDir_branches (fuel : nat) : draws_branches (processDir w v fuel).
Proof.
  induction fuel as [|fuel IH].
  - intros dn pstr stats flags e d acc. simpl. run_step. exact I.
  - simpl. apply processDir_body_branches, IH.
Qed.

End Branches.

(** X7: when a call of [processDir] returns, the line of the last child
    of its directory starts with the prefix [gen_tree_shape] builds for a
    last entry (in tree mode: with the corner), and the line of every
    other child with the prefix it builds for an entry that is not the
    last (in tree mode: with the bar). *)
Theorem processDir_last_child_gets_corner
    (w : world) (v : variant) (fuel : nat) (dn pstr : cstr) (stats : summary)
    (flags errno : Z) :
  match (processDir w v fuel dn pstr stats flags errno).2 with
  | Ret _ _ =>
      prefixes_at 1 0 (processDir w v fuel dn pstr stats flags errno).1 =
      match length (prefixes_at 1 0 (processDir w v fuel dn pstr stats flags errno).1) with
      | O => []
      | S n => replicate n (gen_tree_shape false flags pstr) ++
               [gen_tree_shape true flags pstr]
      end
  | _ => True
  end.
Proof.
  pose proof (processDir_branches w v fuel dn pstr stats flags errno 0%nat []) as H.
  unfold safe in H. rewrite scan_branch_step in H.
  destruct (processDir w v fuel dn pstr stats flags errno) as [tr [s e'| | |]];
    simpl in H |- *; try exact I.
  destruct H as [num [= _ Hpre]]. rewrite Hpre.
  destruct num as [|n]; [reflexivity|].
  rewrite sibling_prefixes_last, length_app, length_replicate. simpl.
  replace (n + 1)%nat with (S n) by lia. reflexivity.
Qed.

(** ** The lines of a listing *)

Lemma lines_listing (w : world) (verbose : bool) (pend : list dirent) (fin : Z) :
  scan (line_step w verbose) LineStart (listing_trace pend fin) = Some LineStart.
Proof.
  unfold listing_trace. rewrite scan_app.
  assert (H : scan (line_step w verbose) LineStart
                (map (fun ent => EReaddir (inl ent)) pend) = Some LineStart).
  { induction pend as [|x l IH]; simpl; [reflexivity|exact IH]. }
  rewrite H. simpl. destruct (fin =? 0); reflexivity.
Qed.

Section Lines.

Context (w : world) (v : variant).

Lemma print_errno_lines (verbose : bool) (pstr : cstr) (flags e : Z)
    (Q : outcome unit -> line_state -> Prop) :
  Q (Ret tt e) LineStart -> Q (Exit EXIT_FAILURE) ProcessEnded ->
  safe (line_step w verbose) LineStart (print_errno pstr flags e) Q.
Proof.
  intros HR HE. apply safe_print_errno_cases; [intros msg|..]; assumption.
Qed.

Lemma entries_loop_lines recurse :
  keeps_lines w recurse ->
  forall l new_dn pstr flags num i stats e,
    safe (line_step w (has_flag flags F_VERBOSE)) LineStart
      (entries_loop w recurse new_dn pstr flags num i l stats e)
      (fun o s' => s' = line_end o).
Proof.
  intros Hrec l. induction l as [|ent rest IH];
    intros new_dn pstr flags num i stats e; simpl.
  - run_step. reflexivity.
  - assert (Hsub : forall stats' e',
      safe (line_step w (has_flag flags F_VERBOSE)) LineStart
        ((stats1 <- (if S_ISDIR (st_mode (w_lstat w (new_dn ++ d_name ent)).2)
                     then recurse ((new_dn ++ d_name ent) ++ lit "/")
                            (gen_tree_shape (i =? num - 1)%nat flags pstr) stats' flags
                     else ret stats') ;;
          entries_loop w recurse new_dn pstr flags num (S i) rest stats1) e')
        (fun o s' => s' = line_end o)).
    { intros stats' e'. run_step. destruct (S_ISDIR _).
      - eapply safe_mono; [apply Hrec|].
        intros [s1 e1| | |] s' ->; try reflexivity. apply IH.
      - run_step. apply IH. }
    run_step. eapply safe_lstat; [reflexivity|].
    run_step. eapply safe_emit.
    { simpl. rewrite decide_True by (eexists; reflexivity). reflexivity. }
    run_step. apply safe_when; intros Hv.
    + apply safe_print_verbose_cases; [intros user group Hu Hg|reflexivity].
      eapply safe_one.
      { cbn [line_step]. rewrite Hv, bool_decide_eq_true_2 by (simpl; auto).
        reflexivity. }
      run_step. eapply safe_emit; [reflexivity|]. apply Hsub.
    + run_step. eapply safe_emit; [cbn; rewrite Hv; reflexivity|].
      apply Hsub.
Qed.

Lemma processDir_body_lines recurse :
  keeps_lines w recurse -> keeps_lines w (processDir_body w v recurse).
Proof.
  intros Hrec dn pstr stats flags e. unfold processDir_body.
  destruct (last dn) as [c|]; [|run_step; reflexivity].
  run_step. unfold opendir.
  destruct (w_opendir w _) as [err|[pend fin]].
  - run_steps. destruct (checks_handle v).
    + run_step. apply print_errno_lines; [|reflexivity].
      run_step. reflexivity.
    + run_steps. cbn [negb Z.eqb].
      apply print_errno_lines; [|reflexivity].
      run_steps. reflexivity.
  - assert (Hlist : forall e',
      safe (line_step w (has_flag flags F_VERBOSE)) LineStart
        ((r0 <- getNext w (Some (mk_DIR pend fin)) ;;
          dirents <- read_dirents w (length pend) (snd r0) (fst r0) [] ;;
          (let dirents0 := qsort dirents in
           stats0 <- entries_loop w recurse
                       (if Ascii.eqb c "/" then dn else dn ++ lit "/")
                       pstr flags (length dirents0) 0 dirents0 stats ;;
           closedir ;; ret stats0)) e')
        (fun o s' => s' = line_end o)).
    { intros e'. eapply safe_read; [reflexivity|apply lines_listing|].
      cbv zeta. run_step.
      eapply safe_mono; [apply entries_loop_lines; exact Hrec|].
      intros [s1 e1| | |] s' ->; reflexivity. }
    run_steps. apply safe_when; intros _.
    + apply print_errno_lines; [|reflexivity]. apply Hlist.
    + apply Hlist.
Qed.

Lemma processDir_lines (fuel : nat) : keeps_lines w (processDir w v fuel).
Proof.
  induction fuel as [|fuel IH].
  - intros dn pstr stats flags e. simpl. run_step. reflexivity.
  - simpl. apply processDir_body_lines, IH.
Qed.

End Lines.

(** X8: every entry line of a traversal is written in one piece:
    [lstat] of a path that ends in the name of the entry, the name column,
    in verbose mode and only then the details, which are the size, the
    block count and the type character of what [lstat] delivered for that
    path and the names the user and group tables hold for its owner, and
    then the end of the line. Nothing else is written in between, and
    nothing follows a message of [panic]: a run that exits after one stops
    there, and every other run ends between two lines. *)
Theorem processDir_lines_complete
    (w : world) (v : variant) (fuel : nat) (dn pstr : cstr) (stats : summary)
    (flags errno : Z) :
  scan (line_step w (has_flag flags F_VERBOSE)) LineStart
    (processDir w v fuel dn pstr stats flags errno).1 =
  Some (line_end (processDir w v fuel dn pstr stats flags errno).2).
Proof.
  pose proof (processDir_lines w v fuel dn pstr stats flags errno) as H.
  unfold safe in H.
  destruct (scan _ LineStart _) as [s'|]; [|contradiction].
  rewrite H. reflexivity.
Qed.

(** ** The name column without the verbose flag *)

(** X9: without the verbose flag the name column of an entry line is
    the prefix and the name in full, padded with blanks to 54 columns when
    shorter: a long name is never cut. *)
Theorem plain_name_column_is_not_cut
    (w : world) (v : variant) (fuel : nat) (dn pstr : cstr) (stats : summary)
    (flags errno : Z) (s text : cstr) :
  has_flag flags F_VERBOSE = false ->
  (s, text) ∈ entry_lines (processDir w v fuel dn pstr stats flags errno).1 ->
  text = s ++ replicate (54 - length s) space.
Proof.
  intros Hv Hin.
  apply (entry_lines_name_field flags) in Hin; [|apply processDir_dir_events].
  subst text. unfold name_field. rewrite Hv. reflexivity.
Qed.

Lemma plain_name_column_is_not_cut_witness :
  name_field F_TREE (lit "| `-" ++ Demo.long_name) = lit "| `-" ++ Demo.long_name.
Proof.
  assert (Hin : (lit "| `-" ++ Demo.long_name,
                 name_field F_TREE (lit "| `-" ++ Demo.long_name))
                ∈ entry_lines (processDir Demo.fs SrcFile 5 (lit "t") []
                                 summary_zero F_TREE 0).1).
  { vm_compute. do 2 right. left. }
  rewrite (plain_name_column_is_not_cut Demo.fs SrcFile 5 (lit "t") []
             summary_zero F_TREE 0 _ _ eq_refl Hin).
  vm_compute. reflexivity.
Defined.

(** ** The decimal conversion *)

Lemma digit_value (d : Z) : 0 <= d < 10 -> uchar (digit d) - 48 = d.
Proof.
  intros H.
  assert (Hd : d = 0 \/ d = 1 \/ d = 2 \/ d = 3 \/ d = 4 \/
               d = 5 \/ d = 6 \/ d = 7 \/ d = 8 \/ d = 9) by lia.
  repeat (destruct Hd as [->|Hd]; [reflexivity|]). subst d. reflexivity.
Qed.

Lemma digits_app (fuel : nat) (n : Z) (acc : cstr) :
  digits fuel n acc = digits fuel n [] ++ acc.
Proof.
  revert n acc. induction fuel as [|fuel IH]; intros n acc; simpl; [reflexivity|].
  destruct (n / 10 =? 0); [reflexivity|].
  rewrite IH, (IH _ [_]), <- app_assoc. reflexivity.
Qed.

Lemma log2_tenth (n : Z) : 10 <= n -> Z.log2 (n / 10) < Z.log2 n.
Proof.
  intros Hn.
  assert (H2 : Z.log2 (n / 2) = Z.log2 n - 1).
  { change 2 with (2 ^ 1). rewrite <- Z.shiftr_div_pow2 by lia.
    rewrite Z.log2_shiftr by lia.
    assert (1 <= Z.log2 n) by (apply Z.log2_le_pow2; simpl; lia). lia. }
  assert (Hle : n / 10 <= n / 2).
  { apply Z.div_le_compat_l; lia. }
  apply Z.log2_le_mono in Hle. lia.
Qed.

(** The digits [decimal] writes denote the number. *)
Lemma digits_denote (fuel : nat) (n : Z) :
  0 <= n -> Z.log2 n < Z.of_nat fuel -> digits_value (digits fuel n []) = n.
Proof.
  revert n. induction fuel as [|fuel IH]; intros n Hn Hfuel.
  - pose proof (Z.log2_nonneg n). lia.
  - cbn [digits].
    assert (Hmod : 0 <= n mod 10 < 10) by (apply Z.mod_pos_bound; lia).
    destruct (Z.eqb_spec (n / 10) 0) as [Hz|Hz].
    + unfold digits_value. simpl. rewrite digit_value by exact Hmod.
      pose proof (Z.div_mod n 10 ltac:(lia)). lia.
    + assert (H10 : 10 <= n).
      { destruct (Z.lt_ge_cases n 10) as [Hlt|Hge]; [|exact Hge].
        exfalso. apply Hz. apply Z.div_small. lia. }
      rewrite digits_app. unfold digits_value in *. rewrite foldl_app. simpl.
      rewrite IH.
      * rewrite digit_value by exact Hmod.
        pose proof (Z.div_mod n 10 ltac:(lia)). lia.
      * apply Z.div_pos; lia.
      * pose proof (log2_tenth n H10). lia.
Qed.

Lemma decimal_denotes (n : Z) : 0 <= n -> digits_value (decimal n) = n.
Proof.
  intros Hn. unfold decimal. destruct (Z.ltb_spec n 0); [lia|].
  apply digits_denote; [exact Hn|].
  pose proof (Z.log2_nonneg n). lia.
Qed.

(** ** The width of the details and of the summary *)

Lemma digits_length_le (fuel : nat) (n : Z) (acc : cstr) (k : nat) :
  (1 <= k)%nat -> 0 <= n < 10 ^ Z.of_nat k ->
  (length (digits fuel n acc) <= length acc + k)%nat.
Proof.
  revert n acc k. induction fuel as [|fuel IH]; intros n acc k Hk Hn; simpl; [lia|].
  destruct (Z.eqb_spec (n / 10) 0) as [Hz|Hz]; simpl; [lia|].
  destruct k as [|[|k]]; [lia| |].
  - exfalso. apply Hz. apply Z.div_small. simpl in Hn. lia.
  - specialize (IH (n / 10) (digit (n mod 10) :: acc) (S k) ltac:(lia)).
    simpl length in IH. etransitivity; [apply IH|lia].
    split; [apply Z.div_pos; lia|].
    apply Z.div_lt_upper_bound; [lia|].
    replace (Z.of_nat (S (S k))) with (Z.succ (Z.of_nat (S k))) in Hn by lia.
    rewrite Z.pow_succ_r in Hn by lia. lia.
Qed.

Lemma digits_length_ge (fuel : nat) (n : Z) (acc : cstr) :
  (length acc <= length (digits fuel n acc))%nat.
Proof.
  revert n acc. induction fuel as [|fuel IH]; intros n acc; simpl; [lia|].
  destruct (n / 10 =? 0); simpl; [lia|].
  etransitivity; [|apply IH]. simpl. lia.
Qed.

Lemma decimal_length (n : Z) (k : nat) :
  (1 <= k)%nat -> 0 <= n < 10 ^ Z.of_nat k ->
  (1 <= length (decimal n) <= k)%nat.
Proof.
  intros Hk Hn. unfold decimal.
  destruct (Z.ltb_spec n 0) as [Hneg|_]; [lia|]. split.
  - cbn [digits]. destruct (n / 10 =? 0); [simpl; lia|].
    etransitivity; [|apply digits_length_ge]. simpl. lia.
  - apply (digits_length_le _ n [] k Hk Hn).
Qed.

Lemma printf_rjust_length (width : nat) (s : cstr) :
  (length s <= width)%nat -> length (printf_rjust width s) = width.
Proof.
  intros H. unfold printf_rjust. rewrite length_app, length_replicate. lia.
Qed.

Lemma printf_rjust_length_ge (width : nat) (s : cstr) :
  (width <= length (printf_rjust width s))%nat.
Proof. unfold printf_rjust. rewrite length_app, length_replicate. lia. Qed.

Lemma printf_ljust_length (width : nat) (s : cstr) :
  (length s <= width)%nat -> length (printf_ljust width None s) = width.
Proof.
  intros H. unfold printf_ljust. rewrite length_app, length_replicate. lia.
Qed.

Lemma printf_ljust_length_ge (width : nat) (s : cstr) :
  (width <= length (printf_ljust width None s))%nat.
Proof. unfold printf_ljust. rewrite length_app, length_replicate. lia. Qed.

Lemma printf_ljust_cut_length (width : nat) (s : cstr) :
  length (printf_ljust width (Some width) s) = width.
Proof.
  unfold printf_ljust. rewrite length_app, length_replicate, length_take. lia.
Qed.

(** X10: when the owner and the group of an entry have names,
    [print_verbose] writes the details and returns, and [errno] is then
    what [getpwuid] and after it [getgrgid] have made of it, not what it
    was at the call. The text is never shorter than 44 columns, and it is
    exactly 44 columns wide when the names have at most 8 characters, the
    size is below 10^10 and the block count below 10^8. A longer field is
    not cut; it widens the line. *)
Theorem print_verbose_fits_columns
    (w : world) (st : stat) (errno : Z) (user group : cstr) :
  w_getpwuid w (st_uid st) = Some user ->
  w_getgrgid w (st_gid st) = Some group ->
  print_verbose w st errno =
    ([EVerbose user group (st_size st) (st_blocks st) (type_char (st_mode st))],
     Ret tt (w_getgrgid_errno w (st_gid st)
               (w_getpwuid_errno w (st_uid st) errno))) /\
  (44 <= length (verbose_text user group (st_size st) (st_blocks st)
                   (type_char (st_mode st))))%nat /\
  ((length user <= 8)%nat -> (length group <= 8)%nat ->
   0 <= st_size st < 10 ^ 10 -> 0 <= st_blocks st < 10 ^ 8 ->
   length (verbose_text user group (st_size st) (st_blocks st)
             (type_char (st_mode st))) = 44%nat).
Proof.
  intros Hu Hg. split; [|split].
  - rewrite print_verbose_run, Hu, Hg. reflexivity.
  - unfold verbose_text. rewrite !length_app.
    pose proof (printf_rjust_length_ge 8 user).
    pose proof (printf_ljust_length_ge 8 group).
    pose proof (printf_rjust_length_ge 10 (decimal (st_size st))).
    pose proof (printf_rjust_length_ge 8 (decimal (st_blocks st))).
    change (length (lit "  ")) with 2%nat. change (length (lit ":")) with 1%nat.
    simpl length. lia.
  - intros Hlu Hlg Hsz Hblk. unfold verbose_text.
    rewrite !length_app.
    rewrite (printf_rjust_length 8 user Hlu), (printf_ljust_length 8 group Hlg).
    rewrite (printf_rjust_length 10), (printf_rjust_length 8).
    + reflexivity.
    + apply (decimal_length _ 8); [lia|exact Hblk].
    + apply (decimal_length _ 10); [lia|exact Hsz].
Qed.

Lemma print_verbose_fits_columns_witness :
  print_verbose Demo.fs (Demo.st_file 10 8) EACCES =
    ([EVerbose (lit "root") (lit "root") 10 8 " "%char], Ret tt 0) /\
  verbose_text (lit "root") (lit "root") 10 8 " "%char =
    lit "      root:root              10         8   ".
Proof.
  destruct (print_verbose_fits_columns Demo.fs (Demo.st_file 10 8) EACCES
              (lit "root") (lit "root") eq_refl eq_refl) as (Hrun & _ & _).
  split; [exact Hrun|]. vm_compute. reflexivity.
Defined.

(** X25: in verbose mode the line of a summary is 95 columns wide (and
    ends in two newlines) when the size is below 10^14 and the block count
    below 10^9, whatever the counters are: the text of the counters fills
    exactly 68 columns, padded with blanks when shorter and cut, with no
    mark, when longer. *)
Theorem verbose_summary_width (s : summary) :
  0 <= size s < 10 ^ 14 -> 0 <= blocks s < 10 ^ 9 ->
  length (summary_line true s) = 97%nat /\
  take 68 (summary_line true s) =
    take 68 (summary_text s) ++ replicate (68 - length (summary_text s)) space.
Proof.
  intros Hsz Hblk.
  assert (Hs : as_signed64 (size s) = size s).
  { unfold as_signed64. destruct (Z.ltb_spec (size s) (2 ^ 63)); lia. }
  assert (Hb : as_signed64 (blocks s) = blocks s).
  { unfold as_signed64. destruct (Z.ltb_spec (blocks s) (2 ^ 63)); lia. }
  unfold summary_line. rewrite Hs, Hb. split.
  - rewrite !length_app, printf_ljust_cut_length.
    rewrite (printf_rjust_length 14), (printf_rjust_length 9).
    + reflexivity.
    + apply (decimal_length _ 9); [lia|exact Hblk].
    + apply (decimal_length _ 14); [lia|exact Hsz].
  - rewrite take_app_length'; [|symmetry; apply printf_ljust_cut_length].
    unfold printf_ljust. rewrite length_take. f_equal. f_equal. lia.
Qed.

Lemma verbose_summary_width_witness :
  length (summary_line true (mk_summary 123456 1234567 12345 1234 0 8205 32)) = 97%nat /\
  take 68 (summary_line true (mk_summary 123456 1234567 12345 1234 0 8205 32)) =
    lit "1234567 files, 123456 directories, 12345 links, 1234 pipes, and 0 so".
Proof.
  destruct (verbose_summary_width (mk_summary 123456 1234567 12345 1234 0 8205 32)
              ltac:(simpl; lia) ltac:(simpl; lia)) as [Hlen Htake].
  split; [exact Hlen|]. rewrite Htake. vm_compute. reflexivity.
Defined.

(** ** What a summary counts *)

Lemma account_step_message (w : world) (s : summary) (ev : event) :
  is_message ev = true -> account_step w s ev = Some s.
Proof. destruct ev; simpl; intros H; try discriminate H; reflexivity. Qed.

Section Account.

Context (w : world) (v : variant).

Lemma entries_loop_account recurse :
  keeps_account w recurse ->
  forall l new_dn pstr flags num i stats e,
    safe (account_step w) stats
      (entries_loop w recurse new_dn pstr flags num i l stats e)
      (on_ret (fun stats' _ s' => s' = stats')).
Proof.
  intros Hrec l. induction l as [|ent rest IH];
    intros new_dn pstr flags num i stats e; simpl.
  - run_step. reflexivity.
  - set (path := new_dn ++ d_name ent).
    set (stats1 := update_stats stats (w_lstat w path).2).
    assert (Hsub : forall e',
      safe (account_step w) stats1
        ((stats2 <- (if S_ISDIR (st_mode (w_lstat w path).2)
                     then recurse (path ++ lit "/")
                            (gen_tree_shape (i =? num - 1)%nat flags pstr) stats1 flags
                     else ret stats1) ;;
          entries_loop w recurse new_dn pstr flags num (S i) rest stats2) e')
        (on_ret (fun stats' _ s' => s' = stats'))).
    { intros e'. run_step. destruct (S_ISDIR _).
      - eapply safe_mono; [apply Hrec|].
        intros [s2 e2| | |] s' Hs; simpl in Hs |- *; try exact I. subst s'.
        apply IH.
      - run_step. apply IH. }
    run_step. eapply safe_lstat; [reflexivity|].
    run_step. eapply safe_emit; [reflexivity|].
    run_step. apply safe_when; intros _.
    + apply safe_print_verbose_message; [apply account_step_message| |exact I].
      run_step. eapply safe_emit; [reflexivity|]. apply Hsub.
    + run_step. eapply safe_emit; [reflexivity|]. apply Hsub.
Qed.

Lemma processDir_body_account recurse :
  keeps_account w recurse -> keeps_account w (processDir_body w v recurse).
Proof.
  intros Hrec dn pstr stats flags e. unfold processDir_body.
  destruct (last dn) as [c|]; [|run_step; exact I].
  run_step. unfold opendir.
  destruct (w_opendir w _) as [err|[pend fin]].
  - run_steps. destruct (checks_handle v).
    + run_step.
      apply safe_print_errno_message; [apply account_step_message| |exact I].
      run_step. reflexivity.
    + run_steps. cbn [negb Z.eqb].
      apply safe_print_errno_message; [apply account_step_message| |exact I].
      run_steps. exact I.
  - assert (Hlist : forall e',
      safe (account_step w) stats
        ((r0 <- getNext w (Some (mk_DIR pend fin)) ;;
          dirents <- read_dirents w (length pend) (snd r0) (fst r0) [] ;;
          (let dirents0 := qsort dirents in
           stats0 <- entries_loop w recurse
                       (if Ascii.eqb c "/" then dn else dn ++ lit "/")
                       pstr flags (length dirents0) 0 dirents0 stats ;;
           closedir ;; ret stats0)) e')
        (on_ret (fun stats' _ s' => s' = stats'))).
    { intros e'. eapply safe_read;
        [reflexivity|apply scan_listing_unchanged; reflexivity|].
      cbv zeta. run_step.
      eapply safe_mono; [apply entries_loop_account; exact Hrec|].
      intros [s1 e1| | |] s' Hs; simpl in Hs |- *; try exact I. subst s'.
      run_steps. reflexivity. }
    run_steps. apply safe_when; intros _.
    + apply safe_print_errno_message; [apply account_step_message| |exact I].
      apply Hlist.
    + apply Hlist.
Qed.

Lemma processDir_account (fuel : nat) : keeps_account w (processDir w v fuel).
Proof.
  induction fuel as [|fuel IH].
  - intros dn pstr stats flags e. simpl. run_step. exact I.
  - simpl. apply processDir_body_account, IH.
Qed.

End Account.

Lemma scan_account_listing (w : world) (flags : Z) (tr : list event) (s : summary) :
  Forall (dir_event flags) tr ->
  scan (account_step w) s tr = Some (foldl update_stats s (lstat_results w tr)).
Proof.
  intros Htr. revert s. induction Htr as [|ev tr Hev _ IH]; intros s; [reflexivity|].
  destruct ev; simpl in Hev; try discriminate Hev; simpl; apply IH.
Qed.

(** X11: when a call of [processDir] returns, the summary it leaves is
    the summary it was given with [update_stats] applied, in order, to the
    result of every [lstat] of the run: one for each entry line written,
    at whatever depth. *)
Theorem processDir_stats_accumulate
    (w : world) (v : variant) (fuel : nat) (dn pstr : cstr) (stats : summary)
    (flags errno : Z) :
  match (processDir w v fuel dn pstr stats flags errno).2 with
  | Ret stats' _ =>
      stats' = foldl update_stats stats
                 (lstat_results w (processDir w v fuel dn pstr stats flags errno).1)
  | _ => True
  end.
Proof.
  pose proof (processDir_account w v fuel dn pstr stats flags errno) as H.
  unfold safe in H.
  rewrite (scan_account_listing w flags) in H by apply processDir_dir_events.
  destruct (processDir w v fuel dn pstr stats flags errno).2; simpl in H; auto.
Qed.

(** ** What a summary adds up *)

Lemma update_stats_in_range (s : summary) (st : stat) :
  summary_in_range (update_stats s st).
Proof.
  unfold summary_in_range, update_stats. simpl.
  repeat split; first [apply wrap32_range | apply wrap64_range].
Qed.

Lemma count_stat_cons (is_type : Z -> bool) (st : stat) (l : list stat) :
  count_stat is_type (st :: l) = b2z (is_type (st_mode st)) + count_stat is_type l.
Proof.
  unfold count_stat. simpl. destruct (is_type (st_mode st)); simpl length; unfold b2z; lia.
Qed.

(** X12: applied to a list of [lstat] results, [update_stats] adds to
    each counter the number of results of the counter's type, modulo 2^32,
    and to the size and to the block count the sums of the sizes and of the
    block counts, modulo 2^64; results of no counted type add to the size
    and to the block count only. *)
Theorem update_stats_fold_counts (s : summary) (l : list stat) :
  summary_in_range s ->
  foldl update_stats s l =
  {| dirs := wrap32 (dirs s + count_stat S_ISDIR l);
     files := wrap32 (files s + count_stat S_ISREG l);
     links := wrap32 (links s + count_stat S_ISLNK l);
     fifos := wrap32 (fifos s + count_stat S_ISFIFO l);
     socks := wrap32 (socks s + count_stat S_ISSOCK l);
     size := wrap64 (size s + sum_stat st_size l);
     blocks := wrap64 (blocks s + sum_stat st_blocks l) |}.
Proof.
  revert s. induction l as [|st l IH]; intros s Hs.
  - destruct s as [d f k p c z b]. destruct Hs as (Hd & Hf & Hl & Hp & Hc & Hz & Hb).
    simpl in *. unfold count_stat, sum_stat, wrap32, wrap64. simpl.
    rewrite !Z.add_0_r, !Z.mod_small by assumption. reflexivity.
  - cbn [foldl]. rewrite IH by apply update_stats_in_range.
    rewrite !count_stat_cons. unfold sum_stat. cbn [foldr update_stats dirs files
      links fifos socks size blocks].
    rewrite !wrap32_add_l, !wrap64_add_l, !Z.add_assoc. reflexivity.
Qed.

Lemma update_stats_fold_counts_witness :
  foldl update_stats summary_zero
    [Demo.st_file 10 8; Demo.st_dir; Demo.st_file 3 8] =
  mk_summary 1 2 0 0 0 4109 24.
Proof.
  rewrite (update_stats_fold_counts summary_zero
             [Demo.st_file 10 8; Demo.st_dir; Demo.st_file 3 8]
             ltac:(unfold summary_in_range; simpl; lia)).
  reflexivity.
Defined.

Lemma update_stats_comm (s : summary) (a b : stat) :
  update_stats (update_stats s a) b = update_stats (update_stats s b) a.
Proof.
  unfold update_stats. simpl.
  rewrite !wrap32_add_l, !wrap64_add_l.
  f_equal; f_equal; lia.
Qed.

(** X13: the summary does not depend on the order in which the entries
    are met: folding [update_stats] over two lists that are permutations of
    each other gives the same summary. *)
Theorem summary_ignores_order (s : summary) (l l' : list stat) :
  l ≡ₚ l' -> foldl update_stats s l = foldl update_stats s l'.
Proof.
  intros Hperm. revert s.
  induction Hperm as [|x l l' _ IH|x y l|l l' l'' _ IH1 _ IH2]; intros s; simpl.
  - reflexivity.
  - apply IH.
  - rewrite update_stats_comm. reflexivity.
  - rewrite IH1. apply IH2.
Qed.

Lemma summary_ignores_order_witness :
  foldl update_stats summary_zero [Demo.st_file 10 8; Demo.st_dir] =
  foldl update_stats summary_zero [Demo.st_dir; Demo.st_file 10 8].
Proof.
  exact (summary_ignores_order summary_zero [Demo.st_file 10 8; Demo.st_dir]
           [Demo.st_dir; Demo.st_file 10 8] (Permutation_swap _ _ _)).
Defined.

(** ** The paths of a traversal *)

Lemma path_step_message (w : world) (known : list cstr) (ev : event) :
  is_message ev = true -> path_step w known ev = Some known.
Proof. destruct ev; simpl; intros H; try discriminate H; reflexivity. Qed.

Section Paths.

Context (w : world) (v : variant).

Lemma entries_loop_paths recurse :
  keeps_paths w recurse ->
  forall l new_dn pstr flags num i stats e known,
    new_dn ∈ known ->
    safe (path_step w) known
      (entries_loop w recurse new_dn pstr flags num i l stats e)
      (fun _ known' => known ⊆ known').
Proof.
  intros Hrec l. induction l as [|ent rest IH];
    intros new_dn pstr flags num i stats e known Hnew; simpl.
  - run_step. reflexivity.
  - set (path := new_dn ++ d_name ent).
    set (known1 := if S_ISDIR (st_mode (w_lstat w path).2)
                   then (path ++ lit "/") :: known else known).
    assert (Hsub : forall stats' e',
      safe (path_step w) known1
        ((stats2 <- (if S_ISDIR (st_mode (w_lstat w path).2)
                     then recurse (path ++ lit "/")
                            (gen_tree_shape (i =? num - 1)%nat flags pstr) stats' flags
                     else ret stats') ;;
          entries_loop w recurse new_dn pstr flags num (S i) rest stats2) e')
        (fun _ known' => known ⊆ known')).
    { intros stats' e'. run_step. subst known1. destruct (S_ISDIR _).
      - eapply safe_mono.
        + apply Hrec. rewrite normalized_slash. left.
        + intros [s2 e2| | |] known2 H12;
            try (intros x Hx; apply H12; right; exact Hx).
          eapply safe_mono; [apply IH; apply H12; right; exact Hnew|].
          intros o known3 H23 x Hx. apply H23, H12. right. exact Hx.
      - run_step. apply IH, Hnew. }
    run_step. eapply safe_lstat.
    { simpl. rewrite decide_True; [reflexivity|].
      apply Exists_exists. exists new_dn. split; [exact Hnew|].
      apply prefix_app_r. reflexivity. }
    run_step. eapply safe_emit; [reflexivity|].
    run_step. apply safe_when; intros _.
    + apply safe_print_verbose_message; [apply path_step_message| |].
      * run_step. eapply safe_emit; [reflexivity|]. apply Hsub.
      * subst known1. destruct (S_ISDIR _); [|reflexivity].
        intros x Hx. right. exact Hx.
    + run_step. eapply safe_emit; [reflexivity|]. apply Hsub.
Qed.

Lemma processDir_body_paths recurse :
  keeps_paths w recurse -> keeps_paths w (processDir_body w v recurse).
Proof.
  intros Hrec dn pstr stats flags e known Hdn.
  unfold processDir_body, normalized in *.
  destruct (last dn) as [c|]; [|run_step; reflexivity].
  set (new_dn := if Ascii.eqb c "/" then dn else dn ++ lit "/") in *.
  assert (Hopen : forall err, path_step w known (EOpendir new_dn err) = Some known).
  { intros err. simpl. rewrite decide_True by exact Hdn. reflexivity. }
  run_step. unfold opendir.
  destruct (w_opendir w new_dn) as [err|[pend fin]].
  - run_step. run_step. run_step. eapply safe_emit; [apply Hopen|]. run_step.
    destruct (checks_handle v).
    + run_step.
      apply safe_print_errno_message; [apply path_step_message| |reflexivity].
      run_step. reflexivity.
    + run_steps. cbn [negb Z.eqb].
      apply safe_print_errno_message; [apply path_step_message| |reflexivity].
      run_steps. apply safe_fault. reflexivity.
  - assert (Hlist : forall e',
      safe (path_step w) known
        ((r0 <- getNext w (Some (mk_DIR pend fin)) ;;
          dirents <- read_dirents w (length pend) (snd r0) (fst r0) [] ;;
          (let dirents0 := qsort dirents in
           stats0 <- entries_loop w recurse new_dn
                       pstr flags (length dirents0) 0 dirents0 stats ;;
           closedir ;; ret stats0)) e')
        (fun _ known' => known ⊆ known')).
    { intros e'. eapply safe_read;
        [reflexivity|apply scan_listing_unchanged; reflexivity|].
      cbv zeta. run_step.
      eapply safe_mono; [apply entries_loop_paths; [exact Hrec|exact Hdn]|].
      intros [s1 e1| | |] known' Hk; exact Hk. }
    run_step. eapply safe_emit; [apply Hopen|]. run_steps.
    apply safe_when; intros _.
    + apply safe_print_errno_message; [apply path_step_message| |reflexivity].
      apply Hlist.
    + apply Hlist.
Qed.

Lemma processDir_paths (fuel : nat) : keeps_paths w (processDir w v fuel).
Proof.
  induction fuel as [|fuel IH].
  - intros dn pstr stats flags e known _. simpl. run_step. reflexivity.
  - simpl. apply processDir_body_paths, IH.
Qed.

End Paths.

(** The paths of a run the machine accepts lie below the directories it
    knew at first. *)
Lemma scan_path_step_below (w : world) (root : cstr) (tr : list event)
    (known known' : list cstr) :
  Forall (fun d => root `prefix_of` d) known ->
  scan (path_step w) known tr = Some known' ->
  Forall (fun ev => match event_path ev with
                    | Some path => root `prefix_of` path
                    | None => True
                    end) tr.
Proof.
  revert known. induction tr as [|ev tr IH]; intros known Hknown; simpl.
  - constructor.
  - destruct (path_step w known ev) as [known1|] eqn:Hstep; [|discriminate].
    intros Hscan.
    assert (Hev : match event_path ev with
                  | Some path => root `prefix_of` path
                  | None => True
                  end /\ Forall (fun d => root `prefix_of` d) known1).
    { rewrite Forall_forall in Hknown.
      destruct ev; simpl in Hstep |- *;
        try (injection Hstep as <-; split; [exact I|apply Forall_forall, Hknown]).
      - destruct (decide (path ∈ known)) as [Hin|]; [|discriminate].
        injection Hstep as <-. split; [apply Hknown, Hin|apply Forall_forall, Hknown].
      - destruct (decide (Exists (fun d => d `prefix_of` path) known)) as [Hex|];
          [|discriminate].
        injection Hstep as <-.
        apply Exists_exists in Hex as (d & Hd & Hpre).
        assert (Hroot : root `prefix_of` path).
        { etransitivity; [apply Hknown, Hd|exact Hpre]. }
        split; [exact Hroot|].
        destruct (S_ISDIR _); [|apply Forall_forall, Hknown].
        constructor; [|apply Forall_forall, Hknown].
        etransitivity; [exact Hroot|]. apply prefix_app_r. reflexivity. }
    destruct Hev as [Hev Hknown1]. constructor; [exact Hev|].
    eapply IH; eassumption.
Qed.

(** X14: a traversal opens the directory it is called on and, below it,
    only paths made of a path that [lstat] reported as a directory in the
    same run, followed by "/"; and every path it gives to [lstat] lies
    inside a directory it was called on or met in this way. An entry that
    [lstat] reports as a symbolic link is therefore never descended into. *)
Theorem processDir_opens_only_directories
    (w : world) (v : variant) (fuel : nat) (dn pstr : cstr) (stats : summary)
    (flags errno : Z) :
  is_Some (scan (path_step w) [normalized dn]
             (processDir w v fuel dn pstr stats flags errno).1).
Proof.
  pose proof (processDir_paths w v fuel dn pstr stats flags errno [normalized dn]
                ltac:(left)) as H.
  unfold safe in H.
  destruct (scan _ _ _) as [known'|]; [eexists; reflexivity|contradiction].
Qed.

(** X16: every path a traversal gives to [opendir] or to [lstat] starts
    with the path [processDir] was called on. *)
Theorem processDir_stays_below_root
    (w : world) (v : variant) (fuel : nat) (dn pstr : cstr) (stats : summary)
    (flags errno : Z) :
  Forall (fun ev => match event_path ev with
                    | Some path => dn `prefix_of` path
                    | None => True
                    end)
    (processDir w v fuel dn pstr stats flags errno).1.
Proof.
  pose proof (processDir_paths w v fuel dn pstr stats flags errno [normalized dn]
                ltac:(left)) as H.
  unfold safe in H.
  destruct (scan _ _ _) as [known'|] eqn:Hscan; [|contradiction].
  eapply scan_path_step_below; [|exact Hscan].
  constructor; [apply normalized_prefix|constructor].
Qed.

(** ** The descent into directories *)

Lemma descent_step_message (w : world) (waiting : option cstr) (ev : event) :
  is_message ev = true -> descent_step w waiting ev = Some waiting.
Proof. destruct ev; simpl; intros H; try discriminate H; reflexivity. Qed.

Section Descent.

Context (w : world) (v : variant).

Lemma entries_loop_descent recurse :
  keeps_descent w recurse ->
  forall l new_dn pstr flags num i stats e,
    safe (descent_step w) None
      (entries_loop w recurse new_dn pstr flags num i l stats e)
      (on_ret (fun _ _ waiting' => waiting' = None)).
Proof.
  intros Hrec l. induction l as [|ent rest IH];
    intros new_dn pstr flags num i stats e; simpl.
  - run_step. reflexivity.
  - set (path := new_dn ++ d_name ent).
    assert (Hsub : forall stats' e',
      safe (descent_step w)
        (if S_ISDIR (st_mode (w_lstat w path).2) then Some (path ++ lit "/") else None)
        ((stats2 <- (if S_ISDIR (st_mode (w_lstat w path).2)
                     then recurse (path ++ lit "/")
                            (gen_tree_shape (i =? num - 1)%nat flags pstr) stats' flags
                     else ret stats') ;;
          entries_loop w recurse new_dn pstr flags num (S i) rest stats2) e')
        (on_ret (fun _ _ waiting' => waiting' = None))).
    { intros stats' e'. run_step. destruct (S_ISDIR _).
      - eapply safe_mono; [apply Hrec; right; rewrite normalized_slash; reflexivity|].
        intros [s2 e2| | |] s' Hs; simpl in Hs |- *; try exact I. subst s'.
        apply IH.
      - run_step. apply IH. }
    run_step. eapply safe_lstat; [reflexivity|].
    run_step. eapply safe_emit; [reflexivity|].
    run_step. apply safe_when; intros _.
    + apply safe_print_verbose_message; [apply descent_step_message| |exact I].
      run_step. eapply safe_emit; [reflexivity|]. apply Hsub.
    + run_step. eapply safe_emit; [reflexivity|]. apply Hsub.
Qed.

Lemma processDir_body_descent recurse :
  keeps_descent w recurse -> keeps_descent w (processDir_body w v recurse).
Proof.
  intros Hrec dn pstr stats flags e waiting Hwait.
  unfold processDir_body, normalized in *.
  destruct (last dn) as [c|]; [|run_step; exact I].
  set (new_dn := if Ascii.eqb c "/" then dn else dn ++ lit "/") in *.
  assert (Hopen : forall err,
            descent_step w waiting (EOpendir new_dn err) = Some None).
  { intros err. destruct Hwait as [-> | ->]; simpl; [reflexivity|].
    rewrite decide_True by reflexivity. reflexivity. }
  run_step. unfold opendir.
  destruct (w_opendir w new_dn) as [err|[pend fin]].
  - run_step. run_step. run_step. eapply safe_emit; [apply Hopen|]. run_step.
    destruct (checks_handle v).
    + run_step.
      apply safe_print_errno_message; [apply descent_step_message| |exact I].
      run_step. reflexivity.
    + run_steps. cbn [negb Z.eqb].
      apply safe_print_errno_message; [apply descent_step_message| |exact I].
      run_steps. exact I.
  - assert (Hlist : forall e',
      safe (descent_step w) None
        ((r0 <- getNext w (Some (mk_DIR pend fin)) ;;
          dirents <- read_dirents w (length pend) (snd r0) (fst r0) [] ;;
          (let dirents0 := qsort dirents in
           stats0 <- entries_loop w recurse new_dn
                       pstr flags (length dirents0) 0 dirents0 stats ;;
           closedir ;; ret stats0)) e')
        (on_ret (fun _ _ waiting' => waiting' = None))).
    { intros e'. eapply safe_read;
        [reflexivity|apply scan_listing_unchanged; reflexivity|].
      cbv zeta. run_step.
      eapply safe_mono; [apply entries_loop_descent; exact Hrec|].
      intros [s1 e1| | |] s' Hs; simpl in Hs |- *; try exact I. subst s'.
      run_steps. reflexivity. }
    run_step. eapply safe_emit; [apply Hopen|]. run_steps.
    apply safe_when; intros _.
    + apply safe_print_errno_message; [apply descent_step_message| |exact I].
      apply Hlist.
    + apply Hlist.
Qed.

Lemma processDir_descent (fuel : nat) : keeps_descent w (processDir w v fuel).
Proof.
  induction fuel as [|fuel IH].
  - intros dn pstr stats flags e waiting _. simpl. run_step. exact I.
  - simpl. apply processDir_body_descent, IH.
Qed.

End Descent.

(** X15: a traversal descends into every entry that [lstat] reports as
    a directory: after the line of such an entry, the next system call is
    [opendir] of the path of the entry followed by "/"; no directory is
    read or closed and no other entry examined before. A call that returns
    leaves no directory waiting. *)
Theorem processDir_descends_into_every_directory
    (w : world) (v : variant) (fuel : nat) (dn pstr : cstr) (stats : summary)
    (flags errno : Z) :
  match scan (descent_step w) None
          (processDir w v fuel dn pstr stats flags errno).1 with
  | Some waiting =>
      match (processDir w v fuel dn pstr stats flags errno).2 with
      | Ret _ _ => waiting = None
      | _ => True
      end
  | None => False
  end.
Proof.
  pose proof (processDir_descent w v fuel dn pstr stats flags errno None
                ltac:(left; reflexivity)) as H.
  unfold safe in H.
  destruct (scan _ _ _) as [waiting|]; [|contradiction].
  destruct (processDir w v fuel dn pstr stats flags errno).2; simpl in H; auto.
Qed.

(** ** Directory handles *)

Lemma handle_step_message (n : nat) (ev : event) :
  is_message ev = true -> handle_step n ev = Some n.
Proof. destruct ev; simpl; intros H; try discriminate H; reflexivity. Qed.

Lemma handles_listing (n : nat) (pend : list dirent) (fin : Z) :
  scan handle_step (S n) (listing_trace pend fin) = Some (S n).
Proof. apply scan_listing_unchanged; reflexivity. Qed.

Section Handles.

Context (w : world) (v : variant).

Lemma entries_loop_handles recurse :
  keeps_handles recurse ->
  forall l new_dn pstr flags num i stats e n,
    safe handle_step n
      (entries_loop w recurse new_dn pstr flags num i l stats e)
      (on_ret (fun _ _ n' => n' = n)).
Proof.
  intros Hrec l. induction l as [|ent rest IH];
    intros new_dn pstr flags num i stats e n; simpl.
  - run_step. reflexivity.
  - assert (Hsub : forall stats' e',
      safe handle_step n
        ((stats1 <- (if S_ISDIR (st_mode (w_lstat w (new_dn ++ d_name ent)).2)
                     then recurse ((new_dn ++ d_name ent) ++ lit "/")
                            (gen_tree_shape (i =? num - 1)%nat flags pstr) stats' flags
                     else ret stats') ;;
          entries_loop w recurse new_dn pstr flags num (S i) rest stats1) e')
        (on_ret (fun _ _ n' => n' = n))).
    { intros stats' e'. run_step. destruct (S_ISDIR _).
      - eapply safe_mono; [apply Hrec|].
        intros [s1 e1| | |] n' Hn; simpl in Hn |- *; try exact I. subst n'.
        apply IH.
      - run_step. apply IH. }
    run_steps. apply safe_when; intros _.
    + apply safe_print_verbose_message; [apply handle_step_message| |exact I].
      run_step. run_step. apply Hsub.
    + run_step. run_step. apply Hsub.
Qed.

Lemma processDir_body_handles recurse :
  keeps_handles recurse -> keeps_handles (processDir_body w v recurse).
Proof.
  intros Hrec dn pstr stats flags e n. unfold processDir_body.
  destruct (last dn) as [c|]; [|run_step; exact I].
  run_step. unfold opendir.
  destruct (w_opendir w _) as [err|[pend fin]].
  - run_steps. destruct (checks_handle v).
    + run_step.
      apply safe_print_errno_message; [apply handle_step_message| |exact I].
      run_step. reflexivity.
    + run_steps. cbn [negb Z.eqb].
      apply safe_print_errno_message; [apply handle_step_message| |exact I].
      run_steps. exact I.
  - assert (Hlist : forall e',
      safe handle_step (S n)
        ((r0 <- getNext w (Some (mk_DIR pend fin)) ;;
          dirents <- read_dirents w (length pend) (snd r0) (fst r0) [] ;;
          (let dirents0 := qsort dirents in
           stats0 <- entries_loop w recurse
                       (if Ascii.eqb c "/" then dn else dn ++ lit "/")
                       pstr flags (length dirents0) 0 dirents0 stats ;;
           closedir ;; ret stats0)) e')
        (on_ret (fun _ _ n' => n' = n))).
    { intros e'. eapply safe_read; [reflexivity|apply handles_listing|].
      cbv zeta. run_step.
      eapply safe_mono; [apply entries_loop_handles; exact Hrec|].
      intros [s1 e1| | |] n' Hn; simpl in Hn |- *; try exact I. subst n'.
      run_steps. reflexivity. }
    run_steps. apply safe_when; intros _.
    + apply safe_print_errno_message; [apply handle_step_message| |exact I].
      apply Hlist.
    + apply Hlist.
Qed.

Lemma processDir_handles (fuel : nat) : keeps_handles (processDir w v fuel).
Proof.
  induction fuel as [|fuel IH].
  - intros dn pstr stats flags e n. simpl. run_step. exact I.
  - simpl. apply processDir_body_handles, IH.
Qed.

End Handles.

Lemma bind_no_fault {A B} (m : M A) (f : A -> M B) (e : Z) :
  (m e).2 <> Fault ->
  (forall a e1, (m e).2 = Ret a e1 -> (f a e1).2 <> Fault) ->
  (bind m f e).2 <> Fault.
Proof.
  unfold bind. destruct (m e) as [t [a e1| | |]]; simpl; intros Hm Hf;
    try discriminate; [|contradiction].
  specialize (Hf a e1 eq_refl). destruct (f a e1) as [t2 o2]. exact Hf.
Qed.

Section NoFault.

Context (w : world).

Lemma print_errno_no_fault (pstr : cstr) (flags e : Z) :
  (print_errno pstr flags e).2 <> Fault.
Proof. destruct (print_errno_result pstr flags e) as [-> | ->]; discriminate. Qed.

Lemma print_verbose_no_fault (st : stat) (e : Z) :
  (print_verbose w st e).2 <> Fault.
Proof. destruct (print_verbose_result w st e) as [-> | ->]; discriminate. Qed.

Lemma entries_loop_no_fault recurse :
  never_faults recurse ->
  forall l new_dn pstr flags num i stats e,
    (entries_loop w recurse new_dn pstr flags num i l stats e).2 <> Fault.
Proof.
  intros Hrec l. induction l as [|ent rest IH];
    intros new_dn pstr flags num i stats e; cbn [entries_loop]; [discriminate|].
  apply bind_no_fault; [rewrite lstat_run; discriminate|]. intros i_stat e1 _.
  apply bind_no_fault; [discriminate|]. intros _ e2 _.
  apply bind_no_fault.
  { destruct (has_flag flags F_VERBOSE); [apply print_verbose_no_fault|discriminate]. }
  intros _ e3 _.
  apply bind_no_fault; [discriminate|]. intros _ e4 _.
  apply bind_no_fault; [|intros stats' e5 _; apply IH].
  destruct (S_ISDIR _); [|discriminate].
  apply Hrec. destruct (new_dn ++ d_name ent); discriminate.
Qed.

Lemma processDir_body_no_fault recurse :
  never_faults recurse -> never_faults (processDir_body w SrcFile recurse).
Proof.
  intros Hrec dn pstr stats flags e Hdn. unfold processDir_body.
  destruct (last dn) as [c|] eqn:Hlast; [|apply last_None in Hlast; contradiction].
  unfold bind at 1. unfold opendir.
  destruct (w_opendir w _) as [err|[pend fin]].
  - unfold bind at 1 2. unfold set_errno, emit, ret. cbn [app checks_handle].
    match goal with
    | |- (let (t2, o) := ?r in _).2 <> _ =>
        assert (H : r.2 <> Fault); [|destruct r; exact H]
    end.
    apply bind_no_fault; [apply print_errno_no_fault|discriminate].
  - unfold bind at 1. unfold emit, ret. cbn [app checks_handle].
    match goal with
    | |- (let (t2, o) := ?r in _).2 <> _ =>
        assert (H : r.2 <> Fault); [|destruct r; exact H]
    end.
    apply bind_no_fault; [discriminate|]. intros e0 e1 _.
    apply bind_no_fault.
    { destruct (negb (e0 =? 0)); [apply print_errno_no_fault|discriminate]. }
    intros _ e2 _. cbn [stream_length pending].
    rewrite read_directory by reflexivity.
    match goal with
    | |- (let (t, o) := ?r in _).2 <> _ =>
        assert (H : r.2 <> Fault); [|destruct r; exact H]
    end.
    cbv zeta. apply bind_no_fault; [apply entries_loop_no_fault, Hrec|].
    intros stats' e3 _. discriminate.
Qed.

Lemma processDir_no_fault (fuel : nat) : never_faults (processDir w SrcFile fuel).
Proof.
  induction fuel as [|fuel IH].
  - intros dn pstr stats flags e _. discriminate.
  - cbn [processDir]. apply processDir_body_no_fault, IH.
Qed.

End NoFault.



(** ** The flags of a command line *)

Lemma has_flag_lor_orb (x y f : Z) :
  has_flag (Z.lor x y) f = has_flag x f || has_flag y f.
Proof.
  unfold has_flag. rewrite Z.land_lor_distr_l.
  destruct (Z.eqb_spec (Z.land x f) 0) as [Hx|Hx],
           (Z.eqb_spec (Z.land y f) 0) as [Hy|Hy]; simpl;
    destruct (Z.eqb_spec (Z.lor (Z.land x f) (Z.land y f)) 0) as [H|H];
    try reflexivity; try (apply Z.lor_eq_0_iff in H; tauto).
  exfalso. apply H. rewrite Hx, Hy. reflexivity.
Qed.

Lemma has_flag_flags_with_orb (flags : Z) (args : list cstr) (f : Z) :
  has_flag (flags_with flags args) f =
  has_flag flags f || existsb (fun arg => has_flag (flag_of arg) f) args.
Proof.
  revert flags. induction args as [|arg rest IH]; intros flags; unfold flags_with in *.
  - simpl. rewrite orb_false_r. reflexivity.
  - simpl. rewrite IH, has_flag_lor_orb, orb_assoc. reflexivity.
Qed.

Lemma strcmp_options_differ (arg a b : cstr) :
  strcmp a b <> 0 -> strcmp arg a = 0 -> (strcmp arg b =? 0) = false.
Proof.
  intros Hab Ha. apply Z.eqb_neq. intros Hb. apply Hab.
  exact (strcmp_zero_common arg a b Ha Hb).
Qed.

Lemma flag_of_option (arg : cstr) :
  has_flag (flag_of arg) F_TREE = is_option arg && (strcmp arg (lit "-t") =? 0) /\
  has_flag (flag_of arg) F_SUMMARY = is_option arg && (strcmp arg (lit "-s") =? 0) /\
  has_flag (flag_of arg) F_VERBOSE = is_option arg && (strcmp arg (lit "-v") =? 0).
Proof.
  unfold flag_of. destruct (is_option arg); [|repeat split; reflexivity]. simpl.
  destruct (Z.eqb_spec (strcmp arg (lit "-t")) 0) as [Ht|Ht].
  { rewrite (strcmp_options_differ arg (lit "-t") (lit "-s")) by (assumption || discriminate).
    rewrite (strcmp_options_differ arg (lit "-t") (lit "-v")) by (assumption || discriminate).
    repeat split; reflexivity. }
  destruct (Z.eqb_spec (strcmp arg (lit "-s")) 0) as [Hs|Hs].
  { rewrite (strcmp_options_differ arg (lit "-s") (lit "-v")) by (assumption || discriminate).
    repeat split; reflexivity. }
  destruct (Z.eqb_spec (strcmp arg (lit "-v")) 0) as [Hv|Hv]; repeat split; reflexivity.
Qed.

Lemma has_flag_option_given (argv : list cstr) :
  has_flag (flags_with 0 (tl argv)) F_TREE = option_given (lit "-t") argv /\
  has_flag (flags_with 0 (tl argv)) F_SUMMARY = option_given (lit "-s") argv /\
  has_flag (flags_with 0 (tl argv)) F_VERBOSE = option_given (lit "-v") argv.
Proof.
  unfold option_given. rewrite !has_flag_flags_with_orb.
  change (has_flag 0 F_TREE) with false. change (has_flag 0 F_SUMMARY) with false.
  change (has_flag 0 F_VERBOSE) with false. cbn [orb].
  induction (tl argv) as [|arg rest (IHt & IHs & IHv)]; [repeat split; reflexivity|].
  destruct (flag_of_option arg) as (Ht & Hs & Hv).
  cbn [existsb]. rewrite Ht, Hs, Hv, IHt, IHs, IHv. repeat split; reflexivity.
Qed.

(** X18: on a command line whose options are all among [-t], [-s] and
    [-v], the argument loop returns, and each of the three flags is set
    exactly when its option occurs, wherever it stands among the paths and
    however often; the directories are the first 64 paths, in order. *)
Theorem parse_args_flags_are_options (argv : list cstr) (errno : Z) :
  options_valid argv = true ->
  exists flags directories,
    parse_args (hd [] argv) (tl argv) 0 [] errno =
      (map EWarning (drop MAX_DIR (roots_given argv)),
       Ret (flags, directories) errno) /\
    has_flag flags F_TREE = option_given (lit "-t") argv /\
    has_flag flags F_SUMMARY = option_given (lit "-s") argv /\
    has_flag flags F_VERBOSE = option_given (lit "-v") argv /\
    directories = take MAX_DIR (roots_given argv).
Proof.
  intros Hvalid. exists (flags_with 0 (tl argv)). eexists.
  split; [rewrite parse_args_valid by exact Hvalid; reflexivity|].
  destruct (has_flag_option_given argv) as (Ht & Hs & Hv).
  repeat split; assumption.
Qed.

Lemma parse_args_flags_are_options_witness :
  exists flags directories,
    parse_args (lit "dirtree") [lit "t"; lit "-s"; lit "-s"; lit "u"; lit "-t"] 0 [] 0 =
      ([], Ret (flags, directories) 0) /\
    has_flag flags F_TREE = true /\
    has_flag flags F_SUMMARY = true /\
    has_flag flags F_VERBOSE = false /\
    directories = [lit "t"; lit "u"].
Proof.
  exact (parse_args_flags_are_options
           [lit "dirtree"; lit "t"; lit "-s"; lit "-s"; lit "u"; lit "-t"] 0 eq_refl).
Defined.

(** ** An option that is not recognized *)

Lemma parse_args_app (argv0 : cstr) (pre rest : list cstr) (flags : Z)
    (dirs : list cstr) (e : Z) :
  valid_args pre = true ->
  parse_args argv0 (pre ++ rest) flags dirs e =
  let (t, o) := parse_args argv0 rest (flags_with flags pre)
                  (dirs ++ take (MAX_DIR - length dirs) (positionals pre)) e in
  (map EWarning (drop (MAX_DIR - length dirs) (positionals pre)) ++ t, o).
Proof.
  revert flags dirs. induction pre as [|arg pre IH]; intros flags dirs Hvalid.
  - cbn [app positionals List.filter flags_with foldl].
    rewrite take_nil, drop_nil, app_nil_r.
    destruct (parse_args argv0 rest flags dirs e). reflexivity.
  - simpl in Hvalid. apply andb_prop in Hvalid as [Harg Hpre].
    unfold positionals, flags_with in *. cbn [app parse_args List.filter foldl].
    unfold flag_of. fold (is_option arg) in *.
    destruct (is_option arg) eqn:Hopt; cbn [negb orb] in Harg |- *.
    + destruct (strcmp arg (lit "-t") =? 0); [apply IH, Hpre|].
      destruct (strcmp arg (lit "-s") =? 0); [apply IH, Hpre|].
      destruct (strcmp arg (lit "-v") =? 0); [apply IH, Hpre|].
      discriminate Harg.
    + rewrite Z.lor_0_r.
      destruct (length dirs <? MAX_DIR)%nat eqn:Hlen.
      * apply Nat.ltb_lt in Hlen. rewrite IH by exact Hpre.
        rewrite length_app. simpl length.
        destruct (MAX_DIR - length dirs)%nat as [|k] eqn:Hk; [lia|].
        replace (MAX_DIR - (length dirs + 1))%nat with k by lia.
        cbn [take drop]. rewrite <- app_assoc. reflexivity.
      * apply Nat.ltb_ge in Hlen.
        unfold bind at 1. unfold emit. rewrite IH by exact Hpre.
        replace (MAX_DIR - length dirs)%nat with 0%nat by lia.
        cbn [take drop]. rewrite !app_nil_r.
        destruct (parse_args argv0 rest _ dirs e) as [t [p e1| | |]]; reflexivity.
Qed.

(** X19: an argument that starts with "-" and is none of [-t], [-s] and
    [-v] ends the run before any directory is looked at, even those named
    before it: [main] writes the warnings for the paths beyond the 64th
    that precede the argument, then for [-h] the usage text, and for any
    other argument the message "Unrecognized option" with the argument, a
    blank line and the usage text; the process exits with [EXIT_FAILURE],
    for [-h] as well. *)
Theorem main_rejects_unknown_option
    (w : world) (v : variant) (fuel : nat) (argv0 : cstr)
    (pre : list cstr) (bad : cstr) (post : list cstr) (errno : Z) :
  valid_args pre = true ->
  is_option bad = true ->
  strcmp bad (lit "-t") <> 0 -> strcmp bad (lit "-s") <> 0 ->
  strcmp bad (lit "-v") <> 0 ->
  main w v fuel (argv0 :: pre ++ bad :: post) errno =
  (map EWarning (drop MAX_DIR (positionals pre)) ++
   (if strcmp bad (lit "-h") =? 0 then []
    else [EStderr (lit "Unrecognized option '" ++ bad ++ lit "'."); EBlank]) ++
   [EUsage argv0],
   Exit EXIT_FAILURE).
Proof.
  intros Hpre Hopt Ht Hs Hv. unfold main. cbn [hd tl].
  unfold bind at 1. rewrite parse_args_app by exact Hpre.
  cbn [parse_args length]. fold (is_option bad). rewrite Hopt.
  apply Z.eqb_neq in Ht, Hs, Hv. rewrite Ht, Hs, Hv. rewrite Nat.sub_0_r.
  destruct (strcmp bad (lit "-h") =? 0); reflexivity.
Qed.

Lemma main_rejects_unknown_option_witness :
  main Demo.fs SrcFile 5 [lit "dirtree"; lit "t"; lit "-x"; lit "t"] 0 =
  ([EStderr (lit "Unrecognized option '-x'."); EBlank; EUsage (lit "dirtree")],
   Exit EXIT_FAILURE) /\
  main Demo.fs SrcFile 5 [lit "dirtree"; lit "t"; lit "-h"] 0 =
  ([EUsage (lit "dirtree")], Exit EXIT_FAILURE).
Proof.
  split.
  - exact (main_rejects_unknown_option Demo.fs SrcFile 5 (lit "dirtree")
             [lit "t"] (lit "-x") [lit "t"] 0 eq_refl eq_refl
             ltac:(discriminate) ltac:(discriminate) ltac:(discriminate)).
  - exact (main_rejects_unknown_option Demo.fs SrcFile 5 (lit "dirtree")
             [lit "t"] (lit "-h") [] 0 eq_refl eq_refl
             ltac:(discriminate) ltac:(discriminate) ltac:(discriminate)).
Defined.

(** ** The default root *)

Lemma main_default_root_witness :
  main Demo.fs SrcFile 5 [lit "dirtree"; lit "-t"] 0 =
  main Demo.fs SrcFile 5 [lit "dirtree"; lit "-t"; lit "."] 0.
Proof.
  exact (main_default_root Demo.fs SrcFile 5 (lit "dirtree") [lit "-t"] 0
           eq_refl eq_refl).
Defined.

(** ** A root of no characters *)

(** X21, for both files: when the first path on the command line is
    the empty string, [processDir] is called on it, and the first thing it
    does is read [dn[strlen(dn) - 1]], that is [dn[-1]], outside the
    string: undefined behaviour. Before that read [main] has written the
    warnings, the column titles (with the summary flag) and the line of
    the root, and nothing else. [Fault] marks the read; what the program
    does after it is not determined by the source, and not stated here. *)
Theorem main_empty_root_faults
    (w : world) (v : variant) (fuel : nat) (argv : list cstr) (errno : Z) :
  options_valid argv = true ->
  head (roots_given argv) = Some [] ->
  main w v (S fuel) argv errno =
  let flags := flags_with 0 (tl argv) in
  (map EWarning (drop MAX_DIR (roots_given argv)) ++
   (if has_flag flags F_SUMMARY
    then [EHeader (has_flag flags F_VERBOSE); ERule] else []) ++
   [ERoot []],
   Fault).
Proof.
  intros Hvalid Hhead.
  assert (Hparse : parse_args (hd [] argv) (tl argv) 0 [] errno =
                   (map EWarning (drop MAX_DIR (roots_given argv)),
                    Ret (flags_with 0 (tl argv), take MAX_DIR (roots_given argv))
                        errno)).
  { rewrite parse_args_valid by exact Hvalid. reflexivity. }
  unfold main. rewrite (bind_run _ _ _ _ _ _ Hparse). cbn [fst snd].
  destruct (roots_given argv) as [|root rest]; [discriminate Hhead|].
  injection Hhead as ->.
  cbn [take MAX_DIR length Nat.eqb]. cbv zeta. cbn [roots_loop].
  destruct (has_flag (flags_with 0 (tl argv)) F_SUMMARY); reflexivity.
Qed.

Lemma main_empty_root_faults_witness :
  main Demo.fs SrcFile 1 [lit "dirtree"; []; lit "t"] 0 = ([ERoot []], Fault).
Proof.
  exact (main_empty_root_faults Demo.fs SrcFile 0 [lit "dirtree"; []; lit "t"] 0
           eq_refl eq_refl).
Defined.

(** ** Runs of [main] *)

Lemma safe_parse_args {St} (step : St -> event -> option St) (s : St)
    (argv0 : cstr) (args : list cstr) (e : Z)
    (Q : outcome (Z * list cstr) -> St -> Prop) :
  (forall ev, is_cli_event ev = true -> step s ev = Some s) ->
  (valid_args args = true ->
   Q (Ret (flags_with 0 args, take MAX_DIR (positionals args)) e) s) ->
  Q (Exit EXIT_FAILURE) s ->
  safe step s (parse_args argv0 args 0 [] e) Q.
Proof.
  intros Hstep HR HE. unfold safe.
  rewrite (scan_cli_events step s); [|apply parse_args_cli_events|exact Hstep].
  destruct (valid_args args) eqn:Hvalid.
  - rewrite parse_args_valid by exact Hvalid. apply HR. reflexivity.
  - rewrite parse_args_invalid by exact Hvalid. exact HE.
Qed.

(** *** Without the summary flag *)

Lemma plain_dir_event (flags : Z) (s : unit) (ev : event) :
  dir_event flags ev ->
  check_step (fun ev => is_summary_event ev = false) s ev = Some s.
Proof.
  destruct s. intros Hev. apply check_step_holds.
  destruct ev; simpl in Hev |- *; try discriminate Hev; reflexivity.
Qed.

Lemma plain_cli_event (s : unit) (ev : event) :
  is_cli_event ev = true ->
  check_step (fun ev => is_summary_event ev = false) s ev = Some s.
Proof.
  destruct s. intros Hev. apply check_step_holds.
  destruct ev; simpl in Hev |- *; try discriminate Hev; reflexivity.
Qed.

Section Plain.

Context (w : world) (v : variant) (fuel : nat).

Lemma roots_loop_plain (flags : Z) :
  has_flag flags F_SUMMARY = false ->
  forall directories tstat e,
    safe (check_step (fun ev => is_summary_event ev = false)) tt
      (roots_loop w v fuel flags directories tstat e) (fun _ _ => True).
Proof.
  intros Hs directories. induction directories as [|root rest IH];
    intros tstat e; simpl.
  - run_step. exact I.
  - run_step. apply safe_when; intros Hw; [congruence|].
    run_step. emit_checked.
    run_step. apply safe_processDir; [apply plain_dir_event|].
    destruct (processDir w v fuel root [] summary_zero flags e).2
      as [dstat e1| | |]; try exact I.
    rewrite Hs. run_step. run_step. apply IH.
Qed.

Lemma main_plain (argv : list cstr) (e : Z) :
  has_flag (flags_with 0 (tl argv)) F_SUMMARY = false ->
  safe (check_step (fun ev => is_summary_event ev = false)) tt
    (main w v fuel argv e) (fun _ _ => True).
Proof.
  intros Hs. unfold main. run_step.
  apply safe_parse_args; [apply plain_cli_event| |exact I].
  intros _. cbn [fst snd]. run_step.
  eapply safe_mono; [apply roots_loop_plain; exact Hs|].
  intros [t e1| | |] [] _; try exact I.
  rewrite Hs. cbn [andb]. run_steps. exact I.
Qed.

End Plain.

(** X23: on a command line without [-s], [main] writes no column
    titles, no rule, no summary and no grand total. *)
Theorem main_no_summary_unless_asked
    (w : world) (v : variant) (fuel : nat) (argv : list cstr) (errno : Z) :
  option_given (lit "-s") argv = false ->
  Forall (fun ev => is_summary_event ev = false) (main w v fuel argv errno).1.
Proof.
  intros Hs.
  destruct (has_flag_option_given argv) as (_ & Hflag & _). rewrite Hs in Hflag.
  pose proof (main_plain w v fuel argv errno Hflag) as H.
  unfold safe in H.
  destruct (scan _ tt _) as [[]|] eqn:E; [|contradiction].
  apply scan_check in E. exact E.
Qed.

Lemma main_no_summary_unless_asked_witness :
  Forall (fun ev => is_summary_event ev = false)
    (main Demo.fs SrcFile 5 (Demo.command_line [lit "-t"; lit "-v"] 2) 0).1.
Proof.
  exact (main_no_summary_unless_asked Demo.fs SrcFile 5
           (Demo.command_line [lit "-t"; lit "-v"] 2) 0 eq_refl).
Defined.

(** *** The summaries printed *)

Lemma account_step_cli_event (w : world) (s : summary) (ev : event) :
  is_cli_event ev = true -> account_step w s ev = Some s.
Proof. destruct ev; simpl; intros H; try discriminate H; reflexivity. Qed.

Section Accounted.

Context (w : world) (v : variant) (fuel : nat).

Lemma roots_loop_account (flags : Z) :
  forall directories tstat e s,
    safe (account_step w) s (roots_loop w v fuel flags directories tstat e)
      (fun _ _ => True).
Proof.
  intros directories. induction directories as [|root rest IH];
    intros tstat e s; simpl.
  - run_step. exact I.
  - assert (Hdir : forall e',
      safe (account_step w) summary_zero
        ((dstat <- processDir w v fuel root [] summary_zero flags ;;
          tstat0 <- (if has_flag flags F_SUMMARY
                     then emit ERule ;;
                          emit (ESummary (has_flag flags F_VERBOSE) dstat) ;;
                          ret (add_summary tstat dstat)
                     else ret tstat) ;;
          roots_loop w v fuel flags rest tstat0) e')
        (fun _ _ => True)).
    { intros e'. run_step.
      eapply safe_mono; [apply processDir_account|].
      intros [dstat e1| | |] s' Hs'; simpl in Hs'; try exact I. subst s'.
      run_step. destruct (has_flag flags F_SUMMARY).
      - run_step. run_step. run_step.
        eapply safe_emit; [simpl; rewrite decide_True by reflexivity; reflexivity|].
        run_step. apply IH.
      - run_step. apply IH. }
    run_step. apply safe_when; intros _.
    + run_step. run_step. run_step. run_step. apply Hdir.
    + run_step. run_step. apply Hdir.
Qed.

Lemma main_account (argv : list cstr) (e : Z) (s : summary) :
  safe (account_step w) s (main w v fuel argv e) (fun _ _ => True).
Proof.
  unfold main. run_step.
  apply safe_parse_args; [apply account_step_cli_event| |exact I].
  intros _. cbn [fst snd]. run_step.
  eapply safe_mono; [apply roots_loop_account|].
  intros [t e1| | |] s' _; try exact I.
  run_step. apply safe_when; intros _; run_steps; exact I.
Qed.

End Accounted.

(** X24: every summary [main] prints is [update_stats] applied, from
    zero, to the results of the calls of [lstat] made since the line of the
    root it follows: each root is counted on its own. *)
Theorem main_summaries_count_their_root
    (w : world) (v : variant) (fuel : nat) (argv : list cstr) (errno : Z) :
  is_Some (scan (account_step w) summary_zero (main w v fuel argv errno).1).
Proof.
  pose proof (main_account w v fuel argv errno summary_zero) as H.
  unfold safe in H.
  destruct (scan _ _ _) as [s'|]; [eexists; reflexivity|contradiction].
Qed.

(** *** A root that cannot be opened *)

(** X22, for the file [src/dirtree.c]: given a single path whose
    directory cannot be opened for one of the three conditions, [main]
    writes the line of the root and the error line below it on standard
    output (framed, with the summary flag, by the column titles and by a
    summary of zeros) and returns [EXIT_SUCCESS]: the failure does not show
    in the exit status. *)
Theorem main_unreadable_root_succeeds
    (w : world) (fuel : nat) (argv : list cstr) (root : cstr) (errno : Z)
    (err : positive) (msg : cstr) :
  options_valid argv = true -> roots_given argv = [root] -> root <> [] ->
  w_opendir w (normalized root) = inl err ->
  open_error_text (Z.pos err) = Some msg ->
  main w SrcFile (S fuel) argv errno =
  let flags := flags_with 0 (tl argv) in
  ((if has_flag flags F_SUMMARY
    then [EHeader (has_flag flags F_VERBOSE); ERule] else []) ++
   [ERoot root; EOpendir (normalized root) (Some err);
    EErrorLine (gen_tree_shape true flags []) msg] ++
   (if has_flag flags F_SUMMARY
    then [ERule; ESummary (has_flag flags F_VERBOSE) summary_zero] else []),
   Ret EXIT_SUCCESS (Z.pos err)).
Proof.
  intros Hvalid Hroots Hroot Hopen Hmsg.
  assert (Hparse : parse_args (hd [] argv) (tl argv) 0 [] errno =
                   ([], Ret (flags_with 0 (tl argv), [root]) errno)).
  { rewrite parse_args_valid by exact Hvalid.
    unfold roots_given in Hroots. rewrite Hroots. reflexivity. }
  unfold main. rewrite (bind_run _ _ _ _ _ _ Hparse). cbn [fst snd length Nat.eqb].
  pose proof (fun e => processDir_open_failure_recovered w fuel root []
                summary_zero (flags_with 0 (tl argv)) e err msg Hroot Hopen Hmsg)
    as Hrun.
  cbv zeta. cbn [roots_loop Nat.ltb Nat.leb andb].
  rewrite andb_false_r.
  destruct (has_flag (flags_with 0 (tl argv)) F_SUMMARY);
    unfold bind, when, emit, ret; rewrite Hrun; reflexivity.
Qed.

Lemma main_unreadable_root_succeeds_witness :
  main Demo.fs SrcFile 1 [lit "dirtree"; lit "-s"; lit "missing"] 0 =
  ([EHeader false; ERule; ERoot (lit "missing");
    EOpendir (lit "missing/") (Some 2%positive);
    EErrorLine (lit "  ") (lit "ERROR: No such file or directory");
    ERule; ESummary false summary_zero],
   Ret EXIT_SUCCESS 2).
Proof.
  exact (main_unreadable_root_succeeds Demo.fs 0
           [lit "dirtree"; lit "-s"; lit "missing"] (lit "missing") 0
           2%positive (lit "ERROR: No such file or directory")
           eq_refl eq_refl ltac:(discriminate) eq_refl eq_refl).
Defined.

(** *** The ways [main] ends *)

Section MainEnds.

Context (w : world) (v : variant) (bound fuel : nat).

Lemma roots_loop_ends (flags : Z) :
  path_bounded w bound -> (bound + 3 <= fuel)%nat ->
  forall directories, Forall (fun root => root <> []) directories ->
  forall tstat e,
    safe idle_step tt (roots_loop w v fuel flags directories tstat e)
      (fun o _ => ends_well v o).
Proof.
  intros Hbound Hfuel directories Hdirs.
  induction Hdirs as [|root rest Hroot _ IH]; intros tstat e; simpl.
  - run_step. exact I.
  - assert (Hdir : forall e',
      safe idle_step tt
        ((dstat <- processDir w v fuel root [] summary_zero flags ;;
          tstat0 <- (if has_flag flags F_SUMMARY
                     then emit ERule ;;
                          emit (ESummary (has_flag flags F_VERBOSE) dstat) ;;
                          ret (add_summary tstat dstat)
                     else ret tstat) ;;
          roots_loop w v fuel flags rest tstat0) e')
        (fun o _ => ends_well v o)).
    { intros e'. run_step. apply safe_idle.
      pose proof (processDir_terminates w v bound fuel Hbound root []
                    summary_zero flags e' Hroot ltac:(lia) ltac:(lia)) as Hend.
      destruct (processDir w v fuel root [] summary_zero flags e')
        as [t [dstat e1| | |]]; simpl in Hend |- *; try exact Hend.
      run_step. destruct (has_flag flags F_SUMMARY).
      - run_steps. apply IH.
      - run_step. apply IH. }
    run_step. apply safe_when; intros _; run_until Hdir.
Qed.

End MainEnds.

(** X26: on a system where paths beyond a length cannot be opened,
    [main] ends on every command line whose paths are not empty: it returns
    [EXIT_SUCCESS], or the process exits with [EXIT_FAILURE], or, in the
    file that uses the handle without looking at it, the run reads a NULL
    handle. *)
Theorem main_ends
    (w : world) (v : variant) (bound fuel : nat) (argv : list cstr) (errno : Z) :
  path_bounded w bound -> (bound + 3 <= fuel)%nat ->
  Forall (fun root => root <> []) (roots_given argv) ->
  match (main w v fuel argv errno).2 with
  | Ret status _ => status = EXIT_SUCCESS
  | Exit status => status = EXIT_FAILURE
  | Fault => v = RootFile
  | OutOfFuel => False
  end.
Proof.
  intros Hbound Hfuel Hroots.
  apply (safe_idle _ (fun o _ => match o with
                                 | Ret status _ => status = EXIT_SUCCESS
                                 | Exit status => status = EXIT_FAILURE
                                 | Fault => v = RootFile
                                 | OutOfFuel => False
                                 end)).
  unfold main. run_step.
  apply safe_parse_args; [intros; reflexivity| |reflexivity].
  intros _. cbn [fst snd]. run_step.
  eapply safe_mono.
  - apply (roots_loop_ends w v bound fuel _ Hbound Hfuel).
    destruct (length (take MAX_DIR (positionals (tl argv))) =? 0)%nat.
    + repeat constructor. discriminate.
    + apply Forall_take. exact Hroots.
  - intros [t e1| | |] [] Hend; simpl in Hend |- *; try exact Hend.
    run_step. apply safe_when; intros _; run_steps; reflexivity.
Qed.

Lemma main_ends_witness :
  (main Demo.fs SrcFile 7 (Demo.command_line [lit "-s"] 2) 0).2 = Ret EXIT_SUCCESS 13.
Proof.
  pose proof (main_ends Demo.fs SrcFile 4 7 (Demo.command_line [lit "-s"] 2) 0
                demo_fs_bounded ltac:(simpl; lia)
                ltac:(repeat constructor; discriminate)) as H.
  destruct (main Demo.fs SrcFile 7 (Demo.command_line [lit "-s"] 2) 0).2
    as [status e'| | |] eqn:E; try (vm_compute in E; discriminate E).
  rewrite H. vm_compute in E. injection E as _ <-. reflexivity.
Defined.

(** ** The number the grand total announces *)

Lemma announce_step_dir_event (flags : Z) (n : nat) (ev : event) :
  dir_event flags ev -> announce_step n ev = Some n.
Proof. destruct ev; simpl; intros H; try discriminate H; reflexivity. Qed.

Lemma announce_step_cli_event (n : nat) (ev : event) :
  is_cli_event ev = true -> announce_step n ev = Some n.
Proof. destruct ev; simpl; intros H; try discriminate H; reflexivity. Qed.

Section Announce.

Context (w : world) (v : variant) (fuel : nat).

Lemma roots_loop_announce (flags : Z) :
  forall directories tstat e n,
    safe announce_step n (roots_loop w v fuel flags directories tstat e)
      (on_ret (fun _ _ n' => n' = (n + length directories)%nat)).
Proof.
  intros directories. induction directories as [|root rest IH];
    intros tstat e n; simpl.
  - run_step. simpl. lia.
  - assert (Hdir : forall e',
      safe announce_step (S n)
        ((dstat <- processDir w v fuel root [] summary_zero flags ;;
          tstat0 <- (if has_flag flags F_SUMMARY
                     then emit ERule ;;
                          emit (ESummary (has_flag flags F_VERBOSE) dstat) ;;
                          ret (add_summary tstat dstat)
                     else ret tstat) ;;
          roots_loop w v fuel flags rest tstat0) e')
        (on_ret (fun _ _ n' => n' = (n + S (length rest))%nat))).
    { intros e'. run_step.
      apply safe_processDir; [apply announce_step_dir_event|].
      destruct (processDir w v fuel root [] summary_zero flags e').2
        as [dstat e1| | |]; try exact I.
      assert (Hrest : forall tstat' e'',
        safe announce_step (S n) (roots_loop w v fuel flags rest tstat' e'')
          (on_ret (fun _ _ n' => n' = (n + S (length rest))%nat))).
      { intros tstat' e''. eapply safe_mono; [apply IH|].
        intros [t e2| | |] n' Hn; simpl in Hn |- *; try exact I. lia. }
      run_step. destruct (has_flag flags F_SUMMARY).
      - run_steps. apply Hrest.
      - run_step. apply Hrest. }
    run_step. apply safe_when; intros _; run_until Hdir.
Qed.

Lemma main_announce (argv : list cstr) (e : Z) :
  safe announce_step 0%nat (main w v fuel argv e) (fun _ _ => True).
Proof.
  unfold main. run_step.
  apply safe_parse_args; [apply announce_step_cli_event| |exact I].
  intros _. cbn [fst snd]. run_step.
  eapply safe_mono; [apply roots_loop_announce|].
  intros [t e1| | |] n' Hn; simpl in Hn |- *; try exact I. subst n'.
  run_step. apply safe_when; intros Hmany; [|run_step; exact I].
  apply andb_prop in Hmany as [_ Hmany]. apply Nat.ltb_lt in Hmany.
  eapply safe_emit; [|exact I].
  cbn [announce_step]. rewrite decide_True by (split; [reflexivity|exact Hmany]).
  reflexivity.
Qed.

End Announce.

(** X27: the number of directories the grand total announces is the
    number of root lines [main] has written, and it is above one. *)
Theorem grand_total_announces_roots_traversed
    (w : world) (v : variant) (fuel : nat) (argv : list cstr) (errno : Z) :
  is_Some (scan announce_step 0%nat (main w v fuel argv errno).1).
Proof.
  pose proof (main_announce w v fuel argv errno) as H.
  unfold safe in H.
  destruct (scan _ _ _) as [n|]; [eexists; reflexivity|contradiction].
Qed.

(** ** The order of a listing *)

Lemma dirent_le_names (a b : dirent) :
  nul_free (d_name a) -> nul_free (d_name b) ->
  dirent_le a b -> dirent_le b a -> d_name a = d_name b.
Proof.
  intros Ha Hb Hab Hba. apply dirent_compare_zero_names; [exact Ha|exact Hb|].
  destruct dirent_compare_total as (_ & _ & Hflip & _).
  unfold dirent_le in *. specialize (Hflip a b). lia.
Qed.

Lemma sorted_arrangement_unique (l1 l2 : list dirent) :
  NoDup (map d_name l1) -> Forall (fun e => nul_free (d_name e)) l1 ->
  l1 ≡ₚ l2 ->
  StronglySorted dirent_le l1 -> StronglySorted dirent_le l2 -> l1 = l2.
Proof.
  revert l2. induction l1 as [|x l1 IH]; intros l2 Hnames Hnul Hperm Hs1 Hs2.
  - apply Permutation_nil_l in Hperm. congruence.
  - destruct l2 as [|y l2]; [apply Permutation_nil_r in Hperm; discriminate|].
    apply NoDup_cons in Hnames as [Hx Hnames].
    apply Forall_cons in Hnul as [Hxn Hnul].
    apply StronglySorted_inv in Hs1 as [Hs1 Hx1].
    apply StronglySorted_inv in Hs2 as [Hs2 Hy2].
    assert (Hxy : x = y).
    { assert (Hin2 : x ∈ y :: l2) by (rewrite <- Hperm; left).
      assert (Hin1 : y ∈ x :: l1) by (rewrite Hperm; left).
      apply elem_of_cons in Hin2 as [Heq|Hin2]; [exact Heq|].
      apply elem_of_cons in Hin1 as [Heq|Hin1]; [symmetry; exact Heq|].
      exfalso. apply Hx.
      rewrite Forall_forall in Hx1, Hy2, Hnul.
      rewrite (dirent_le_names x y Hxn (Hnul y Hin1) (Hx1 y Hin1) (Hy2 x Hin2)).
      apply list_elem_of_fmap. exists y. split; [reflexivity|exact Hin1]. }
    subst y. f_equal. apply IH; try assumption.
    eapply Permutation_cons_inv. exact Hperm.
Qed.

(** X28: when the names of the entries read are pairwise different, as
    they are in a directory, there is one arrangement of them sorted by
    [dirent_compare], and it is the array after [qsort]: the order of the
    lines does not depend on the order in which [readdir] delivered the
    entries, nor on how [qsort] treats entries that compare equal, as no
    two do. *)
Theorem listing_order_is_determined (l l' : list dirent) :
  NoDup (map d_name l) -> Forall (fun e => nul_free (d_name e)) l ->
  l' ≡ₚ l -> StronglySorted dirent_le l' -> l' = qsort l.
Proof.
  intros Hnames Hnul Hperm Hsorted.
  apply sorted_arrangement_unique.
  - rewrite Hperm. exact Hnames.
  - rewrite Hperm. exact Hnul.
  - rewrite Hperm, qsort_perm. reflexivity.
  - exact Hsorted.
  - apply qsort_sorted.
Qed.

Lemma listing_order_is_determined_witness :
  qsort [Demo.ent_b; Demo.ent_noaccess; Demo.ent_a] =
  qsort [Demo.ent_noaccess; Demo.ent_a; Demo.ent_b].
Proof.
  apply (listing_order_is_determined [Demo.ent_noaccess; Demo.ent_a; Demo.ent_b]).
  - repeat (constructor; [rewrite ?elem_of_cons, elem_of_nil; vm_compute; intuition discriminate|]).
    constructor.
  - repeat constructor; discriminate.
  - rewrite qsort_perm. apply Permutation_cons_append.
  - apply qsort_sorted.
Defined.

(** ** A path with or without its final slash *)

(** X29, for both files: [processDir] runs on a path that is not empty
    and on the same path followed by a slash in the same way, as it works
    on the path with the slash in both cases. *)
Theorem processDir_trailing_slash
    (w : world) (v : variant) (fuel : nat) (dn pstr : cstr) (stats : summary)
    (flags errno : Z) :
  dn <> [] ->
  processDir w v fuel (normalized dn) pstr stats flags errno =
  processDir w v fuel dn pstr stats flags errno.
Proof.
  intros Hdn. destruct fuel as [|fuel]; [reflexivity|].
  cbn [processDir]. unfold processDir_body, normalized.
  destruct (last dn) as [c|] eqn:Hlast; [|apply last_None in Hlast; contradiction].
  destruct (Ascii.eqb c "/") eqn:Hc.
  - rewrite Hlast, Hc. reflexivity.
  - change (lit "/") with ["/"%char]. rewrite last_snoc.
    change (Ascii.eqb "/" "/") with true. cbv iota. reflexivity.
Qed.

Lemma processDir_trailing_slash_witness :
  processDir Demo.fs SrcFile 5 (lit "t/") [] summary_zero F_TREE 0 =
  processDir Demo.fs SrcFile 5 (lit "t") [] summary_zero F_TREE 0.
Proof.
  exact (processDir_trailing_slash Demo.fs SrcFile 5 (lit "t") [] summary_zero
           F_TREE 0 ltac:(discriminate)).
Defined.

(** ** The two files *)

Lemma bind_agree {A B} (m m' : M A) (f g : A -> M B) (e : Z) (P : event -> Prop) :
  Forall P (bind m f e).1 ->
  (Forall P (m e).1 -> m' e = m e) ->
  (forall a e1, Forall P (f a e1).1 -> g a e1 = f a e1) ->
  bind m' g e = bind m f e.
Proof.
  unfold bind. intros Hall Hm Hf.
  destruct (m e) as [t [a e1| | |]] eqn:Hrun; simpl in *;
    try (rewrite Hm by exact Hall; reflexivity).
  destruct (f a e1) as [t2 o2] eqn:Hk. simpl in Hall.
  apply Forall_app in Hall as [Ht Ht2].
  rewrite (Hm Ht), (Hf a e1); rewrite Hk; [reflexivity|exact Ht2].
Qed.

Lemma bind_agree_run {A B} (m : M A) (f g : A -> M B) (e : Z) (P : event -> Prop) :
  Forall P (bind m f e).1 ->
  (forall t a e1, m e = (t, Ret a e1) -> Forall P t -> Forall P (f a e1).1 ->
                  g a e1 = f a e1) ->
  bind m g e = bind m f e.
Proof.
  unfold bind. intros Hall Hf.
  destruct (m e) as [t [a e1| | |]] eqn:Hrun; simpl in *; try reflexivity.
  destruct (f a e1) as [t2 o2] eqn:Hk. simpl in Hall.
  apply Forall_app in Hall as [Ht Ht2].
  rewrite (Hf t a e1 eq_refl Ht); rewrite Hk; [reflexivity|exact Ht2].
Qed.

Lemma bind_agree_r {A B} (m : M A) (f g : A -> M B) (e : Z) (P : event -> Prop) :
  Forall P (bind m f e).1 ->
  (forall a e1, Forall P (f a e1).1 -> g a e1 = f a e1) ->
  bind m g e = bind m f e.
Proof. intros Hall Hf. eapply bind_agree; [exact Hall|reflexivity|exact Hf]. Qed.

Section Agree.

Context (w : world).

Lemma entries_loop_agree (f g : dir_function) :
  agree f g ->
  forall l new_dn pstr flags num i stats e,
    Forall (fun ev => is_open_failure ev = false)
      (entries_loop w f new_dn pstr flags num i l stats e).1 ->
    entries_loop w g new_dn pstr flags num i l stats e =
    entries_loop w f new_dn pstr flags num i l stats e.
Proof.
  intros Hfg l. induction l as [|ent rest IH];
    intros new_dn pstr flags num i stats e Hall; [reflexivity|].
  cbn [entries_loop] in Hall |- *.
  eapply bind_agree_r; [exact Hall|]. intros i_stat e1 H1.
  eapply bind_agree_r; [exact H1|]. intros _ e2 H2.
  eapply bind_agree_r; [exact H2|]. intros _ e3 H3.
  eapply bind_agree_r; [exact H3|]. intros _ e4 H4.
  eapply bind_agree; [exact H4| |].
  - intros Hsub. destruct (S_ISDIR _); [apply Hfg, Hsub|reflexivity].
  - intros stats' e5 H5. apply IH, H5.
Qed.

Lemma processDir_body_agree (f g : dir_function) :
  agree f g -> agree (processDir_body w SrcFile f) (processDir_body w RootFile g).
Proof.
  intros Hfg dn pstr stats flags e Hall. unfold processDir_body in *.
  destruct (last dn) as [c|]; [|reflexivity].
  eapply bind_agree_run; [exact Hall|]. intros t [d|] e1 Hrun Ht H1.
  - cbn [checks_handle] in *.
    eapply bind_agree_r; [exact H1|]. intros e2 e3 H2.
    eapply bind_agree_r; [exact H2|]. intros _ e4 H3.
    eapply bind_agree_r; [exact H3|]. intros r e5 H4.
    eapply bind_agree_r; [exact H4|]. intros dirents e6 H5.
    cbv zeta in *.
    eapply bind_agree; [exact H5| |reflexivity].
    intros H6. apply entries_loop_agree; assumption.
  - exfalso. unfold opendir in Hrun.
    destruct (w_opendir w _) as [err|d]; vm_compute in Hrun.
    + injection Hrun as <- _. apply Forall_cons in Ht as [Hev _]. discriminate Hev.
    + discriminate Hrun.
Qed.

Lemma processDir_agree (fuel : nat) :
  agree (processDir w SrcFile fuel) (processDir w RootFile fuel).
Proof.
  induction fuel as [|fuel IH]; [intros dn pstr stats flags e _; reflexivity|].
  cbn [processDir]. apply processDir_body_agree, IH.
Qed.

End Agree.

(** X30: the two files differ only where a directory cannot be opened.
    When the traversal of [src/dirtree.c] meets no failure of [opendir],
    the traversal of the file without the test of the handle is the same
    run: the same events, the same result, the same [errno]. *)
Theorem files_agree_when_directories_open
    (w : world) (fuel : nat) (dn pstr : cstr) (stats : summary) (flags errno : Z) :
  Forall (fun ev => is_open_failure ev = false)
    (processDir w SrcFile fuel dn pstr stats flags errno).1 ->
  processDir w RootFile fuel dn pstr stats flags errno =
  processDir w SrcFile fuel dn pstr stats flags errno.
Proof. apply processDir_agree. Qed.

Lemma files_agree_when_directories_open_witness :
  processDir Demo.fs RootFile 3 (lit "t/b") [] summary_zero F_TREE 0 =
  processDir Demo.fs SrcFile 3 (lit "t/b") [] summary_zero F_TREE 0.
Proof.
  apply (files_agree_when_directories_open Demo.fs 3 (lit "t/b") [] summary_zero
           F_TREE 0).
  vm_compute. repeat constructor.
Defined.
